(** * ralph-tui: remote client, Kimi agent plugin, beads-rust tracker

    A shallow embedding of
    - [src/plugins/agents/builtin/kimi.ts] (the Kimi agent plugin),
    - [src/remote/client.ts] ([RemoteClient] and the instance tabs),
    - [src/plugins/trackers/builtin/beads-rust/index.ts] (the tracker
      plugin and its detection),
    and of the retry/backoff rules of the execution engine.

    Part I holds the model, Part II the properties. *)

From Stdlib Require Import ZArith NArith String Ascii.
From stdpp Require Import gmap strings list fin_maps pretty.
From Equations Require Import Equations.

Set Warnings "-register-all,-clear-no-such-hyp".

(* ===================================================================== *)
(** * Part I: the model                                                  *)
(* ===================================================================== *)

(** ** JavaScript strings

    A JS string is a sequence of 16-bit code units.  The parsers below only
    look at where the line feeds and the white space are, so the code units
    are kept as numbers. *)
Module Js.

Abbreviation jsstring := (list N).

(** Code units of a Rocq string literal (used to write inputs down). *)
Definition js (s : string) : jsstring :=
  map N_of_ascii (list_ascii_of_string s).

#[global] Arguments js : simpl never.

Definition LF : N := 10%N.

(** [WhiteSpace] and [LineTerminator] of ECMAScript: what
    [String.prototype.trim] strips. *)
Definition is_whitespace (c : N) : bool :=
  ((c =? 0x09) || (c =? 0x0A) || (c =? 0x0B) || (c =? 0x0C) || (c =? 0x0D)
   || (c =? 0x20) || (c =? 0xA0) || (c =? 0x1680)
   || ((0x2000 <=? c) && (c <=? 0x200A))
   || (c =? 0x2028) || (c =? 0x2029) || (c =? 0x202F) || (c =? 0x205F)
   || (c =? 0x3000) || (c =? 0xFEFF))%N.

Fixpoint trimStart (s : jsstring) : jsstring :=
  match s with
  | [] => []
  | c :: s' => if is_whitespace c then trimStart s' else s
  end.

Definition trimEnd (s : jsstring) : jsstring := rev (trimStart (rev s)).

(** [s.trim()] *)
Definition trim (s : jsstring) : jsstring := trimEnd (trimStart s).

(** Truthiness of a string: [!s] is true exactly for the empty string. *)
Definition truthy (s : jsstring) : bool :=
  match s with [] => false | _ => true end.

(** [s.split('\n')]: always at least one piece. *)
Fixpoint split (s : jsstring) : list jsstring :=
  match s with
  | [] => [[]]
  | c :: s' =>
      if (c =? LF)%N then [] :: split s'
      else match split s' with
           | [] => [[c]]
           | l :: ls => (c :: l) :: ls
           end
  end.

(** [s.indexOf('\n')], [-1] when there is none. *)
Fixpoint indexOf_from (s : jsstring) (i : Z) : Z :=
  match s with
  | [] => (-1)%Z
  | c :: s' => if (c =? LF)%N then i else indexOf_from s' (i + 1)%Z
  end.

Definition indexOf (s : jsstring) : Z := indexOf_from s 0%Z.

(** [s.slice(a, b)] and [s.slice(a)] for [0 <= a]. *)
Definition slice (s : jsstring) (a b : Z) : jsstring :=
  take (Z.to_nat b - Z.to_nat a) (drop (Z.to_nat a) s).

Definition slice_from (s : jsstring) (a : Z) : jsstring :=
  drop (Z.to_nat a) s.

Lemma indexOf_from_range (s : jsstring) (i : Z) :
  (0 <= i)%Z ->
  indexOf_from s i = (-1)%Z \/
  (i <= indexOf_from s i < i + Z.of_nat (length s))%Z.
Proof.
  revert i; induction s as [|c s IH]; intros i Hi; simpl; [by left|].
  destruct (c =? LF)%N; [right; lia|].
  destruct (IH (i + 1)%Z) as [->|?]; [lia|by left|right; lia].
Qed.

(** JSON values, as [JSON.parse] builds them.  A number is an IEEE
    double in JS; the code below only asks [typeof x === 'number'] and
    copies the value, so the payload is carried as it comes. *)
Inductive json : Type :=
| JNull
| JBool (b : bool)
| JNumber (n : Z)
| JString (s : jsstring)
| JArray (items : list json)
| JObject (fields : list (jsstring * json)).

(** [v.key] on a non-null value: [None] is [undefined]. *)
Fixpoint assoc (key : jsstring) (fields : list (jsstring * json)) : option json :=
  match fields with
  | [] => None
  | (k, v) :: rest => if bool_decide (k = key) then Some v else assoc key rest
  end.

Definition get (v : json) (key : string) : option json :=
  match v with
  | JObject fields => assoc (js key) fields
  | _ => None
  end.

(** [typeof x === 'string'] on a property that may be undefined. *)
Definition as_string (x : option json) : option jsstring :=
  match x with Some (JString s) => Some s | _ => None end.

(** [typeof x === 'number'] *)
Definition as_number (x : option json) : option Z :=
  match x with Some (JNumber n) => Some n | _ => None end.

(** [x && typeof x === 'object']: objects and arrays ([null] is falsy). *)
Definition as_object (x : option json) : option json :=
  match x with
  | Some (JObject f) => Some (JObject f)
  | Some (JArray l) => Some (JArray l)
  | _ => None
  end.

(** Truthiness of a property value ([undefined] when absent).  [NaN]
    does not occur in parsed JSON. *)
Definition truthy_value (x : option json) : bool :=
  match x with
  | None | Some JNull => false
  | Some (JBool b) => b
  | Some (JNumber n) => negb (n =? 0)%Z
  | Some (JString s) => truthy s
  | Some (JArray _) | Some (JObject _) => true
  end.

(** [x ?? d] *)
Definition nullish_or (x : option json) (d : json) : json :=
  match x with
  | None | Some JNull => d
  | Some v => v
  end.

(** [x === 'literal'] for a property value. *)
Definition is_literal (x : option json) (lit : string) : bool :=
  match x with
  | Some (JString s) => bool_decide (s = js lit)
  | _ => false
  end.

End Js.

(** ** The Kimi agent plugin: JSONL parsing *)
Module Kimi.
Import Js.

Record KimiTool := {
  tool_name : option jsstring;
  tool_input : option json;
}.

Record KimiCost := {
  inputTokens : option Z;
  outputTokens : option Z;
  totalUSD : option Z;
}.

Record KimiJsonlMessage := {
  msg_type : option jsstring;
  msg_message : option jsstring;
  msg_tool : option KimiTool;
  msg_result : option json;
  msg_cost : option KimiCost;
  msg_sessionId : option jsstring;
  msg_raw : json;
}.

(** [{ success: true; message } | { success: false; raw; error }] *)
Inductive KimiJsonlParseResult :=
| ParseSuccess (message : KimiJsonlMessage)
| ParseFailure (raw : jsstring) (error : string).

(** The closure state of [createStreamingJsonlParser]. *)
Record StreamingParser := {
  buffer : jsstring;
  messages : list KimiJsonlMessage;
  fallback : list jsstring;
}.

Definition inspect {A} (a : A) : {b | a = b} := exist _ a eq_refl.

Section Parser.
(** [JSON.parse]: the parsed value, or the message of the [SyntaxError]
    it throws. *)
Variable JSON_parse : jsstring -> string + json.
(** Message of the [TypeError] raised by reading a property of [null]. *)
Variable TypeError_message : string.

Definition parseJsonlLine (line : jsstring) : KimiJsonlParseResult :=
  let trimmed := trim line in
  if negb (truthy trimmed) then ParseFailure line "Empty line"
  else
    match JSON_parse trimmed with
    | inl err => ParseFailure line err
    | inr JNull => ParseFailure line TypeError_message
    | inr parsed =>
        ParseSuccess {|
          msg_raw := parsed;
          msg_type := as_string (get parsed "type");
          msg_message := as_string (get parsed "message");
          msg_sessionId := as_string (get parsed "sessionId");
          msg_result := get parsed "result";
          msg_tool :=
            match as_object (get parsed "tool") with
            | Some toolObj =>
                Some {| tool_name := as_string (get toolObj "name");
                        tool_input := as_object (get toolObj "input") |}
            | None => None
            end;
          msg_cost :=
            match as_object (get parsed "cost") with
            | Some costObj =>
                Some {| inputTokens := as_number (get costObj "inputTokens");
                        outputTokens := as_number (get costObj "outputTokens");
                        totalUSD := as_number (get costObj "totalUSD") |}
            | None => None
            end;
        |}
    end.

(** The [if (result.success) ... else if (result.raw.trim()) ...] block
    that all three loops share: it pushes onto [messages] or [fallback]. *)
Definition collect (acc : list KimiJsonlMessage * list jsstring)
    (result : KimiJsonlParseResult) : list KimiJsonlMessage * list jsstring :=
  match result with
  | ParseSuccess message => (acc.1 ++ [message], acc.2)
  | ParseFailure raw _ =>
      if truthy (trim raw) then (acc.1, acc.2 ++ [raw]) else acc
  end.

Definition parseJsonlOutput (output : jsstring)
    : list KimiJsonlMessage * list jsstring :=
  let lines := split output in
  fold_left (fun acc line => collect acc (parseJsonlLine line)) lines ([], []).

Definition createStreamingJsonlParser : StreamingParser :=
  {| buffer := []; messages := []; fallback := [] |}.

(** The [while ((newlineIndex = buffer.indexOf('\n')) !== -1)] loop of
    [push]; it ends because every turn shortens the buffer. *)
Equations? push_loop (p : StreamingParser) (results : list KimiJsonlParseResult)
    : list KimiJsonlParseResult * StreamingParser
    by wf (length (buffer p)) lt :=
  push_loop p results with inspect (indexOf (buffer p)) := {
    | exist _ newlineIndex Hidx with inspect (newlineIndex =? -1)%Z := {
      | exist _ true _ := (results, p)
      | exist _ false Hne :=
          let line := slice (buffer p) 0 newlineIndex in
          let result := parseJsonlLine line in
          let acc := collect (messages p, fallback p) result in
          push_loop {| buffer := slice_from (buffer p) (newlineIndex + 1);
                       messages := acc.1; fallback := acc.2 |}
                    (results ++ [result]) } }.
Proof.
  simpl. unfold slice_from. rewrite length_drop.
  destruct (indexOf_from_range (buffer p) 0) as [H|H]; [lia| |];
    unfold indexOf in *; lia.
Qed.

Definition push (chunk : jsstring) (p : StreamingParser)
    : list KimiJsonlParseResult * StreamingParser :=
  push_loop {| buffer := buffer p ++ chunk;
               messages := messages p; fallback := fallback p |} [].

Definition flush (p : StreamingParser)
    : list KimiJsonlParseResult * StreamingParser :=
  if negb (truthy (trim (buffer p))) then
    ([], {| buffer := []; messages := messages p; fallback := fallback p |})
  else
    let result := parseJsonlLine (buffer p) in
    let acc := collect (messages p, fallback p) result in
    ([result], {| buffer := []; messages := acc.1; fallback := acc.2 |}).

Definition getState (p : StreamingParser)
    : list KimiJsonlMessage * list jsstring :=
  (messages p, fallback p).

(** Pushing the chunks of a stream in order, dropping what each [push]
    returns. *)
Definition push_all (chunks : list jsstring) (p : StreamingParser)
    : StreamingParser :=
  fold_left (fun p chunk => (push chunk p).2) chunks p.

End Parser.

(** *** [detect] and [runVersion] *)

(** What [findCommandPath] resolves to. *)
Record FindResult := {
  found : bool;
  path : jsstring;
}.

(** What the child process started by [runVersion] raises: output on
    [stdout] or [stderr], an ['error'] event with [error.message], or its
    ['close'] event with the exit code ([null] when a signal ended it). *)
Inductive ProcEvent :=
| StdoutData (data : jsstring)
| StderrData (data : jsstring)
| ProcError (message : jsstring)
| ProcClose (code : option Z).

(** [{ success, version?, error? }] *)
Record VersionResult := {
  success : bool;
  version : option jsstring;
  error : option jsstring;
}.

(** A promise: pending, resolved or rejected.  Only the first call of
    [resolve] or [reject] counts. *)
Inductive Promise (A : Type) :=
| PromisePending
| PromiseResolved (value : A)
| PromiseRejected (reason : jsstring).
Arguments PromisePending {A}.
Arguments PromiseResolved {A} value.
Arguments PromiseRejected {A} reason.

Definition resolve {A} (value : A) (p : Promise A) : Promise A :=
  match p with
  | PromisePending => PromiseResolved value
  | _ => p
  end.

(** The local state of the executor of [runVersion]. *)
Record VersionProbe := {
  stdout : jsstring;
  stderr : jsstring;
  settled : Promise VersionResult;
}.

(** What [await] makes of a promise once nothing more can happen to it. *)
Inductive Outcome (A : Type) :=
| Returns (value : A)
| Throws (reason : jsstring)
| NeverReturns.
Arguments Returns {A} value.
Arguments Throws {A} reason.
Arguments NeverReturns {A}.

Definition await {A} (p : Promise A) : Outcome A :=
  match p with
  | PromisePending => NeverReturns
  | PromiseResolved v => Returns v
  | PromiseRejected e => Throws e
  end.

(** [AgentDetectResult] *)
Record AgentDetectResult := {
  available : bool;
  detected_version : option jsstring;
  executablePath : option jsstring;
  detect_error : option jsstring;
}.

(** [`${code}`] *)
Definition code_to_string (code : option Z) : jsstring :=
  match code with
  | Some n => js (pretty n)
  | None => js "null"
  end.

(** [a || b] on strings *)
Definition or_else (a b : jsstring) : jsstring :=
  if truthy a then a else b.

Section Detect.
(** [await findCommandPath(command)], of [../base.js], which looks the
    command up in PATH: what the wait for its promise ends in. *)
Variable findCommandPath : jsstring -> Outcome FindResult.
(** [spawn(useShell ? quoteForWindowsShell(command) : command,
    ['--version'], ...)], by [command]: the message of the error that
    [spawn] throws before it returns a child process, or [None] when it
    returns one.  Node reports the failures EACCES, EAGAIN, EMFILE, ENFILE
    and ENOENT of a spawn with an ['error'] event of the child process and
    throws on every other one (ETXTBSY, ENOTDIR, E2BIG, ...), as it does
    on an empty file name. *)
Variable spawn_throws : jsstring -> option jsstring.
(** [s.match(/(\d+\.\d+\.\d+)/)?.[1]] *)
Variable match_version : jsstring -> option jsstring.

(** The handlers that [runVersion] installs on the child process. *)
Definition on_event (probe : VersionProbe) (e : ProcEvent) : VersionProbe :=
  match e with
  | StdoutData data =>
      {| stdout := stdout probe ++ data; stderr := stderr probe;
         settled := settled probe |}
  | StderrData data =>
      {| stdout := stdout probe; stderr := stderr probe ++ data;
         settled := settled probe |}
  | ProcError message =>
      {| stdout := stdout probe; stderr := stderr probe;
         settled :=
           resolve {| success := false; version := None;
                      error := Some (js "Failed to execute: " ++ message) |}
                   (settled probe) |}
  | ProcClose code =>
      {| stdout := stdout probe; stderr := stderr probe;
         settled :=
           match code with
           | Some 0%Z =>
               resolve {| success := true;
                          version := match_version (stdout probe);
                          error := None |}
                       (settled probe)
           | _ =>
               resolve {| success := false; version := None;
                          error :=
                            Some (or_else (stderr probe)
                                    (js "Exited with code " ++ code_to_string code)) |}
                       (settled probe)
           end |}
  end.

(** The callback of [setTimeout(..., 15000)]: [proc.kill()], then
    [resolve]. *)
Definition on_timeout (probe : VersionProbe) : VersionProbe :=
  {| stdout := stdout probe; stderr := stderr probe;
     settled :=
       resolve {| success := false; version := None;
                  error := Some (js "Timeout waiting for --version") |}
               (settled probe) |}.

(** [runVersion(command)].  An error thrown by [spawn] leaves the executor
    of the promise, which rejects the promise with it; no handler and no
    timer is installed then.  Otherwise [before] lists what the child
    process raises in its first 15 seconds; then the timer fires (it is
    never cleared).  What the process raises later finds the promise
    settled. *)
Definition runVersion (command : jsstring) (before : list ProcEvent)
    : Promise VersionResult :=
  match spawn_throws command with
  | Some reason => PromiseRejected reason
  | None =>
      let probe := {| stdout := []; stderr := []; settled := PromisePending |} in
      settled (on_timeout (fold_left on_event before probe))
  end.

(** [detect()]: the result and the new value of [this.commandPath].
    Neither [await] stands in a [try]: what [findCommandPath] or
    [runVersion] rejects with, [detect] rejects with. *)
Definition detect (commandPath : option jsstring) (defaultCommand : jsstring)
    (before : list ProcEvent)
    : Outcome AgentDetectResult * option jsstring :=
  let command := match commandPath with Some c => c | None => defaultCommand end in
  match findCommandPath command with
  | Throws reason => (Throws reason, commandPath)
  | NeverReturns => (NeverReturns, commandPath)
  | Returns findResult =>
      if negb (found findResult) then
        (Returns {| available := false; detected_version := None;
                    executablePath := None;
                    detect_error :=
                      Some (js "Kimi CLI not found in PATH. Install with: uv tool install kimi-cli") |},
         commandPath)
      else
        let commandPath := Some (path findResult) in
        match await (runVersion (path findResult) before) with
        | Returns versionResult =>
            if negb (success versionResult) then
              (Returns {| available := false; detected_version := None;
                          executablePath := Some (path findResult);
                          detect_error := error versionResult |},
               commandPath)
            else
              (Returns {| available := true;
                          detected_version := version versionResult;
                          executablePath := Some (path findResult);
                          detect_error := None |},
               commandPath)
        | Throws reason => (Throws reason, commandPath)
        | NeverReturns => (NeverReturns, commandPath)
        end
  end.

End Detect.

(** The first event of a list that settles the promise of [runVersion]. *)
Fixpoint first_settling (events : list ProcEvent) : option ProcEvent :=
  match events with
  | [] => None
  | (StdoutData _ | StderrData _) :: rest => first_settling rest
  | e :: _ => Some e
  end.

(** A run of [detect]: [kimi] is found in PATH while the file is being
    replaced, so that [spawn] fails with ETXTBSY. *)
Definition sample_kimi_path : jsstring := js "/usr/local/bin/kimi".

Definition sample_findCommandPath (command : jsstring) : Outcome FindResult :=
  Returns {| found := true; path := sample_kimi_path |}.

Definition sample_spawn_throws (command : jsstring) : option jsstring :=
  Some (js "spawn ETXTBSY").

End Kimi.

(** ** The Kimi agent plugin: configuration, arguments, display events *)
Module KimiPlugin.
Import Js Kimi.

(** ['text' | 'stream-json'] *)
Inductive OutputMode := text | stream_json.

#[export] Instance OutputMode_eq_dec : EqDecision OutputMode.
Proof. solve_decision. Defined.

(** The private fields of [KimiAgentPlugin] that [initialize] sets and
    that [buildArgs] and [execute] read.  A number is kept as an integer
    (the timeout is a count of milliseconds). *)
Record KimiAgentPlugin := {
  outputMode : OutputMode;
  model : option jsstring;
  thinking : option bool;
  defaultTimeout : Z;
}.

(** The field initialisers of the class. *)
Definition new_KimiAgentPlugin : KimiAgentPlugin :=
  {| outputMode := text; model := None; thinking := None; defaultTimeout := 0 |}.

(** The four [if] statements of [initialize], in their order; [config] is
    the configuration object. *)
Definition init_outputMode (config : json) (p : KimiAgentPlugin) : KimiAgentPlugin :=
  match get config "outputMode" with
  | Some (JString s) =>
      if bool_decide (s = js "text") then
        {| outputMode := text; model := model p; thinking := thinking p;
           defaultTimeout := defaultTimeout p |}
      else if bool_decide (s = js "stream-json") then
        {| outputMode := stream_json; model := model p; thinking := thinking p;
           defaultTimeout := defaultTimeout p |}
      else p
  | _ => p
  end.

Definition init_model (config : json) (p : KimiAgentPlugin) : KimiAgentPlugin :=
  match get config "model" with
  | Some (JString s) =>
      if (0 <? length s)%nat then
        {| outputMode := outputMode p; model := Some s; thinking := thinking p;
           defaultTimeout := defaultTimeout p |}
      else p
  | _ => p
  end.

Definition init_thinking (config : json) (p : KimiAgentPlugin) : KimiAgentPlugin :=
  match get config "thinking" with
  | Some (JBool b) =>
      {| outputMode := outputMode p; model := model p; thinking := Some b;
         defaultTimeout := defaultTimeout p |}
  | _ => p
  end.

Definition init_timeout (config : json) (p : KimiAgentPlugin) : KimiAgentPlugin :=
  match get config "timeout" with
  | Some (JNumber n) =>
      if (0 <? n)%Z then
        {| outputMode := outputMode p; model := model p; thinking := thinking p;
           defaultTimeout := n |}
      else p
  | _ => p
  end.

(** The statements of [initialize(config)] that follow
    [await super.initialize(config)], on the plugin as the base class
    leaves it; the method as a whole is [initialize_with_base] below. *)
Definition initialize (config : json) (p : KimiAgentPlugin) : KimiAgentPlugin :=
  init_timeout config (init_thinking config (init_model config (init_outputMode config p))).

Section Base.
(** [await super.initialize(config)]: [initialize] of [BaseAgentPlugin]
    ([../base.js]), which runs first and on the same [config].  What the
    wait for it ends in, and the plugin as it leaves it: [defaultTimeout]
    is a field that the base class declares and this class overrides, and
    nothing keeps the base class from the other three at run time. *)
Variable super_initialize :
  json -> KimiAgentPlugin -> Kimi.Outcome unit * KimiAgentPlugin.

(** [initialize(config)] as a whole: the four statements run when the
    base class returns, and not at all otherwise. *)
Definition initialize_with_base (config : json) (p : KimiAgentPlugin)
    : Kimi.Outcome unit * KimiAgentPlugin :=
  match super_initialize config p with
  | (Kimi.Returns _, p') => (Kimi.Returns tt, initialize config p')
  | (outcome, p') => (outcome, p')
  end.

End Base.

(** The members of [AgentExecuteOptions] ([../types.js]) that this file
    reads; of a callback only whether it is given. *)
Record AgentExecuteOptions := {
  subagentTracing : option bool;
  flags : option (list jsstring);
  onStdout : bool;
  onStdoutSegments : bool;
  onJsonlMessage : bool;
}.

(** [s.startsWith(p)] *)
Definition startsWith (s p : jsstring) : bool := bool_decide (p `prefix_of` s).

(** [options?.subagentTracing || this.outputMode === 'stream-json'] *)
Definition useStreamJson (options : option AgentExecuteOptions)
    (p : KimiAgentPlugin) : bool :=
  match options ≫= subagentTracing with
  | Some true => true
  | _ => bool_decide (outputMode p = stream_json)
  end.

(** [buildArgs(prompt, _files, options)]; the files are not looked at.  A
    flag found by [find] starts with [--model], so it is truthy. *)
Definition buildArgs (prompt : jsstring) (options : option AgentExecuteOptions)
    (p : KimiAgentPlugin) : list jsstring :=
  let args := [js "--print"] in
  let args :=
    if useStreamJson options p
    then args ++ [js "--output-format"; js "stream-json"]
    else args ++ [js "--output-format"; js "text"] in
  let modelToUse :=
    match (options ≫= flags) ≫= List.find (fun f => startsWith f (js "--model")) with
    | Some _ => None
    | None => model p
    end in
  let args :=
    match modelToUse with
    | Some m => if truthy m then args ++ [js "--model"; m] else args
    | None => args
    end in
  let args :=
    match thinking p with
    | Some true => args ++ [js "--thinking"]
    | Some false => args ++ [js "--no-thinking"]
    | None => args
    end in
  args ++ [js "--prompt"; prompt].

(** *** Validation *)

Definition VALID_KIMI_MODELS : list jsstring := [js ""; js "kimi-for-coding"].

(** [xs.join(sep)] on strings *)
Fixpoint join (sep : jsstring) (xs : list jsstring) : jsstring :=
  match xs with
  | [] => []
  | [x] => x
  | x :: rest => x ++ sep ++ join sep rest
  end.

(** [VALID_KIMI_MODELS.filter((m) => m).join(', ')] *)
Definition valid_models_text : jsstring :=
  join (js ", ") (List.filter truthy VALID_KIMI_MODELS).

(** [VALID_KIMI_MODELS.includes(x)] for any value [x]: only a string can be
    a member. *)
Definition is_valid_model (x : json) : bool :=
  match x with
  | JString s => bool_decide (s ∈ VALID_KIMI_MODELS)
  | _ => false
  end.

(** The code unit of the double quote. *)
Definition QUOTE : N := 34%N.

(** [x === ''] *)
Definition is_empty_string (x : json) : bool :=
  match x with
  | JString [] => true
  | _ => false
  end.

(** [validateModel(model)]: [None] is [null], otherwise the complaint. *)
Definition validateModel (m : option jsstring) : option jsstring :=
  match m with
  | None => None
  | Some s =>
      if bool_decide (s = js "") then None
      else if negb (is_valid_model (JString s)) then
        Some (js "Invalid model " ++ [QUOTE] ++ s ++ [QUOTE]
              ++ js ". Kimi agent accepts: " ++ valid_models_text)
      else None
  end.

Section Validate.
(** [String(n)] for a number. *)
Variable Number_toString : Z -> jsstring.

(** [String(v)]: an array is joined with commas, [null] elements giving
    the empty string. *)
Fixpoint String_ (v : json) : jsstring :=
  match v with
  | JNull => js "null"
  | JBool true => js "true"
  | JBool false => js "false"
  | JNumber n => Number_toString n
  | JString s => s
  | JArray items =>
      join (js ",")
        (map (fun x => match x with JNull => [] | _ => String_ x end) items)
  | JObject _ => js "[object Object]"
  end.

(** [validateSetup(answers)] *)
Definition validateSetup (answers : json) : option jsstring :=
  let bad_outputMode :=
    match get answers "outputMode" with
    | None => false
    | Some outputMode =>
        negb (is_empty_string outputMode)
        && negb (bool_decide (String_ outputMode ∈ [js "text"; js "stream-json"]))
    end in
  if bad_outputMode then
    Some (js "Invalid output mode. Must be one of: text, stream-json")
  else
    let bad_model :=
      match get answers "model" with
      | None => false
      | Some model =>
          negb (is_empty_string model)
          && negb (is_valid_model model)
      end in
    if bad_model then
      Some (js "Invalid model. Must be one of: " ++ valid_models_text
            ++ js " (or leave empty for default)")
    else None.

End Validate.

(** *** Display events *)

(** The [AgentDisplayEvent] objects this file builds (the type is declared
    in [../output-formatting.js]).  What is copied from the parsed JSON
    without a [typeof] test can be any value, or [undefined] ([None]). *)
Inductive AgentDisplayEvent :=
| DisplayText (content : jsstring)
| DisplayToolUse (name : jsstring) (input : option json)
| DisplayToolResult
| DisplaySystem (subtype : option json)
| DisplayError (message : json).

(** A [for (const block of blocks)] loop whose body pushes events and may
    throw ([None]), which abandons the loop. *)
Fixpoint for_blocks (body : json -> option (list AgentDisplayEvent))
    (blocks : list json) : option (list AgentDisplayEvent) :=
  match blocks with
  | [] => Some []
  | block :: rest =>
      match body block with
      | None => None
      | Some events =>
          match for_blocks body rest with
          | None => None
          | Some events' => Some (events ++ events')
          end
      end
  end.

(** The body of the loop over the content of an assistant message.
    Reading [block.type] throws when the block is [null]. *)
Definition assistant_block (block : json) : option (list AgentDisplayEvent) :=
  match block with
  | JNull => None
  | _ =>
      match (if is_literal (get block "type") "text"
             then as_string (get block "text") else None) with
      | Some t => Some [DisplayText t]
      | None =>
          match (if is_literal (get block "type") "tool_use"
                 then as_string (get block "name") else None) with
          | Some name => Some [DisplayToolUse name (get block "input")]
          | None => Some []
          end
      end
  end.

(** [x === true] *)
Definition is_true (x : option json) : bool :=
  match x with
  | Some (JBool true) => true
  | _ => false
  end.

(** The body of the loop over the content of a user message. *)
Definition user_block (block : json) : option (list AgentDisplayEvent) :=
  match block with
  | JNull => None
  | _ =>
      if is_literal (get block "type") "tool_result" && is_true (get block "is_error")
      then
        let errorContent :=
          match as_string (get block "content") with
          | Some c => c
          | None => js "tool execution failed"
          end in
        Some [DisplayError (JString errorContent)]
      else Some []
  end.

(** [x?.key] and [x.key] on a value that is not [null]. *)
Definition get_opt (x : option json) (key : string) : option json :=
  x ≫= (fun v => get v key).

(** The body of the [try] of [parseKimiJsonLine] after [JSON.parse], for a
    parsed value that is not [null]; [None] when it throws. *)
Definition display_events (event : json) : option (list AgentDisplayEvent) :=
  let type := get event "type" in
  let message := get event "message" in
  match
    (if is_literal type "assistant" && truthy_value message then
       match get_opt message "content" with
       | Some (JArray blocks) => for_blocks assistant_block blocks
       | _ =>
           match as_string (get_opt message "text") with
           | Some t => Some [DisplayText t]
           | None => Some []
           end
       end
     else Some [])
  with
  | None => None
  | Some assistant =>
      match
        (if is_literal type "user" then
           match
             (match get_opt message "content" with
              | Some (JArray blocks) => for_blocks user_block blocks
              | _ => Some []
              end)
           with
           | None => None
           | Some errors => Some (errors ++ [DisplayToolResult])
           end
         else Some [])
      with
      | None => None
      | Some user =>
          let system :=
            if is_literal type "system"
            then [DisplaySystem (get event "subtype")] else [] in
          let error :=
            if is_literal type "error" || truthy_value (get event "error") then
              let errorMsg :=
                match get event "error" with
                | Some (JString s) => JString s
                | e => nullish_or (get_opt e "message") (JString (js "Unknown error"))
                end in
              [DisplayError errorMsg]
            else [] in
          Some (assistant ++ user ++ system ++ error)
      end
  end.

Section Display.
(** [JSON.parse], as for the JSONL parsers. *)
Variable JSON_parse : jsstring -> string + json.

(** [parseKimiJsonLine(jsonLine)]: whatever is thrown inside the [try]
    (by [JSON.parse], by reading a property of [null]) gives [[]]. *)
Definition parseKimiJsonLine (jsonLine : jsstring) : list AgentDisplayEvent :=
  if negb (truthy jsonLine) || bool_decide (length jsonLine = 0) then []
  else
    match JSON_parse jsonLine with
    | inl _ => []
    | inr JNull => []
    | inr event =>
        match display_events event with
        | Some events => events
        | None => []
        end
    end.

(** [parseKimiOutputToEvents(data)] *)
Definition parseKimiOutputToEvents (data : jsstring) : list AgentDisplayEvent :=
  fold_left (fun allEvents line => allEvents ++ parseKimiJsonLine (trim line))
    (split data) [].

(** *** The [onStdout] that [execute] hands to the base class *)

Context {Segment : Type}.
(** [processAgentEvents] and [processAgentEventsToSegments] of
    [../output-formatting.js]. *)
Variable processAgentEvents : list AgentDisplayEvent -> jsstring.
Variable processAgentEventsToSegments : list AgentDisplayEvent -> list Segment.

(** A call of one of the callbacks of the caller's options.  They are
    taken to return normally (what [onJsonlMessage] throws is caught). *)
Inductive CallbackCall :=
| CallJsonlMessage (rawJson : json)
| CallStdoutSegments (segments : list Segment)
| CallStdout (data : jsstring).

(** The arrow function that wraps the callbacks: the calls it makes for
    one piece of output, in order. *)
Definition wrapped_onStdout (options : AgentExecuteOptions) (data : jsstring)
    : list CallbackCall :=
  let jsonl :=
    fold_left
      (fun calls line =>
         let trimmed := trim line in
         if negb (truthy trimmed) then calls
         else if onJsonlMessage options then
           match JSON_parse trimmed with
           | inr rawJson => calls ++ [CallJsonlMessage rawJson]
           | inl _ => calls
           end
         else calls)
      (split data) [] in
  let events := parseKimiOutputToEvents data in
  let display :=
    if (0 <? length events)%nat then
      (if onStdoutSegments options then
         let segments := processAgentEventsToSegments events in
         if (0 <? length segments)%nat then [CallStdoutSegments segments] else []
       else [])
      ++
      (if onStdout options then
         let parsed := processAgentEvents events in
         if (0 <? length parsed)%nat then [CallStdout parsed] else []
       else [])
    else [] in
  jsonl ++ display.

(** [parsedOptions.onStdout] as [execute] builds it: what a piece of
    output makes it call, [None] when the member is left undefined. *)
Definition execute_onStdout (options : option AgentExecuteOptions)
    (p : KimiAgentPlugin) : option (jsstring -> list CallbackCall) :=
  let isStreamingJson := useStreamJson options p in
  match options with
  | Some o =>
      if isStreamingJson && (onStdout o || onStdoutSegments o || onJsonlMessage o)
      then Some (wrapped_onStdout o)
      else if onStdout o then Some (fun data => [CallStdout data]) else None
  | None => None
  end.

End Display.

End KimiPlugin.

(** ** Reading what the JSONL parsers return *)
Module KimiResults.
Import Js Kimi.

(** The messages of the results with [success: true], in order. *)
Definition successes (results : list KimiJsonlParseResult) : list KimiJsonlMessage :=
  omap (fun r => match r with
                 | ParseSuccess message => Some message
                 | ParseFailure _ _ => None
                 end) results.

(** The [raw] of the results with [success: false] whose [raw] is not
    blank, in order. *)
Definition failures (results : list KimiJsonlParseResult) : list jsstring :=
  omap (fun r => match r with
                 | ParseSuccess _ => None
                 | ParseFailure raw _ => if truthy (trim raw) then Some raw else None
                 end) results.

(** A line that [trim] empties. *)
Definition is_blank (line : jsstring) : bool := negb (truthy (trim line)).

(** How many line feeds a string holds. *)
Definition count_LF (s : jsstring) : nat :=
  length (List.filter (fun c => (c =? LF)%N) s).

(** The values handed to [onJsonlMessage], in order. *)
Definition jsonl_values {Segment : Type}
    (calls : list (@KimiPlugin.CallbackCall Segment)) : list json :=
  omap (fun c => match c with
                 | KimiPlugin.CallJsonlMessage v => Some v
                 | _ => None
                 end) calls.

(** The calls of [onJsonlMessage] that one line of output causes. *)
Definition line_calls (JSON_parse : jsstring -> string + json) {Segment : Type}
    (line : jsstring) : list (@KimiPlugin.CallbackCall Segment) :=
  if negb (truthy (trim line)) then []
  else match JSON_parse (trim line) with
       | inr rawJson => [KimiPlugin.CallJsonlMessage rawJson]
       | inl _ => []
       end.

(** [v !== null] *)
Definition not_null (v : json) : bool :=
  match v with
  | JNull => false
  | _ => true
  end.

(** A line that [JSON.parse] rejects or that is blank. *)
Definition not_json (JSON_parse : jsstring -> string + json) (line : jsstring) : Prop :=
  is_blank line = true \/ exists err, JSON_parse (trim line) = inl err.

(** *** Sample lines

    A stand-in for [JSON.parse] that reads the three lines below and
    rejects every other text. *)
Definition quoted (s : string) : jsstring :=
  KimiPlugin.QUOTE :: js s ++ [KimiPlugin.QUOTE].

Definition sample_system_line : jsstring :=
  js "{" ++ quoted "type" ++ js ":" ++ quoted "system" ++ js "}".

Definition sample_null_block_line : jsstring :=
  js "{" ++ quoted "type" ++ js ":" ++ quoted "assistant" ++ js ","
  ++ quoted "message" ++ js ":{" ++ quoted "content" ++ js ":[{"
  ++ quoted "type" ++ js ":" ++ quoted "text" ++ js "," ++ quoted "text"
  ++ js ":" ++ quoted "hi" ++ js "},null]}}".

Definition sample_null_block_event : json :=
  JObject [(js "type", JString (js "assistant"));
           (js "message",
            JObject [(js "content",
                      JArray [JObject [(js "type", JString (js "text"));
                                       (js "text", JString (js "hi"))];
                              JNull])])].

Definition sample_JSON_parse (text : jsstring) : string + json :=
  if bool_decide (text = sample_system_line)
  then inr (JObject [(js "type", JString (js "system"))])
  else if bool_decide (text = sample_null_block_line)
  then inr sample_null_block_event
  else if bool_decide (text = js "null") then inr JNull
  else inl "Unexpected token"%string.

End KimiResults.
(** ** The remote client ([src/remote/client.ts])

    The client object lives in a world that also holds what it acts on:
    the sockets it has created, the armed timers, and logs of what it
    sent, of the calls of its event handler and of the calls of the
    [resolve]/[reject] functions of the promises it handed out.  Values
    that the runtime supplies ([crypto.randomUUID()], [new Date()], the
    outcome of [new WebSocket(url)], the parsed frame) are arguments. *)
Module Remote.
Import Js.

Inductive ConnectionStatus := disconnected | connecting | connected.

#[export] Instance ConnectionStatus_eq_dec : EqDecision ConnectionStatus.
Proof. solve_decision. Defined.

Inductive ReadyState := CONNECTING | OPEN | CLOSING | CLOSED.

#[export] Instance ReadyState_eq_dec : EqDecision ReadyState.
Proof. solve_decision. Defined.

(** A [WebSocket] object: its [readyState], whether the four handlers
    [onopen]/[onmessage]/[onerror]/[onclose] are installed (by [connect])
    or nulled (by [cleanup]), and whether its close event has fired. *)
Record WebSocket := {
  readyState : ReadyState;
  handlers : bool;
  closeFired : bool;
}.

(** [RemoteClientEvent] *)
Inductive RemoteClientEvent :=
| EvConnecting
| EvConnected
| EvDisconnected (error : option json)
| EvMessage (message : json)
| EvEngineEvent (event : option json).

(** [PendingRequest]: [resolve] and [reject] belong to one promise. *)
Record PendingRequest := {
  promise : nat;
  timeout : nat;
}.

(** The public methods that go through [request]; the tag stands for the
    code that runs after [await this.request(...)]. *)
Inductive Method :=
| m_subscribe | m_unsubscribe | m_getState | m_getTasks | m_pause | m_resume
| m_interrupt | m_refreshTasks | m_addIterations | m_removeIterations
| m_continueExecution.

(** A call of [resolve(value)] or of [reject(new Error(error))]. *)
Inductive Settlement :=
| Resolved (value : json)
| Rejected (error : jsstring).

(** The fields of the [RemoteClient] object. *)
Record RemoteClient := {
  ws : option nat;
  token : jsstring;
  pingInterval : option nat;
  _status : ConnectionStatus;
  pendingRequests : gmap jsstring PendingRequest;
  _subscribed : bool;
}.

Record World := {
  client : RemoteClient;
  (** every [WebSocket] created so far, by creation number *)
  sockets : gmap nat WebSocket;
  (** frames transmitted: socket and the object given to [JSON.stringify] *)
  wire : list (nat * json);
  (** calls of [eventHandler] *)
  handled : list RemoteClientEvent;
  (** calls of [resolve]/[reject] of request promises *)
  settled : list (nat * Settlement);
  (** which method awaits which request promise *)
  callers : gmap nat Method;
  (** armed [setTimeout] handles with what the callback captured *)
  timeouts : gmap nat (jsstring * nat);
  (** armed [setInterval] handles *)
  intervals : gset nat;
  (** calls of [resolve] ([None]) / [reject] of the promise of a [connect] *)
  connectSettled : list (nat * option json);
  nextRequest : nat;
  nextInterval : nat;
  nextConnect : nat;
}.

(** Field updates.  Each one takes the record apart and rebuilds it with
    one field replaced. *)

Definition with_client (f : RemoteClient -> RemoteClient) (w : World) : World :=
  let 'Build_World x_client x_sockets x_wire x_handled x_settled x_callers x_timeouts x_intervals x_connectSettled x_nextRequest x_nextInterval x_nextConnect := w in
  Build_World (f x_client) x_sockets x_wire x_handled x_settled x_callers x_timeouts x_intervals x_connectSettled x_nextRequest x_nextInterval x_nextConnect.

Definition set_ws (v : option nat) (c : RemoteClient) : RemoteClient :=
  let 'Build_RemoteClient y_ws y_token y_pingInterval y_status y_pendingRequests y_subscribed := c in
  Build_RemoteClient v y_token y_pingInterval y_status y_pendingRequests y_subscribed.

Definition set_pingInterval (v : option nat) (c : RemoteClient) : RemoteClient :=
  let 'Build_RemoteClient y_ws y_token y_pingInterval y_status y_pendingRequests y_subscribed := c in
  Build_RemoteClient y_ws y_token v y_status y_pendingRequests y_subscribed.

Definition set_status (v : ConnectionStatus) (c : RemoteClient) : RemoteClient :=
  let 'Build_RemoteClient y_ws y_token y_pingInterval y_status y_pendingRequests y_subscribed := c in
  Build_RemoteClient y_ws y_token y_pingInterval v y_pendingRequests y_subscribed.

Definition set_pendingRequests (v : gmap jsstring PendingRequest) (c : RemoteClient) : RemoteClient :=
  let 'Build_RemoteClient y_ws y_token y_pingInterval y_status y_pendingRequests y_subscribed := c in
  Build_RemoteClient y_ws y_token y_pingInterval y_status v y_subscribed.

Definition set_subscribed (v : bool) (c : RemoteClient) : RemoteClient :=
  let 'Build_RemoteClient y_ws y_token y_pingInterval y_status y_pendingRequests y_subscribed := c in
  Build_RemoteClient y_ws y_token y_pingInterval y_status y_pendingRequests v.

Definition set_sockets (v : gmap nat WebSocket) (w : World) : World :=
  let 'Build_World x_client x_sockets x_wire x_handled x_settled x_callers x_timeouts x_intervals x_connectSettled x_nextRequest x_nextInterval x_nextConnect := w in
  Build_World x_client v x_wire x_handled x_settled x_callers x_timeouts x_intervals x_connectSettled x_nextRequest x_nextInterval x_nextConnect.

Definition set_wire (v : list (nat * json)) (w : World) : World :=
  let 'Build_World x_client x_sockets x_wire x_handled x_settled x_callers x_timeouts x_intervals x_connectSettled x_nextRequest x_nextInterval x_nextConnect := w in
  Build_World x_client x_sockets v x_handled x_settled x_callers x_timeouts x_intervals x_connectSettled x_nextRequest x_nextInterval x_nextConnect.

Definition set_handled (v : list RemoteClientEvent) (w : World) : World :=
  let 'Build_World x_client x_sockets x_wire x_handled x_settled x_callers x_timeouts x_intervals x_connectSettled x_nextRequest x_nextInterval x_nextConnect := w in
  Build_World x_client x_sockets x_wire v x_settled x_callers x_timeouts x_intervals x_connectSettled x_nextRequest x_nextInterval x_nextConnect.

Definition set_settled (v : list (nat * Settlement)) (w : World) : World :=
  let 'Build_World x_client x_sockets x_wire x_handled x_settled x_callers x_timeouts x_intervals x_connectSettled x_nextRequest x_nextInterval x_nextConnect := w in
  Build_World x_client x_sockets x_wire x_handled v x_callers x_timeouts x_intervals x_connectSettled x_nextRequest x_nextInterval x_nextConnect.

Definition set_callers (v : gmap nat Method) (w : World) : World :=
  let 'Build_World x_client x_sockets x_wire x_handled x_settled x_callers x_timeouts x_intervals x_connectSettled x_nextRequest x_nextInterval x_nextConnect := w in
  Build_World x_client x_sockets x_wire x_handled x_settled v x_timeouts x_intervals x_connectSettled x_nextRequest x_nextInterval x_nextConnect.

Definition set_timeouts (v : gmap nat (jsstring * nat)) (w : World) : World :=
  let 'Build_World x_client x_sockets x_wire x_handled x_settled x_callers x_timeouts x_intervals x_connectSettled x_nextRequest x_nextInterval x_nextConnect := w in
  Build_World x_client x_sockets x_wire x_handled x_settled x_callers v x_intervals x_connectSettled x_nextRequest x_nextInterval x_nextConnect.

Definition set_intervals (v : gset nat) (w : World) : World :=
  let 'Build_World x_client x_sockets x_wire x_handled x_settled x_callers x_timeouts x_intervals x_connectSettled x_nextRequest x_nextInterval x_nextConnect := w in
  Build_World x_client x_sockets x_wire x_handled x_settled x_callers x_timeouts v x_connectSettled x_nextRequest x_nextInterval x_nextConnect.

Definition set_connectSettled (v : list (nat * option json)) (w : World) : World :=
  let 'Build_World x_client x_sockets x_wire x_handled x_settled x_callers x_timeouts x_intervals x_connectSettled x_nextRequest x_nextInterval x_nextConnect := w in
  Build_World x_client x_sockets x_wire x_handled x_settled x_callers x_timeouts x_intervals v x_nextRequest x_nextInterval x_nextConnect.

Definition set_nextRequest (v : nat) (w : World) : World :=
  let 'Build_World x_client x_sockets x_wire x_handled x_settled x_callers x_timeouts x_intervals x_connectSettled x_nextRequest x_nextInterval x_nextConnect := w in
  Build_World x_client x_sockets x_wire x_handled x_settled x_callers x_timeouts x_intervals x_connectSettled v x_nextInterval x_nextConnect.

Definition set_nextInterval (v : nat) (w : World) : World :=
  let 'Build_World x_client x_sockets x_wire x_handled x_settled x_callers x_timeouts x_intervals x_connectSettled x_nextRequest x_nextInterval x_nextConnect := w in
  Build_World x_client x_sockets x_wire x_handled x_settled x_callers x_timeouts x_intervals x_connectSettled x_nextRequest v x_nextConnect.

Definition set_nextConnect (v : nat) (w : World) : World :=
  let 'Build_World x_client x_sockets x_wire x_handled x_settled x_callers x_timeouts x_intervals x_connectSettled x_nextRequest x_nextInterval x_nextConnect := w in
  Build_World x_client x_sockets x_wire x_handled x_settled x_callers x_timeouts x_intervals x_connectSettled x_nextRequest x_nextInterval v.

(** [new RemoteClient(host, port, token, eventHandler)] in a fresh world. *)
Definition new_RemoteClient (tok : jsstring) : World :=
  {| client := {| ws := None; token := tok; pingInterval := None;
                  _status := disconnected; pendingRequests := ∅;
                  _subscribed := false |};
     sockets := ∅; wire := []; handled := []; settled := []; callers := ∅;
     timeouts := ∅; intervals := ∅; connectSettled := [];
     nextRequest := 0; nextInterval := 0; nextConnect := 0 |}.

(** [this.eventHandler(event)] *)
Definition eventHandler (event : RemoteClientEvent) (w : World) : World :=
  set_handled (handled w ++ [event]) w.

(** *** Messages *)

Definition str (s : string) : json := JString (js s).

Definition obj (fields : list (string * json)) : json :=
  JObject (map (fun kv => (js kv.1, kv.2)) fields).

(** [{ ...o, key: v }]: an own property keeps its place. *)
Fixpoint obj_set (key : jsstring) (v : json) (fields : list (jsstring * json))
    : list (jsstring * json) :=
  match fields with
  | [] => [(key, v)]
  | (k, x) :: rest =>
      if bool_decide (k = key) then (k, v) :: rest
      else (k, x) :: obj_set key v rest
  end.

Definition AuthMessage (id timestamp tok : jsstring) : json :=
  obj [("type", str "auth"); ("id", JString id);
       ("timestamp", JString timestamp); ("token", JString tok)].

Definition PingMessage (id timestamp : jsstring) : json :=
  obj [("type", str "ping"); ("id", JString id);
       ("timestamp", JString timestamp)].

(** *** Sockets and timers *)

(** [socket.send(data)]: [None] when it throws ([InvalidStateError] on a
    socket that is still connecting); a frame given to a closing or closed
    socket is dropped. *)
Definition ws_send (k : nat) (data : json) (w : World) : option World :=
  match sockets w !! k with
  | Some s =>
      match readyState s with
      | CONNECTING => None
      | OPEN => Some (set_wire (wire w ++ [(k, data)]) w)
      | CLOSING | CLOSED => Some w
      end
  | None => Some w
  end.

(** The four [ws.on... = null] and [ws.close()] of [cleanup]. *)
Definition ws_detach_close (k : nat) (w : World) : World :=
  match sockets w !! k with
  | Some s =>
      let s' := {| readyState := match readyState s with
                                 | CONNECTING | OPEN => CLOSING
                                 | r => r
                                 end;
                   handlers := false;
                   closeFired := closeFired s |} in
      set_sockets (<[k := s']> (sockets w)) w
  | None => w
  end.

Definition clearTimeout (t : nat) (w : World) : World :=
  set_timeouts (delete t (timeouts w)) w.

Definition clearInterval (h : nat) (w : World) : World :=
  set_intervals (intervals w ∖ {[h]}) w.

(** *** Promises of [request] *)

Definition is_settled (p : nat) (w : World) : bool :=
  existsb (fun x => Nat.eqb x.1 p) (settled w).

(** What runs after [await this.request(...)] in the calling method.  Only
    [subscribe] and [unsubscribe] touch the client; the others hand the
    response (or an error) to their own caller. *)
Definition resume (caller : Method) (o : Settlement) (w : World) : World :=
  match caller, o with
  | m_subscribe, Resolved response =>
      if is_literal (get response "type") "operation_result"
         && negb (truthy_value (get response "success"))
      then w
      else with_client (set_subscribed true) w
  | m_unsubscribe, Resolved _ => with_client (set_subscribed false) w
  | _, _ => w
  end.

(** A call of [resolve] or [reject] of promise [p].  Only the first call
    on a promise settles it and wakes the awaiting method. *)
Definition settle (p : nat) (o : Settlement) (w : World) : World :=
  let first := negb (is_settled p w) in
  let w := set_settled (settled w ++ [(p, o)]) w in
  if first then
    match callers w !! p with
    | Some caller => resume caller o w
    | None => w
    end
  else w.

(** *** The methods of [RemoteClient] *)

Definition stopPingInterval (w : World) : World :=
  match pingInterval (client w) with
  | Some h => with_client (set_pingInterval None) (clearInterval h w)
  | None => w
  end.

Definition startPingInterval (w : World) : World :=
  let w := stopPingInterval w in
  let h := nextInterval w in
  let w := set_nextInterval (S h) (set_intervals ({[h]} ∪ intervals w) w) in
  with_client (set_pingInterval (Some h)) w.

(** The body of the [for (const [id, pending] of this.pendingRequests)]
    loop of [cleanup]. *)
Definition reject_pending (w : World) (entry : jsstring * PendingRequest) : World :=
  let w := clearTimeout (timeout entry.2) w in
  let w := settle (promise entry.2) (Rejected (js "Connection closed")) w in
  with_client (fun c => set_pendingRequests (delete entry.1 (pendingRequests c)) c) w.

(** [cleanup()].  The entries are visited in the order of [map_to_list];
    a JS [Map] visits them in insertion order. *)
Definition cleanup (w : World) : World :=
  let w := stopPingInterval w in
  let w := fold_left reject_pending (map_to_list (pendingRequests (client w))) w in
  let w := with_client (set_subscribed false) w in
  match ws (client w) with
  | Some k => with_client (set_ws None) (ws_detach_close k w)
  | None => w
  end.

(** [connect()].  [ctor_error] is the message of the error thrown by
    [new WebSocket(url)], if it throws.  The new socket gets the handlers
    [onopen], [onmessage], [onerror], [onclose] below. *)
Definition connect (ctor_error : option jsstring) (w : World) : World :=
  match _status (client w) with
  | connecting | connected => w
  | disconnected =>
      let w := with_client (set_status connecting) w in
      let w := eventHandler EvConnecting w in
      let k := nextConnect w in
      let w := set_nextConnect (S k) w in
      match ctor_error with
      | None =>
          let s := {| readyState := CONNECTING; handlers := true;
                      closeFired := false |} in
          with_client (set_ws (Some k)) (set_sockets (<[k := s]> (sockets w)) w)
      | Some errorMessage =>
          let w := with_client (set_status disconnected) w in
          let w := eventHandler (EvDisconnected (Some (JString errorMessage))) w in
          set_connectSettled
            (connectSettled w ++ [(k, Some (JString errorMessage))]) w
      end
  end.

Definition disconnect (w : World) : World :=
  let w := cleanup w in
  let w := with_client (set_status disconnected) w in
  eventHandler (EvDisconnected None) w.

(** [send(message)].  Should [ws.send] throw, the exception leaves the
    client as it was. *)
Definition send (message : json) (w : World) : World :=
  match ws (client w), _status (client w) with
  | Some k, connected =>
      match ws_send k message w with
      | Some w' => w'
      | None => w
      end
  | _, _ => w
  end.

Definition authenticate (id timestamp : jsstring) (w : World) : World :=
  match ws (client w) with
  | Some k =>
      match ws_send k (AuthMessage id timestamp (token (client w))) w with
      | Some w' => w'
      | None => w
      end
  | None => w
  end.

(** [handleMessage(message, resolveConnect, rejectConnect)]; [k] names the
    [connect] call whose promise the last two arguments settle. *)
Definition handleMessage (message : json) (k : nat) (w : World) : World :=
  let pending :=
    match get message "id" with
    | Some (JString id) =>
        match pendingRequests (client w) !! id with
        | Some p => Some (id, p)
        | None => None
        end
    | _ => None
    end in
  match pending with
  | Some (id, pending) =>
      let w := clearTimeout (timeout pending) w in
      let w := with_client
                 (fun c => set_pendingRequests (delete id (pendingRequests c)) c) w in
      settle (promise pending) (Resolved message) w
  | None =>
      let type := get message "type" in
      if is_literal type "auth_response" then
        if truthy_value (get message "success") then
          let w := with_client (set_status connected) w in
          let w := eventHandler EvConnected w in
          let w := startPingInterval w in
          set_connectSettled (connectSettled w ++ [(k, None)]) w
        else
          let w := with_client (set_status disconnected) w in
          let error := nullish_or (get message "error") (str "Authentication failed") in
          let w := eventHandler (EvDisconnected (Some error)) w in
          let w := cleanup w in
          set_connectSettled (connectSettled w ++ [(k, Some error)]) w
      else if is_literal type "pong" then w
      else if is_literal type "engine_event" then
        eventHandler (EvEngineEvent (get message "event")) w
      else eventHandler (EvMessage message) w
  end.

(** [request(message)].  Returns the error thrown before anything is sent
    ([inl]) or the promise handed to the calling method ([inr]). *)
Definition request (caller : Method) (message : list (jsstring * json))
    (id timestamp : jsstring) (w : World) : World * (jsstring + nat) :=
  match _status (client w), ws (client w) with
  | connected, Some k =>
      let fullMessage :=
        JObject (obj_set (js "timestamp") (JString timestamp)
                   (obj_set (js "id") (JString id) message)) in
      let p := nextRequest w in
      let w := set_nextRequest (S p) (set_callers (<[p := caller]> (callers w)) w) in
      let w := set_timeouts (<[p := (id, p)]> (timeouts w)) w in
      let w := with_client
                 (fun c => set_pendingRequests
                             (<[id := {| promise := p; timeout := p |}]>
                                (pendingRequests c)) c) w in
      match ws_send k fullMessage w with
      | Some w' => (w', inr p)
      | None => (settle p (Rejected (js "InvalidStateError")) w, inr p)
      end
  | _, _ => (w, inl (js "Not connected"))
  end.

(** The callback of the [setTimeout] of [request], for an armed handle. *)
Definition request_timeout (t : nat) (w : World) : World :=
  match timeouts w !! t with
  | Some (id, p) =>
      let w := clearTimeout t w in
      let w := with_client
                 (fun c => set_pendingRequests (delete id (pendingRequests c)) c) w in
      settle p (Rejected (js "Request timeout")) w
  | None => w
  end.

(** The callback of the [setInterval] of [startPingInterval]. *)
Definition ping (h : nat) (id timestamp : jsstring) (w : World) : World :=
  if bool_decide (h ∈ intervals w) then
    match _status (client w), ws (client w) with
    | connected, Some k =>
        match ws_send k (PingMessage id timestamp) w with
        | Some w' => w'
        | None => w
        end
    | _, _ => w
    end
  else w.

(** The message each public method hands to [request]; a property whose
    value is [undefined] is not serialised. *)
Definition request_message (m : Method) (arg : option json)
    : list (jsstring * json) :=
  let type (t : string) := (js "type", str t) in
  let field (name : string) :=
    match arg with Some v => [(js name, v)] | None => [] end in
  match m with
  | m_subscribe => type "subscribe" :: field "eventTypes"
  | m_unsubscribe => [type "unsubscribe"]
  | m_getState => [type "get_state"]
  | m_getTasks => [type "get_tasks"]
  | m_pause => [type "pause"]
  | m_resume => [type "resume"]
  | m_interrupt => [type "interrupt"]
  | m_refreshTasks => [type "refresh_tasks"]
  | m_addIterations => type "add_iterations" :: field "count"
  | m_removeIterations => type "remove_iterations" :: field "count"
  | m_continueExecution => [type "continue"]
  end.

(** [subscribe], [unsubscribe], [getState], ...: each builds its message
    and awaits [request]. *)
Definition call (m : Method) (arg : option json) (id timestamp : jsstring)
    (w : World) : World * (jsstring + nat) :=
  request m (request_message m arg) id timestamp w.

(** *** Socket handlers installed by [connect] *)

Definition onopen (id timestamp : jsstring) (w : World) : World :=
  authenticate id timestamp w.

(** [onmessage]: [parsed] is the outcome of [JSON.parse(event.data)],
    [None] when it throws.  Reading [message.id] of [null] throws as well;
    both are swallowed by the [catch]. *)
Definition onmessage (k : nat) (parsed : option json) (w : World) : World :=
  match parsed with
  | None | Some JNull => w
  | Some message => handleMessage message k w
  end.

Definition onerror (k : nat) (w : World) : World :=
  let w := with_client (set_status disconnected) w in
  let w := eventHandler (EvDisconnected (Some (str "Connection error"))) w in
  set_connectSettled (connectSettled w ++ [(k, Some (str "Connection error"))]) w.

Definition onclose (w : World) : World :=
  let w := cleanup w in
  match _status (client w) with
  | connected =>
      let w := with_client (set_status disconnected) w in
      eventHandler (EvDisconnected (Some (str "Connection closed"))) w
  | _ => w
  end.

(** *** What can happen to a client *)

Inductive Event :=
| CallConnect (ctor_error : option jsstring)
| CallDisconnect
| CallSend (message : json)
| Call (m : Method) (arg : option json) (id timestamp : jsstring)
| SocketOpen (k : nat) (id timestamp : jsstring)
| SocketMessage (k : nat) (parsed : option json)
| SocketError (k : nat)
| SocketClose (k : nat)
| TimeoutFires (t : nat)
| PingTick (h : nat) (id timestamp : jsstring).

Definition set_socket (k : nat) (s : WebSocket) (w : World) : World :=
  set_sockets (<[k := s]> (sockets w)) w.

(** One event.  A socket raises an event only while its handlers are
    installed: it opens once, from [CONNECTING]; delivers frames while
    [OPEN]; fails from [CONNECTING] or [OPEN], which closes it; and raises
    its close event once. *)
Definition step (w : World) (e : Event) : World :=
  match e with
  | CallConnect ctor_error => connect ctor_error w
  | CallDisconnect => disconnect w
  | CallSend message => send message w
  | Call m arg id timestamp => (call m arg id timestamp w).1
  | SocketOpen k id timestamp =>
      match sockets w !! k with
      | Some {| readyState := CONNECTING; handlers := true; closeFired := false |} =>
          onopen id timestamp
            (set_socket k {| readyState := OPEN; handlers := true;
                             closeFired := false |} w)
      | _ => w
      end
  | SocketMessage k parsed =>
      match sockets w !! k with
      | Some {| readyState := OPEN; handlers := true; closeFired := false |} =>
          onmessage k parsed w
      | _ => w
      end
  | SocketError k =>
      match sockets w !! k with
      | Some {| readyState := (CONNECTING | OPEN); handlers := true;
                closeFired := false |} =>
          onerror k
            (set_socket k {| readyState := CLOSED; handlers := true;
                             closeFired := false |} w)
      | _ => w
      end
  | SocketClose k =>
      match sockets w !! k with
      | Some {| readyState := r; handlers := true; closeFired := false |} =>
          onclose
            (set_socket k {| readyState := CLOSED; handlers := true;
                             closeFired := true |} w)
      | _ => w
      end
  | TimeoutFires t => request_timeout t w
  | PingTick h id timestamp => ping h id timestamp w
  end.

Definition run (trace : list Event) (w : World) : World :=
  fold_left step trace w.

(** *** Observations and well-formed worlds *)

(** The calls of [resolve]/[reject] made on promise [p], oldest first. *)
Definition settlements (p : nat) (w : World) : list Settlement :=
  map snd (filter (fun x => x.1 = p) (settled w)).

(** The ids that the calls of a trace hand to [request]; the runtime draws
    them with [crypto.randomUUID()]. *)
Definition request_ids (trace : list Event) : list jsstring :=
  omap (fun e => match e with Call _ _ id _ => Some id | _ => None end) trace.

(** The fields that the invariants below talk about. *)
Definition requests_view (w : World) :=
  (pendingRequests (client w), timeouts w, nextRequest w, settled w).

Definition sockets_view (w : World) :=
  (_status (client w), ws (client w), sockets w, nextConnect w).

Definition frame_view (w : World) :=
  (wire w, token (client w)).

Definition ping_view (w : World) :=
  (pingInterval (client w), intervals w).

(** The only armed interval is the one the client holds. *)
Definition PingInv (w : World) : Prop :=
  intervals w = match pingInterval (client w) with
                | Some h => {[h]}
                | None => ∅
                end.

(** What holds of the requests in every world a client can reach, when
    [used] lists the request ids drawn so far: pending entries and armed
    timers go in pairs, and a promise has been settled exactly once as
    soon as its timer is no longer armed, not at all before. *)
Record RequestsInv (used : list jsstring) (w : World) : Prop := {
  inv_pending_timer : forall id pr,
    pendingRequests (client w) !! id = Some pr ->
    timeout pr = promise pr /\ timeouts w !! promise pr = Some (id, promise pr);
  inv_timer_pending : forall t id p,
    timeouts w !! t = Some (id, p) ->
    t = p /\ pendingRequests (client w) !! id = Some {| promise := p; timeout := p |};
  inv_armed_unsettled : forall p,
    is_Some (timeouts w !! p) -> p < nextRequest w /\ settlements p w = [];
  inv_disarmed_settled : forall p,
    p < nextRequest w -> timeouts w !! p = None -> exists o, settlements p w = [o];
  inv_future : forall p, nextRequest w <= p -> settlements p w = [];
  inv_used : forall id,
    is_Some (pendingRequests (client w) !! id) -> id ∈ used;
}.

(** What holds of the sockets: the only socket that can still open or
    deliver a frame is the client's current one. *)
Record SocketsInv (w : World) : Prop := {
  inv_connected_open : forall k s,
    _status (client w) = connected -> ws (client w) = Some k ->
    sockets w !! k = Some s -> readyState s <> CONNECTING;
  inv_stale_closed : forall k s,
    sockets w !! k = Some s -> handlers s = true -> ws (client w) <> Some k ->
    readyState s = CLOSED;
  inv_disconnected_closed : forall k s,
    _status (client w) = disconnected -> ws (client w) = Some k ->
    sockets w !! k = Some s -> readyState s = CLOSED;
  inv_sockets_fresh : forall k, nextConnect w <= k -> sockets w !! k = None;
}.

(** The life of one request, sent under [id], whose promise is [p]:
    pending (nothing called on the promise, timer armed, entry in the map)
    or settled by one call, with the timer disarmed and the id gone from
    the map. *)
Definition Pending (id : jsstring) (p : nat) (w : World) : Prop :=
  settlements p w = []
  /\ timeouts w !! p = Some (id, p)
  /\ pendingRequests (client w) !! id = Some {| promise := p; timeout := p |}.

Definition SettledBy (id : jsstring) (p : nat) (o : Settlement) (w : World) : Prop :=
  settlements p w = [o]
  /\ timeouts w !! p = None
  /\ pendingRequests (client w) !! id = None.

(** The outcomes a request can have: the response that carries its id, a
    timeout, or the closing of the connection. *)
Definition outcome_of (id : jsstring) (o : Settlement) : Prop :=
  (exists message, o = Resolved message /\ get message "id" = Some (JString id))
  \/ o = Rejected (js "Request timeout")
  \/ o = Rejected (js "Connection closed").

(** Every world a run visits, first to last. *)
Fixpoint states (trace : list Event) (w : World) : list World :=
  w :: match trace with
       | [] => []
       | e :: trace' => states trace' (step w e)
       end.

(** *** A sample session

    Connect, authenticate, subscribe, then ask for the state. *)
Definition sample_token : jsstring := js "s3cret".

Definition sample_auth_ok : json :=
  obj [("type", str "auth_response"); ("id", str "a-1"); ("success", JBool true)].

Definition sample_connected : list Event :=
  [CallConnect None;
   SocketOpen 0 (js "a-1") (js "2026-01-01T00:00:00Z");
   SocketMessage 0 (Some sample_auth_ok)].

Definition sample_subscribed : list Event :=
  sample_connected ++
  [Call m_subscribe None (js "r-1") (js "2026-01-01T00:00:01Z");
   SocketMessage 0
     (Some (obj [("type", str "operation_result"); ("id", str "r-1");
                 ("operation", str "subscribe"); ("success", JBool true)]))].

(** A connection attempt during which the caller tries to talk early. *)
Definition sample_attempt : list Event :=
  [CallConnect None;
   CallSend (obj [("type", str "pause"); ("id", str "x-1")]);
   Call m_pause None (js "r-0") (js "2026-01-01T00:00:00Z");
   SocketOpen 0 (js "a-1") (js "2026-01-01T00:00:00Z");
   CallSend (obj [("type", str "pause"); ("id", str "x-2")]);
   PingTick 0 (js "p-1") (js "2026-01-01T00:00:30Z")].

(** A request left without an answer. *)
Definition sample_pending : list Event :=
  sample_subscribed
  ++ [Call m_getState None (js "r-2") (js "2026-01-01T00:00:02Z")].

(** ... and what follows: an engine event, then the answer. *)
Definition sample_then_event : list Event :=
  [SocketMessage 0
     (Some (obj [("type", str "engine_event"); ("id", str "e-1");
                 ("event", obj [("type", str "iteration:started")])]))].

Definition sample_engine_event : json :=
  obj [("type", str "engine_event"); ("id", str "e-1");
       ("event", obj [("type", str "iteration:started"); ("iteration", JNumber 3)])].

Definition sample_state_response : json :=
  obj [("type", str "state_response"); ("id", str "r-2");
       ("state", obj [("status", str "running")])].

End Remote.

(** ** Instance tabs ([src/remote/client.ts]) *)
Module RemoteTabs.
Import Js Remote.

(** [InstanceTab] *)
Record InstanceTab := {
  id : jsstring;
  label : jsstring;
  isLocal : bool;
  status : ConnectionStatus;
  alias : option jsstring;
  host : option jsstring;
  port : option Z;
  lastError : option jsstring;
}.

(** [createLocalTab()] *)
Definition createLocalTab : InstanceTab :=
  {| id := js "local"; label := js "Local"; isLocal := true; status := connected;
     alias := None; host := None; port := None; lastError := None |}.

(** [createRemoteTab(alias, host, port)] *)
Definition createRemoteTab (alias host : jsstring) (port : Z) : InstanceTab :=
  {| id := js "remote-" ++ alias; label := alias; isLocal := false;
     status := disconnected; alias := Some alias; host := Some host;
     port := Some port; lastError := None |}.

End RemoteTabs.

(** ** States of the remote client used below *)
Module RemoteStates.
Import Js Remote.

(** A client that waits for a connection without having a socket: its
    status is ['connecting'], [ws] is [null], and no socket that still
    has its handlers can open, deliver a frame or fail. *)
Definition Stranded (w : World) : Prop :=
  _status (client w) = connecting
  /\ ws (client w) = None
  /\ forall k s, sockets w !! k = Some s -> handlers s = true -> readyState s = CLOSED.

(** The [error ?? 'Authentication failed'] of a failed [auth_response]. *)
Definition auth_error (message : json) : json :=
  nullish_or (get message "error") (str "Authentication failed").

(** What the [_subscribed] flag is once the response to a request made by
    method [m] has arrived, given what it was before. *)
Definition subscribed_after (m : Method) (response : json) (before : bool) : bool :=
  match m with
  | m_subscribe =>
      if is_literal (get response "type") "operation_result"
         && negb (truthy_value (get response "success"))
      then before else true
  | m_unsubscribe => false
  | _ => before
  end.

(** The [type] that each method gives its request. *)
Definition method_type (m : Method) : string :=
  match m with
  | m_subscribe => "subscribe"
  | m_unsubscribe => "unsubscribe"
  | m_getState => "get_state"
  | m_getTasks => "get_tasks"
  | m_pause => "pause"
  | m_resume => "resume"
  | m_interrupt => "interrupt"
  | m_refreshTasks => "refresh_tasks"
  | m_addIterations => "add_iterations"
  | m_removeIterations => "remove_iterations"
  | m_continueExecution => "continue"
  end.

(** The handshake of the sample session up to the open socket, and some
    frames a server may send. *)
Definition sample_opened : list Event :=
  [CallConnect None; SocketOpen 0 (js "a-1") (js "2026-01-01T00:00:00Z")].

Definition sample_auth_failed : json :=
  obj [("type", str "auth_response"); ("id", str "a-1"); ("success", JBool false);
       ("error", str "Invalid token")].

Definition sample_subscribe_refused : json :=
  obj [("type", str "operation_result"); ("id", str "r-1");
       ("operation", str "subscribe"); ("success", JBool false)].

(** A connection that fails, and a caller that connects again before the
    close event of the failed socket arrives. *)
Definition sample_failed : list Event := [CallConnect None; SocketError 0].

Definition sample_after_reconnect : list Event :=
  [CallConnect None; SocketOpen 1 (js "a-2") (js "2026-01-01T00:00:05Z");
   PingTick 0 (js "p-1") (js "2026-01-01T00:00:30Z");
   Call m_getState None (js "r-1") (js "2026-01-01T00:00:31Z")].

End RemoteStates.
(** ** The beads-rust tracker plugin
    ([src/plugins/trackers/builtin/beads-rust/index.ts]) *)
Module BeadsRust.
Import Js.

(** Modelled from the spec: [TrackerTaskStatus] is declared in
    [plugins/trackers/types.ts], which is not among the sources; the spec
    gives a task the statuses open, in_progress, completed and blocked. *)
Inductive TrackerTaskStatus := open | in_progress | completed | blocked.

(** [TaskCompletionResult] *)
Record TaskCompletionResult := {
  success : bool;
  message : jsstring;
  error : option jsstring;
}.

(** The fields of the plugin object that its methods read or write. *)
Record BeadsRustTrackerPlugin := {
  ready : bool;
  brVersion : option jsstring;
}.

(** The tasks as the [br] database holds them.  No method below reads or
    writes it: none of them runs [br]. *)
Record Tracker := {
  plugin : BeadsRustTrackerPlugin;
  tasks : gmap jsstring TrackerTaskStatus;
}.

(** [getTasks()] *)
Definition getTasks (t : Tracker) : list jsstring * Tracker := ([], t).

(** [completeTask(id)] *)
Definition completeTask (id : jsstring) (t : Tracker)
    : TaskCompletionResult * Tracker :=
  ({| success := false;
      message := js "beads-rust tracker is not yet able to close tasks ("
                 ++ id ++ js ")";
      error := Some (js "Not implemented") |},
   t).

(** [updateTaskStatus(_id, _status)]: [undefined]. *)
Definition updateTaskStatus (id : jsstring) (status : TrackerTaskStatus)
    (t : Tracker) : option jsstring * Tracker :=
  (None, t).

(** A tracker in which task [bd-1] is already completed. *)
Definition sample_tracker : Tracker :=
  {| plugin := {| ready := true; brVersion := Some (js "0.4.1") |};
     tasks := {[ js "bd-1" := completed ]} |}.

End BeadsRust.

(** ** Retry with backoff in the execution engine *)
Module Engine.

(** Modelled from the spec: the Backoff Controller and the retry decision
    of the engine live in [src/engine/index.ts], which is not among the
    sources.  The spec describes "a deterministic exponential sequence
    seeded by a configurable base and capped at a configurable maximum,
    for a configurable maximum retry count (default: 5s, 15s, 45s, 3
    attempts - each delay is base x 2^(attempt-1), clamped to max)".  The
    sequence 5 s, 15 s, 45 s multiplies by three, the formula by two; the
    repository's [tasks/prd-rate-limit-fallback.md] has the sequence
    ("Exponential backoff: 5s, 15s, 45s", "3 attempts, 5s/15s/45s") and no
    formula.  [backoffDelay] follows the sequence; [backoffDelay_formula]
    is the formula as the spec words it.  Durations are in milliseconds. *)
Record RateLimitConfig := {
  baseBackoffMs : N;
  maxBackoffMs : N;
  maxRetries : nat;
}.

Definition backoffDelay (cfg : RateLimitConfig) (attempt : nat) : N :=
  N.min (baseBackoffMs cfg * 3 ^ N.of_nat (attempt - 1)) (maxBackoffMs cfg).

Definition backoffDelay_formula (cfg : RateLimitConfig) (attempt : nat) : N :=
  N.min (baseBackoffMs cfg * 2 ^ N.of_nat (attempt - 1)) (maxBackoffMs cfg).

(** Modelled from the spec: the result of the Rate Limit Detector,
    [{isRateLimit, message?, retryAfter?}]. *)
Record RateLimitResult := {
  isRateLimit : bool;
  message : option string;
  retryAfter : option N;
}.

(** Modelled from the spec: what the engine does with the outcome of one
    run of the agent. *)
Inductive Decision :=
| WaitAndRetry (delay : N)
| InvokeFallbackSelector
| NotRateLimited.

(** Modelled from the spec: "The engine waits the delay (or the detector's
    retryAfter if present) and re-invokes the same agent"; "When the retry
    budget is exhausted, the Fallback Selector [is consulted]"; "The
    attempt counter ... resets whenever the active agent changes".
    [retryCount] is the [retryCount] of [RateLimitState]. *)
Definition onDetection (cfg : RateLimitConfig) (retryCount : nat)
    (detection : RateLimitResult) : Decision * nat :=
  if isRateLimit detection then
    if retryCount <? maxRetries cfg then
      let attempt := S retryCount in
      let delay := match retryAfter detection with
                   | Some explicit => explicit
                   | None => backoffDelay cfg attempt
                   end in
      (WaitAndRetry delay, attempt)
    else (InvokeFallbackSelector, 0)
  else (NotRateLimited, retryCount).

(** The decisions over a run of detections on one agent, up to the first
    that is not a retry. *)
Fixpoint decisions (cfg : RateLimitConfig) (retryCount : nat)
    (detections : list RateLimitResult) : list Decision :=
  match detections with
  | [] => []
  | d :: rest =>
      match onDetection cfg retryCount d with
      | (WaitAndRetry delay, n) => WaitAndRetry delay :: decisions cfg n rest
      | (decision, _) => [decision]
      end
  end.

(** A detection of a rate limit that names no delay. *)
Definition rate_limited : RateLimitResult :=
  {| isRateLimit := true; message := None; retryAfter := None |}.

(** The defaults of the spec: 5 s, capped at 60 s, 3 attempts. *)
Definition default_config : RateLimitConfig :=
  {| baseBackoffMs := 5000; maxBackoffMs := 60000; maxRetries := 3 |}.

End Engine.

(** ** Detection of beads-rust
    ([src/plugins/trackers/builtin/beads-rust/index.ts]) *)
Module BeadsRustDetect.
Import Js Kimi.

(** [{ stdout, stderr, exitCode }] *)
Record ExecResult := {
  exec_stdout : jsstring;
  exec_stderr : jsstring;
  exitCode : Z;
}.

(** The local state of the executor of [execBr]. *)
Record ExecProbe := {
  out : jsstring;
  err : jsstring;
  exec_settled : Promise ExecResult;
}.

(** The handlers that [execBr] installs on the child process.  An exit
    without a code ([null]) counts as code 1; a spawn error appends its
    message to [stderr] and counts as code 1. *)
Definition execBr_on (probe : ExecProbe) (e : ProcEvent) : ExecProbe :=
  match e with
  | StdoutData data =>
      {| out := out probe ++ data; err := err probe;
         exec_settled := exec_settled probe |}
  | StderrData data =>
      {| out := out probe; err := err probe ++ data;
         exec_settled := exec_settled probe |}
  | ProcClose code =>
      {| out := out probe; err := err probe;
         exec_settled :=
           resolve {| exec_stdout := out probe; exec_stderr := err probe;
                      exitCode := match code with Some c => c | None => 1%Z end |}
                   (exec_settled probe) |}
  | ProcError message =>
      {| out := out probe; err := err probe ++ message;
         exec_settled :=
           resolve {| exec_stdout := out probe; exec_stderr := err probe ++ message;
                      exitCode := 1 |}
                   (exec_settled probe) |}
  end.

(** *** [extractBrVersion]

    The pattern [/\bbr\b(?:\s+version)?\s+(\S+)/i], piece by piece.  The
    flags are [i] alone, so letters match without regard to case in ASCII
    only and a word character is one of [A-Za-z0-9_]. *)

(** [\w] *)
Definition is_word (c : N) : bool :=
  ((48 <=? c) && (c <=? 57) || (65 <=? c) && (c <=? 90)
   || (97 <=? c) && (c <=? 122) || (c =? 95))%N.

(** [\b] between two neighbours; [None] is the start or the end. *)
Definition boundary (prev next : option N) : bool :=
  xorb (from_option is_word false prev) (from_option is_word false next).

(** A lower-case ASCII letter of the pattern against a code unit. *)
Definition eq_ci (letter c : N) : bool := ((c =? letter) || (c =? letter - 32))%N.

(** [\s+], greedy: the rest after the longest run of white space. *)
Definition ws1 (s : jsstring) : option jsstring :=
  match s with
  | c :: rest => if is_whitespace c then Some (trimStart rest) else None
  | [] => None
  end.

(** The longest run of [\S] at the head of a string. *)
Fixpoint non_ws (s : jsstring) : jsstring :=
  match s with
  | c :: rest => if is_whitespace c then [] else c :: non_ws rest
  | [] => []
  end.

(** [(\S+)] at the end of the pattern: the capture. *)
Definition capture (s : jsstring) : option jsstring :=
  match non_ws s with
  | [] => None
  | v => Some v
  end.

(** A literal of the pattern, letters in lower case: the rest after it. *)
Fixpoint literal_ci (lit s : jsstring) : option jsstring :=
  match lit, s with
  | [], _ => Some s
  | l :: lit', c :: s' => if eq_ci l c then literal_ci lit' s' else None
  | _ :: _, [] => None
  end.

(** [\s+(\S+)]: a shorter run of white space would leave white space
    for [\S+], so only the longest run can match. *)
Definition tail_match (s : jsstring) : option jsstring := ws1 s ≫= capture.

(** [(?:\s+version)?\s+(\S+)]: first with the optional group (again only
    the longest run of white space can be followed by the [v]), then
    without it. *)
Definition after_br (s : jsstring) : option jsstring :=
  match (ws1 s ≫= literal_ci (js "version")) ≫= tail_match with
  | Some v => Some v
  | None => tail_match s
  end.

(** The whole pattern at one position; [prev] is the code unit before. *)
Definition match_here (prev : option N) (s : jsstring) : option jsstring :=
  match s with
  | b :: r :: rest =>
      if boundary prev (Some b) && eq_ci 98 b && eq_ci 114 r
         && boundary (Some r) (head rest)
      then after_br rest
      else None
  | _ => None
  end.

(** [s.match(pattern)?.[1]]: the leftmost position at which the pattern
    matches decides. *)
Fixpoint search (prev : option N) (s : jsstring) : option jsstring :=
  match match_here prev s with
  | Some v => Some v
  | None =>
      match s with
      | [] => None
      | c :: s' => search (Some c) s'
      end
  end.

(** [extractBrVersion(stdout)] *)
Definition extractBrVersion (stdout : jsstring) : jsstring :=
  let trimmed := trim stdout in
  match search None trimmed with
  | Some v => v
  | None => js "unknown"
  end.

(** *** [detect], [initialize], [isReady] *)

(** [BeadsRustDetectResult] *)
Record BeadsRustDetectResult := {
  available : bool;
  beadsDir : option jsstring;
  brPath : option jsstring;
  brVersion : option jsstring;
  error : option jsstring;
}.

Section Detect.
(** [process.cwd()]: the current directory, or ([inl]) the message of the
    error it throws, as it does when that directory is gone. *)
Variable cwd : jsstring + jsstring.
(** [join] of [node:path], and whether [access(path, constants.R_OK)]
    succeeds. *)
Variable join : jsstring -> jsstring -> jsstring.
Variable readable : jsstring -> bool.
(** [spawn('br', args, { cwd, ... })], by [cwd]: the message of the error
    that [spawn] throws before it returns a child process, or [None] when
    it returns one.  Node reports the failures EACCES, EAGAIN, EMFILE,
    ENFILE and ENOENT of a spawn with an ['error'] event of the child
    process and throws on every other one. *)
Variable spawn_throws : jsstring -> option jsstring.

(** [execBr(['--version'], cwd)].  An error thrown by [spawn] leaves the
    executor of the promise, which rejects the promise with it.  Otherwise
    [events] lists all that the child process ever raises.  No timer is
    set: without a ['close'] or ['error'] event the promise stays
    pending. *)
Definition execBr (dir : jsstring) (events : list ProcEvent) : Promise ExecResult :=
  match spawn_throws dir with
  | Some reason => PromiseRejected reason
  | None =>
      exec_settled
        (fold_left execBr_on events
           {| out := []; err := []; exec_settled := PromisePending |})
  end.

(** [typeof this.config.workingDir === 'string' ? this.config.workingDir
    : process.cwd()] *)
Definition workingDir (config : json) : jsstring + jsstring :=
  match as_string (get config "workingDir") with
  | Some dir => inr dir
  | None => cwd
  end.

(** [join(workingDir, beadsDir)] with the default of [beadsDir]. *)
Definition beadsDirPath (workingDir : jsstring) (config : json) : jsstring :=
  let beadsDir := default (js ".beads") (as_string (get config "beadsDir")) in
  join workingDir beadsDir.

(** [detect()].  [config] is [this.config], [events] is what the [br]
    process raises if it is started.  The result and the new state of
    the plugin.  The [try] holds [access] alone: an error of
    [process.cwd()] or of [execBr] is not caught. *)
Definition detect (config : json) (events : list ProcEvent)
    (p : BeadsRust.BeadsRustTrackerPlugin)
    : Outcome BeadsRustDetectResult * BeadsRust.BeadsRustTrackerPlugin :=
  match workingDir config with
  | inl reason => (Throws reason, p)
  | inr workingDir =>
      let beadsDirPath := beadsDirPath workingDir config in
      if negb (readable beadsDirPath) then
        (Returns {| available := false; beadsDir := None; brPath := None;
                    brVersion := None;
                    error := Some (js "Beads directory not found: " ++ beadsDirPath) |},
         p)
      else
        match await (execBr workingDir events) with
        | Returns r =>
            if negb (exitCode r =? 0)%Z then
              (Returns {| available := false; beadsDir := None; brPath := None;
                          brVersion := None;
                          error := Some (js "br binary not available: "
                                         ++ or_else (exec_stderr r) (exec_stdout r)) |},
               p)
            else
              let version := extractBrVersion (exec_stdout r) in
              (Returns {| available := true; beadsDir := Some beadsDirPath;
                          brPath := Some (js "br"); brVersion := Some version;
                          error := None |},
               {| BeadsRust.ready := BeadsRust.ready p;
                  BeadsRust.brVersion := Some version |})
        | Throws reason => (Throws reason, p)
        | NeverReturns => (NeverReturns, p)
        end
  end.

(** The two assignments that follow [await this.detect()] in [initialize]
    and in [isReady]. *)
Definition record_detection (detection : BeadsRustDetectResult)
    : BeadsRust.BeadsRustTrackerPlugin :=
  {| BeadsRust.ready := available detection;
     BeadsRust.brVersion := brVersion detection |}.

(** [initialize(config)], from the line after [await super.initialize(config)]
    on ([BaseTrackerPlugin] is in [../../base.js]); [config] is
    [this.config] as the base class has set it. *)
Definition initialize (config : json) (events : list ProcEvent)
    (p : BeadsRust.BeadsRustTrackerPlugin)
    : Outcome unit * BeadsRust.BeadsRustTrackerPlugin :=
  match detect config events p with
  | (Returns detection, _) => (Returns tt, record_detection detection)
  | (Throws reason, p') => (Throws reason, p')
  | (NeverReturns, p') => (NeverReturns, p')
  end.

(** [isReady()] *)
Definition isReady (config : json) (events : list ProcEvent)
    (p : BeadsRust.BeadsRustTrackerPlugin)
    : Outcome bool * BeadsRust.BeadsRustTrackerPlugin :=
  if negb (BeadsRust.ready p) then
    match detect config events p with
    | (Returns detection, _) =>
        (Returns (available detection), record_detection detection)
    | (Throws reason, p') => (Throws reason, p')
    | (NeverReturns, p') => (NeverReturns, p')
    end
  else (Returns (BeadsRust.ready p), p).

End Detect.

End BeadsRustDetect.
(* ===================================================================== *)
(** * Part II: properties                                                *)
(* ===================================================================== *)

Module JsFacts.
Import Js.

Lemma split_not_nil (s : jsstring) : split s <> [].
Proof. destruct s as [|c s]; simpl; [done|]. by repeat case_match. Qed.

Lemma indexOf_from_shift (s : jsstring) (i j : Z) :
  indexOf_from s i <> (-1)%Z ->
  indexOf_from s j = (indexOf_from s i - i + j)%Z.
Proof.
  revert i j; induction s as [|c s IH]; intros i j H; simpl in *; [done|].
  destruct (c =? LF)%N; [lia|].
  rewrite (IH (i + 1)%Z (j + 1)%Z) by done. lia.
Qed.

Lemma indexOf_from_none (s : jsstring) (i j : Z) :
  indexOf_from s i = (-1)%Z -> (0 <= i)%Z -> indexOf_from s j = (-1)%Z.
Proof.
  revert i j; induction s as [|c s IH]; intros i j H Hi; simpl in *; [done|].
  destruct (c =? LF)%N; [lia|]. eapply IH; [exact H|lia].
Qed.

Lemma split_no_LF (s : jsstring) :
  indexOf s = (-1)%Z -> split s = [s].
Proof.
  unfold indexOf. induction s as [|c s IH]; simpl; [done|].
  destruct (c =? LF)%N; [lia|]. intros H.
  rewrite IH; [done|]. eapply indexOf_from_none; [exact H|lia].
Qed.

Lemma split_at_LF (s : jsstring) :
  indexOf s <> (-1)%Z ->
  split s = slice s 0 (indexOf s) :: split (slice_from s (indexOf s + 1)).
Proof.
  unfold indexOf, slice, slice_from.
  induction s as [|c s IH]; simpl; [done|].
  destruct (c =? LF)%N eqn:Hc; [done|]. intros H.
  change (0 + 1)%Z with 1%Z in *.
  pose proof (indexOf_from_shift s 1 0 H) as H0.
  assert (Hs : indexOf_from s 0 <> (-1)%Z).
  { intros E. apply H. eapply indexOf_from_none; [exact E|lia]. }
  destruct (indexOf_from_range s 0) as [?|Hr]; [lia|done|].
  rewrite IH by done.
  replace (indexOf_from s 1) with (indexOf_from s 0 + 1)%Z by lia.
  set (n := Z.to_nat (indexOf_from s 0)).
  replace (Z.to_nat (indexOf_from s 0 + 1)) with (S n) by lia.
  replace (Z.to_nat (indexOf_from s 0 + 1 + 1)) with (S (S n)) by lia.
  change (Z.to_nat 0) with 0. rewrite !Nat.sub_0_r. done.
Qed.

(** A line feed in the second half leaves the pieces of the first half,
    but the last, as they are. *)
Lemma split_app (x y : jsstring) :
  split (x ++ y) = removelast (split x) ++ split (List.last (split x) [] ++ y).
Proof.
  induction x as [|c x IH]; simpl; [done|].
  destruct (c =? LF)%N eqn:Hc.
  - pose proof (split_not_nil x) as Hx.
    destruct (split x) as [|l ls] eqn:E; [done|].
    simpl. by rewrite IH.
  - pose proof (split_not_nil x) as Hx.
    rewrite IH. destruct (split x) as [|l ls] eqn:E; [done|].
    destruct ls as [|l' ls]; simpl.
    + rewrite Hc. pose proof (split_not_nil (l ++ y)).
      by destruct (split (l ++ y)).
    + done.
Qed.

Lemma last_split_no_LF (s : jsstring) :
  indexOf (List.last (split s) []) = (-1)%Z.
Proof.
  induction s as [|c s IH]; simpl; [done|].
  pose proof (split_not_nil s) as Hs.
  destruct (c =? LF)%N eqn:Hc.
  - by destruct (split s).
  - destruct (split s) as [|l [|l' ls]] eqn:E; [done| |done].
    simpl in *. unfold indexOf in *. simpl. rewrite Hc.
    eapply indexOf_from_none; [exact IH|lia].
Qed.

Lemma last_app_nonempty {A} (l1 l2 : list A) (d : A) :
  l2 <> [] -> List.last (l1 ++ l2) d = List.last l2 d.
Proof.
  intros H. induction l1 as [|x l1 IH]; [done|].
  simpl. rewrite IH. destruct (l1 ++ l2) eqn:E; [|done].
  by destruct l1, l2.
Qed.

End JsFacts.

(** ** The streaming JSONL parser against the one-shot parser *)
Module KimiSpec.
Import Js Kimi JsFacts.

Section ParserFacts.
Context (JSON_parse : jsstring -> string + json) (TypeError_message : string).

#[local] Abbreviation parseLine := (parseJsonlLine JSON_parse TypeError_message).
#[local] Abbreviation step := (fun acc line => collect acc (parseLine line)).
#[local] Abbreviation loop := (push_loop JSON_parse TypeError_message).

(** A blank line leaves [messages] and [fallback] alone. *)
Lemma collect_blank (acc : list KimiJsonlMessage * list jsstring) (line : jsstring) :
  truthy (trim line) = false -> collect acc (parseLine line) = acc.
Proof.
  intros H. unfold parseJsonlLine. rewrite H. simpl. by rewrite H.
Qed.

(** The loop of [push] consumes every complete line of the buffer and
    keeps what follows the last line feed. *)
Lemma push_loop_lines (p : StreamingParser) (results : list KimiJsonlParseResult) :
  loop p results =
    (results ++ map parseLine (removelast (split (buffer p))),
     let acc := fold_left step (removelast (split (buffer p)))
                  (messages p, fallback p) in
     {| buffer := List.last (split (buffer p)) [];
        messages := acc.1; fallback := acc.2 |}).
Proof.
  funelim (push_loop JSON_parse TypeError_message p results).
  - match goal with e : (_ =? _)%Z = true |- _ =>
      pose proof (proj1 (Z.eqb_eq _ _) e) as E end.
    rewrite (split_no_LF _ E). simpl. rewrite app_nil_r. by destruct p.
  - match goal with e : (_ =? _)%Z = false |- _ =>
      pose proof (proj1 (Z.eqb_neq _ _) e) as Hne' end.
    match goal with IH : push_loop _ _ _ _ = (_, _) |- _ => rewrite IH; clear IH end.
    cbn [buffer messages fallback].
    rewrite (split_at_LF _ Hne').
    pose proof (split_not_nil (slice_from (buffer p) (indexOf (buffer p) + 1))) as Hs.
    destruct (split (slice_from (buffer p) (indexOf (buffer p) + 1)))
      as [|l ls] eqn:E; [done|].
    cbn [removelast map fold_left List.last].
    rewrite <- app_assoc. simpl.
    by rewrite <- surjective_pairing.
Qed.

(** State of the parser after a run of chunks, from a buffer that holds
    no line feed. *)
Lemma push_all_lines (chunks : list jsstring) (p : StreamingParser) :
  indexOf (buffer p) = (-1)%Z ->
  let ls := split (buffer p ++ concat chunks) in
  let acc := fold_left step (removelast ls) (messages p, fallback p) in
  push_all JSON_parse TypeError_message chunks p =
    {| buffer := List.last ls []; messages := acc.1; fallback := acc.2 |}.
Proof.
  revert p; induction chunks as [|c cs IH]; intros p Hp; simpl.
  - rewrite app_nil_r, (split_no_LF _ Hp). by destruct p.
  - unfold push. rewrite push_loop_lines. cbn [snd buffer messages fallback].
    rewrite IH by (cbn [buffer]; apply last_split_no_LF).
    cbn [buffer messages fallback].
    rewrite (app_assoc (buffer p) c (concat cs)).
    rewrite (split_app (buffer p ++ c) (concat cs)).
    pose proof (split_not_nil (List.last (split (buffer p ++ c)) [] ++ concat cs)) as Hs.
    set (tl := split (List.last (split (buffer p ++ c)) [] ++ concat cs)) in *.
    rewrite <- surjective_pairing.
    assert (Hrl : removelast (removelast (split (buffer p ++ c)) ++ tl)
                  = removelast (split (buffer p ++ c)) ++ removelast tl)
      by (by apply removelast_app).
    assert (Hl : List.last (removelast (split (buffer p ++ c)) ++ tl) []
                 = List.last tl [])
      by (by apply last_app_nonempty).
    rewrite Hrl, Hl, fold_left_app. done.
Qed.

(** The one-shot parser, with the piece after the last line feed set
    apart. *)
Lemma parseJsonlOutput_last (output : jsstring) :
  parseJsonlOutput JSON_parse TypeError_message output =
    collect (fold_left step (removelast (split output)) ([], []))
            (parseLine (List.last (split output) [])).
Proof.
  unfold parseJsonlOutput. cbv zeta.
  rewrite (app_removelast_last [] (split_not_nil output)) at 1.
  by rewrite fold_left_app.
Qed.

End ParserFacts.

(** C8. For every stream cut into chunks in any way, pushing the chunks in
    order into a fresh streaming parser and flushing it leaves the state
    (messages, fallback) that the one-shot parser computes for the whole
    stream. *)
Theorem streaming_parser_refines_parseJsonlOutput
    (JSON_parse : jsstring -> string + json) (TypeError_message : string)
    (chunks : list jsstring) :
  getState
    (flush JSON_parse TypeError_message
       (push_all JSON_parse TypeError_message chunks createStreamingJsonlParser)).2
  = parseJsonlOutput JSON_parse TypeError_message (concat chunks).
Proof.
  rewrite push_all_lines by done. rewrite parseJsonlOutput_last.
  cbn [buffer messages fallback createStreamingJsonlParser app].
  set (ls := split (concat chunks)).
  unfold flush, getState. cbn [buffer messages fallback].
  rewrite <- surjective_pairing.
  destruct (truthy (trim (List.last ls []))) eqn:Ht; simpl.
  - by rewrite <- surjective_pairing.
  - rewrite collect_blank by done. by rewrite <- surjective_pairing.
Qed.

(** *** [detect] *)
Section DetectFacts.
Context (spawn_throws : jsstring -> option jsstring)
        (match_version : jsstring -> option jsstring).

#[local] Abbreviation handle := (on_event match_version).

Lemma js_app_nonempty (lit : string) (s : jsstring) :
  truthy (js lit) = true -> js lit ++ s <> [].
Proof. destruct (js lit); [done|]. by intros _. Qed.

Lemma or_else_nonempty (a b : jsstring) : b <> [] -> or_else a b <> [].
Proof. unfold or_else. destruct a; [done|]. by intros _. Qed.

(** Once the promise is settled, no handler changes it. *)
Lemma settled_stays (events : list ProcEvent) (probe : VersionProbe)
    (r : VersionResult) :
  settled probe = PromiseResolved r ->
  settled (on_timeout (fold_left handle events probe)) = PromiseResolved r.
Proof.
  revert probe. induction events as [|e events IH]; intros probe H; simpl.
  - by rewrite H.
  - apply IH. destruct e as [| | |[[]|]]; simpl; by rewrite ?H.
Qed.

(** What the handlers and the timer resolve with, from a probe that is
    still pending: the first ['error'] or ['close'] event decides, or else
    the timer. *)
Lemma runVersion_pending (events : list ProcEvent) (probe : VersionProbe) :
  settled probe = PromisePending ->
  exists r,
    settled (on_timeout (fold_left handle events probe)) = PromiseResolved r
    /\ (success r = true <-> first_settling events = Some (ProcClose (Some 0%Z)))
    /\ (success r = false -> exists e, error r = Some e /\ e <> []).
Proof.
  revert probe. induction events as [|e events IH]; intros probe H.
  - simpl. rewrite H. simpl. eexists. split; [done|]. simpl.
    split; [done|]. intros _. eexists. split; [done|]. by vm_compute.
  - destruct e as [data|data|message|code]; cbn [fold_left first_settling].
    + by apply IH.
    + by apply IH.
    + eexists. split; [apply settled_stays; simpl; by rewrite H|]. simpl.
      split; [done|]. intros _. eexists. split; [done|].
      first [done | by apply js_app_nonempty].
    + destruct code as [[|c|c]|];
        (eexists; split; [apply settled_stays; simpl; by rewrite H|]); simpl;
        (split; [done|]); intros Hs; try done;
        (eexists; split; [done|]);
        apply or_else_nonempty; first [done | by apply js_app_nonempty].
Qed.

(** [runVersion] of a command that [spawn] starts. *)
Lemma runVersion_resolves (command : jsstring) (before : list ProcEvent) :
  spawn_throws command = None ->
  exists r,
    runVersion spawn_throws match_version command before = PromiseResolved r
    /\ (success r = true <-> first_settling before = Some (ProcClose (Some 0%Z)))
    /\ (success r = false -> exists e, error r = Some e /\ e <> []).
Proof. intros H. unfold runVersion. rewrite H. by apply runVersion_pending. Qed.

(** [runVersion] of a command on which [spawn] throws. *)
Lemma runVersion_rejects (command reason : jsstring) (before : list ProcEvent) :
  spawn_throws command = Some reason ->
  runVersion spawn_throws match_version command before = PromiseRejected reason.
Proof. intros H. unfold runVersion. by rewrite H. Qed.

End DetectFacts.

(** C6. What [detect()] ends in, case by case.  When the PATH lookup
    answers and [spawn] starts the binary (or is not reached), [detect]
    returns a result: [available: true] exactly when the binary was found
    and the first event that settles [--version] is its exit with code 0,
    and in every other case (not found, an ['error'] event, another exit
    code or none, the 15-second timeout) [available: false] with a
    non-empty [error].  When the binary was found and [spawn] throws on
    it, [detect] throws that error; it also ends as the PATH lookup does
    when that throws or never answers. *)
Theorem detect_reports_availability
    (findCommandPath : jsstring -> Outcome FindResult)
    (spawn_throws : jsstring -> option jsstring)
    (match_version : jsstring -> option jsstring)
    (commandPath : option jsstring) (defaultCommand : jsstring)
    (before : list ProcEvent) :
  let outcome :=
    (detect findCommandPath spawn_throws match_version commandPath
       defaultCommand before).1 in
  match findCommandPath (default defaultCommand commandPath) with
  | Returns findResult =>
      match (if found findResult then spawn_throws (path findResult) else None) with
      | None =>
          exists r,
            outcome = Returns r
            /\ (available r = true <->
                found findResult = true
                /\ first_settling before = Some (ProcClose (Some 0%Z)))
            /\ (available r = false ->
                exists e, detect_error r = Some e /\ e <> [])
      | Some reason => outcome = Throws reason
      end
  | Throws reason => outcome = Throws reason
  | NeverReturns => outcome = NeverReturns
  end.
Proof.
  unfold detect.
  replace (match commandPath with Some c => c | None => defaultCommand end)
    with (default defaultCommand commandPath) by (by destruct commandPath).
  destruct (findCommandPath (default defaultCommand commandPath))
    as [findResult|reason|]; [|done..].
  destruct (found findResult) eqn:Hf; cbn [negb].
  - destruct (spawn_throws (path findResult)) as [reason|] eqn:Hsp.
    { by rewrite (runVersion_rejects _ _ _ _ _ Hsp). }
    destruct (runVersion_resolves _ match_version _ before Hsp)
      as (v & -> & Hok & Herr).
    cbn [await]. destruct (success v) eqn:Hs; cbn [negb fst].
    + eexists. split; [done|]. cbn. split; [|done]. split; [|done].
      intros _. split; [done|]. by apply Hok.
    + eexists. split; [done|]. cbn. split.
      * split; [done|]. intros [_ H]. apply Hok in H. done.
      * intros _. by apply Herr.
  - eexists. split; [done|]. cbn. split.
    + split; [done|]. by intros [? _].
    + intros _. eexists. split; [done|]. by vm_compute.
Qed.

(** C6, the failing run.  [kimi] is found in PATH and [spawn] fails on it
    with ETXTBSY: [detect()] throws [spawn ETXTBSY] and returns no result,
    where an [available: false] result with an [error] is due. *)
Lemma detect_throws_when_spawn_throws :
  (detect sample_findCommandPath sample_spawn_throws (fun _ => None) None
     (js "kimi") []).1
  = Throws (js "spawn ETXTBSY")
  /\ ~ exists r,
       (detect sample_findCommandPath sample_spawn_throws (fun _ => None) None
          (js "kimi") []).1
       = Returns r.
Proof. split; [reflexivity|]. by intros [r H]. Qed.

End KimiSpec.

(** ** The remote client *)
Module RemoteFacts.
Import Js Remote.

(** Computes the field updates of a world given by its fields. *)
Ltac setters :=
  cbn [eventHandler clearTimeout clearInterval set_socket
       with_client set_ws set_pingInterval set_status
       set_pendingRequests set_subscribed set_sockets set_wire set_handled
       set_settled set_callers set_timeouts set_intervals
       set_connectSettled set_nextRequest set_nextInterval set_nextConnect
       client sockets wire handled settled callers timeouts intervals
       connectSettled nextRequest nextInterval nextConnect
       ws token pingInterval _status pendingRequests _subscribed] in *.

(** Takes a world apart into its fields. *)
Ltac world w :=
  destruct w as [[c_ws c_token c_ping c_status c_pending c_sub]
                   w_sockets w_wire w_handled w_settled w_callers w_timeouts
                   w_intervals w_connects w_nr w_ni w_nc];
  setters.

(** *** Settling *)

Lemma resume_rejected (caller : Method) (error : jsstring) (w : World) :
  resume caller (Rejected error) w = w.
Proof. by destruct caller. Qed.

Lemma settle_rejected (p : nat) (error : jsstring) (w : World) :
  settle p (Rejected error) w
  = set_settled (settled w ++ [(p, Rejected error)]) w.
Proof.
  unfold settle. destruct (negb (is_settled p w)); [|done].
  destruct (callers _ !! p); [|done]. apply resume_rejected.
Qed.

(** [resume] touches the [_subscribed] flag only. *)
Lemma resume_shape (caller : Method) (o : Settlement) (w : World) :
  exists b, resume caller o w = with_client (set_subscribed b) w.
Proof.
  exists (_subscribed (client (resume caller o w))).
  destruct w as [[] ?]. destruct caller, o; simpl; try done;
    by destruct (_ && _).
Qed.

Lemma settle_shape (p : nat) (o : Settlement) (w : World) :
  exists b, settle p o w
    = with_client (set_subscribed b) (set_settled (settled w ++ [(p, o)]) w).
Proof.
  unfold settle. destruct (negb (is_settled p w)).
  - destruct (callers _ !! p).
    + apply resume_shape.
    + exists (_subscribed (client w)). by destruct w as [[] ?].
  - exists (_subscribed (client w)). by destruct w as [[] ?].
Qed.

(** *** [cleanup] *)

Lemma lookup_fold_delete {A B} (f : B -> jsstring) (l : list B) (m : gmap jsstring A)
    (k : jsstring) :
  fold_left (fun m e => delete (f e) m) l m !! k
  = if bool_decide (k ∈ map f l) then None else m !! k.
Proof.
  revert m; induction l as [|e l IH]; intros m; simpl; [done|].
  rewrite IH. destruct (decide (k = f e)) as [->|Hne].
  - rewrite lookup_delete_eq, (bool_decide_true (_ ∈ _ :: _)) by set_solver.
    by case_bool_decide.
  - rewrite lookup_delete_ne by done.
    repeat case_bool_decide; try done; set_solver.
Qed.

Lemma lookup_fold_delete_nat {A B} (f : B -> nat) (l : list B) (m : gmap nat A)
    (k : nat) :
  fold_left (fun m e => delete (f e) m) l m !! k
  = if bool_decide (k ∈ map f l) then None else m !! k.
Proof.
  revert m; induction l as [|e l IH]; intros m; simpl; [done|].
  rewrite IH. destruct (decide (k = f e)) as [->|Hne].
  - rewrite lookup_delete_eq, (bool_decide_true (_ ∈ _ :: _)) by set_solver.
    by case_bool_decide.
  - rewrite lookup_delete_ne by done.
    repeat case_bool_decide; try done; set_solver.
Qed.

(** The loop of [cleanup], entry by entry. *)
Lemma fold_reject_pending (l : list (jsstring * PendingRequest)) (w : World) :
  fold_left reject_pending l w
  = with_client
      (fun c => set_pendingRequests
                  (fold_left (fun m e => delete e.1 m) l (pendingRequests c)) c)
      (set_settled
         (settled w ++ map (fun e => (promise e.2, Rejected (js "Connection closed"))) l)
         (set_timeouts (fold_left (fun m e => delete (timeout e.2) m) l (timeouts w)) w)).
Proof.
  revert w; induction l as [|e l IH]; intros w.
  - simpl. rewrite app_nil_r. by destruct w as [[] ?].
  - cbn [fold_left]. rewrite IH. unfold reject_pending.
    rewrite settle_rejected. destruct w as [[] ?]. simpl.
    by rewrite <- app_assoc.
Qed.

Lemma fold_delete_all {A} (m : gmap jsstring A) :
  fold_left (fun m e => delete e.1 m) (map_to_list m) m = ∅.
Proof.
  apply map_eq. intros k. rewrite lookup_fold_delete, lookup_empty.
  case_bool_decide as Hk; [done|].
  destruct (m !! k) as [v|] eqn:E; [|done].
  exfalso. apply Hk. apply list_elem_of_fmap. exists (k, v).
  split; [done|]. by apply elem_of_map_to_list.
Qed.

Lemma cleanup_eq (w : World) :
  cleanup w =
  let l := map_to_list (pendingRequests (client w)) in
  {| client := {| ws := None; token := token (client w); pingInterval := None;
                  _status := _status (client w); pendingRequests := ∅;
                  _subscribed := false |};
     sockets := match ws (client w) with
                | Some k => sockets (ws_detach_close k w)
                | None => sockets w
                end;
     wire := wire w;
     handled := handled w;
     settled := settled w
                ++ map (fun e => (promise e.2, Rejected (js "Connection closed"))) l;
     callers := callers w;
     timeouts := fold_left (fun m e => delete (timeout e.2) m) l (timeouts w);
     intervals := match pingInterval (client w) with
                  | Some h => intervals w ∖ {[h]}
                  | None => intervals w
                  end;
     connectSettled := connectSettled w;
     nextRequest := nextRequest w;
     nextInterval := nextInterval w;
     nextConnect := nextConnect w |}.
Proof.
  unfold cleanup. rewrite fold_reject_pending.
  destruct w as [[wsk tok pi st pend sub] socks wi ha se ca ti iv cs nr ni nc].
  unfold stopPingInterval, ws_detach_close. simpl.
  destruct pi as [h|], wsk as [k|]; simpl;
    try destruct (socks !! k); setters; by rewrite fold_delete_all.
Qed.

(** *** The invariant of the requests *)

Lemma settlements_snoc (p q : nat) (o : Settlement) (l : list (nat * Settlement)) :
  map snd (filter (fun x => x.1 = p) (l ++ [(q, o)]))
  = map snd (filter (fun x => x.1 = p) l) ++ (if decide (q = p) then [o] else []).
Proof.
  rewrite filter_app, map_app. f_equal.
  rewrite filter_cons, filter_nil. simpl. by destruct (decide (q = p)).
Qed.

Lemma RequestsInv_ext (used : list jsstring) (w w' : World) :
  requests_view w' = requests_view w ->
  RequestsInv used w -> RequestsInv used w'.
Proof.
  unfold requests_view. intros E [I1 I2 I3 I4 I5 I6].
  injection E as Hp Ht Hn Hs.
  split; unfold settlements in *; rewrite ?Hp, ?Ht, ?Hn, ?Hs; done.
Qed.

Lemma RequestsInv_weaken (used used' : list jsstring) (w : World) :
  used ⊆ used' -> RequestsInv used w -> RequestsInv used' w.
Proof. intros Hsub [I1 I2 I3 I4 I5 I6]. split; try done. set_solver. Qed.

(** A request leaves: its entry and its timer go, its promise is settled. *)
Lemma RequestsInv_complete (used : list jsstring) (w w' : World)
    (id : jsstring) (p : nat) (o : Settlement) :
  RequestsInv used w ->
  timeouts w !! p = Some (id, p) ->
  pendingRequests (client w') = delete id (pendingRequests (client w)) ->
  timeouts w' = delete p (timeouts w) ->
  nextRequest w' = nextRequest w ->
  settled w' = settled w ++ [(p, o)] ->
  RequestsInv used w'.
Proof.
  intros [I1 I2 I3 I4 I5 I6] Ht Hp Hti Hn Hs.
  destruct (I2 _ _ _ Ht) as [_ Hpend].
  split; unfold settlements in *; rewrite ?Hp, ?Hti, ?Hn, ?Hs.
  - intros id' pr Hl. apply lookup_delete_Some in Hl as [Hne Hl].
    destruct (I1 _ _ Hl) as [E1 E2]. split; [done|].
    rewrite lookup_delete_ne; [done|]. intros ->. congruence.
  - intros t id' p' Hl. apply lookup_delete_Some in Hl as [Hne Hl].
    destruct (I2 _ _ _ Hl) as [-> E2]. split; [done|].
    rewrite lookup_delete_ne; [done|]. intros ->.
    rewrite Hpend in E2. congruence.
  - intros p' [x Hl]. apply lookup_delete_Some in Hl as [Hne Hl].
    destruct (I3 p' (mk_is_Some _ _ Hl)) as [E1 E2]. split; [done|].
    rewrite settlements_snoc, E2. by rewrite decide_False.
  - intros p' Hlt Hl. rewrite settlements_snoc.
    destruct (decide (p = p')) as [<-|Hne].
    + destruct (I3 p (mk_is_Some _ _ Ht)) as [_ ->]. by exists o.
    + rewrite lookup_delete_ne in Hl by done.
      destruct (I4 p' Hlt Hl) as [o' ->]. exists o'. by rewrite app_nil_r.
  - intros p' Hle. rewrite settlements_snoc, (I5 p' Hle).
    destruct (I3 p (mk_is_Some _ _ Ht)) as [E1 _].
    rewrite decide_False by lia. done.
  - intros id' [x Hl]. apply lookup_delete_Some in Hl as [Hne Hl]. eauto.
Qed.

(** A request enters under a fresh id. *)
Lemma RequestsInv_add (used : list jsstring) (w w' : World) (id : jsstring) :
  RequestsInv used w ->
  id ∉ used ->
  pendingRequests (client w')
    = <[id := {| promise := nextRequest w; timeout := nextRequest w |}]>
        (pendingRequests (client w)) ->
  timeouts w' = <[nextRequest w := (id, nextRequest w)]> (timeouts w) ->
  nextRequest w' = S (nextRequest w) ->
  settled w' = settled w ->
  RequestsInv (id :: used) w'.
Proof.
  intros [I1 I2 I3 I4 I5 I6] Hfresh Hp Hti Hn Hs.
  assert (Hnone : timeouts w !! nextRequest w = None).
  { destruct (timeouts w !! nextRequest w) eqn:E; [|done].
    destruct (I3 _ (mk_is_Some _ _ E)). lia. }
  split; unfold settlements in *; rewrite ?Hp, ?Hti, ?Hn, ?Hs.
  - intros id' pr Hl. apply lookup_insert_Some in Hl as [[<- <-]|[Hne Hl]].
    + simpl. by rewrite lookup_insert_eq.
    + destruct (I1 _ _ Hl) as [E1 E2]. split; [done|].
      rewrite lookup_insert_ne; [done|]. intros E. rewrite <- E in E2. congruence.
  - intros t id' p' Hl. apply lookup_insert_Some in Hl as [[<- E]|[Hne Hl]].
    + inversion E; subst. by rewrite lookup_insert_eq.
    + destruct (I2 _ _ _ Hl) as [-> E2]. split; [done|].
      rewrite lookup_insert_ne; [done|]. intros ->.
      apply Hfresh, I6. by eexists.
  - intros p' [x Hl]. apply lookup_insert_Some in Hl as [[<- E]|[Hne Hl]].
    + split; [lia|]. by apply I5.
    + destruct (I3 p' (mk_is_Some _ _ Hl)). split; [lia|done].
  - intros p' Hlt Hl. apply lookup_insert_None in Hl as [Hl Hne].
    apply I4; [lia|done].
  - intros p' Hle. apply I5. lia.
  - intros id' [x Hl]. apply lookup_insert_Some in Hl as [[<- E]|[Hne Hl]].
    + set_solver.
    + apply list_elem_of_further, I6. by eexists.
Qed.

(** The rejections that [cleanup] logs, seen from one promise. *)
Lemma filter_rejections_none {A} (l : list A) (f : A -> nat) (r : Settlement) (p : nat) :
  (forall y, y ∈ l -> f y <> p) ->
  filter (fun x => x.1 = p) (map (fun e => (f e, r)) l) = [].
Proof.
  induction l as [|x l IH]; intros H; simpl; [done|].
  rewrite filter_cons. simpl. rewrite decide_False by (apply H; set_solver).
  apply IH. intros y Hy. apply H. set_solver.
Qed.

Lemma filter_rejections_one {A} (l : list A) (f : A -> nat) (r : Settlement)
    (p : nat) (x0 : A) :
  NoDup l -> x0 ∈ l -> f x0 = p ->
  (forall y, y ∈ l -> f y = p -> y = x0) ->
  filter (fun x => x.1 = p) (map (fun e => (f e, r)) l) = [(p, r)].
Proof.
  induction l as [|x l IH]; intros Hnd Hin Hf Huniq; [set_solver|].
  apply NoDup_cons in Hnd as [Hx Hnd]. simpl. rewrite filter_cons. simpl.
  destruct (decide (f x = p)) as [E|E].
  - assert (x = x0) as -> by (apply Huniq; [set_solver|done]).
    rewrite Hf. f_equal. apply filter_rejections_none.
    intros y Hy Hfy. apply Hx. rewrite <- (Huniq y); [done|set_solver|done].
  - apply IH; [done| |done|].
    + apply elem_of_cons in Hin as [->|]; [done|done].
    + intros y Hy. apply Huniq. set_solver.
Qed.

(** [cleanup] disarms every request timer. *)
Lemma cleanup_timeouts (used : list jsstring) (w : World) :
  RequestsInv used w -> timeouts (cleanup w) = ∅.
Proof.
  intros [I1 I2 I3 I4 I5 I6]. rewrite cleanup_eq. cbv zeta. cbn [timeouts].
  apply map_eq. intros t. rewrite lookup_empty.
  rewrite (lookup_fold_delete_nat (fun e => timeout e.2)).
  case_bool_decide as Hin; [done|].
  destruct (timeouts w !! t) as [[id p]|] eqn:E; [|done].
  destruct (I2 _ _ _ E) as [-> Hp]. exfalso. apply Hin.
  apply list_elem_of_fmap. exists (id, {| promise := p; timeout := p |}).
  split; [done|]. by apply elem_of_map_to_list.
Qed.

(** [cleanup] rejects the promise of every request that is pending, once,
    and calls nothing on the others. *)
Lemma cleanup_settlements (used : list jsstring) (w : World) (p : nat) :
  RequestsInv used w ->
  settlements p (cleanup w)
  = match timeouts w !! p with
    | Some _ => [Rejected (js "Connection closed")]
    | None => settlements p w
    end.
Proof.
  intros [I1 I2 I3 I4 I5 I6]. rewrite cleanup_eq. cbv zeta.
  unfold settlements. cbn [settled]. rewrite filter_app, map_app.
  set (l := map_to_list (pendingRequests (client w))).
  destruct (timeouts w !! p) as [[id p']|] eqn:E.
  - destruct (I2 _ _ _ E) as [<- Hp].
    destruct (I3 p (mk_is_Some _ _ E)) as [_ E0]. unfold settlements in E0.
    rewrite E0.
    rewrite (filter_rejections_one l (fun e => promise e.2) _ p
               (id, {| promise := p; timeout := p |})); [done| | |done|].
    + apply NoDup_map_to_list.
    + by apply elem_of_map_to_list.
    + intros [id' pr'] Hin Hpr. apply elem_of_map_to_list in Hin.
      destruct (I1 _ _ Hin) as [E1 E2]. simpl in Hpr. rewrite Hpr in *.
      rewrite E in E2. inversion E2; subst.
      rewrite Hp in Hin. by inversion Hin.
  - rewrite (filter_rejections_none l (fun e => promise e.2)); [by rewrite app_nil_r|].
    intros [id' pr'] Hin Hpr. apply elem_of_map_to_list in Hin.
    destruct (I1 _ _ Hin) as [E1 E2]. simpl in Hpr. rewrite Hpr in *. congruence.
Qed.

Lemma cleanup_pendingRequests (w : World) : pendingRequests (client (cleanup w)) = ∅.
Proof. by rewrite cleanup_eq. Qed.

Lemma cleanup_nextRequest (w : World) : nextRequest (cleanup w) = nextRequest w.
Proof. by rewrite cleanup_eq. Qed.

Lemma RequestsInv_cleanup (used : list jsstring) (w : World) :
  RequestsInv used w -> RequestsInv used (cleanup w).
Proof.
  intros HR. pose proof HR as [I1 I2 I3 I4 I5 I6].
  pose proof (cleanup_timeouts _ _ HR) as Et.
  split; rewrite ?cleanup_pendingRequests, ?cleanup_nextRequest, ?Et.
  - intros id pr Hl. by rewrite lookup_empty in Hl.
  - intros t id p Hl. by rewrite lookup_empty in Hl.
  - intros p [x Hl]. by rewrite lookup_empty in Hl.
  - intros p Hlt _. rewrite (cleanup_settlements _ _ _ HR).
    destruct (timeouts w !! p) eqn:E; [by eexists|by apply I4].
  - intros p Hle. rewrite (cleanup_settlements _ _ _ HR).
    destruct (timeouts w !! p) eqn:E; [|by apply I5].
    destruct (I3 p (mk_is_Some _ _ E)). lia.
  - intros id [x Hl]. by rewrite lookup_empty in Hl.
Qed.

(** *** The invariant of the sockets *)

Lemma SocketsInv_ext (w w' : World) :
  sockets_view w' = sockets_view w ->
  SocketsInv w -> SocketsInv w'.
Proof.
  unfold sockets_view. intros E [S1 S2 S3 S4].
  injection E as Hst Hws Hso Hn.
  split; rewrite ?Hst, ?Hws, ?Hso, ?Hn; done.
Qed.

(** A socket that can still raise an open, message or error event is the
    current one, and the client is not [disconnected]. *)
Lemma SocketsInv_current (w : World) (k : nat) (s : WebSocket) :
  SocketsInv w ->
  sockets w !! k = Some s -> handlers s = true -> readyState s <> CLOSED ->
  ws (client w) = Some k /\ _status (client w) <> disconnected.
Proof.
  intros [S1 S2 S3 S4] Hk Hh Hr.
  assert (Hws : ws (client w) = Some k).
  { destruct (decide (ws (client w) = Some k)); [done|]. by destruct (Hr (S2 _ _ Hk Hh n)). }
  split; [done|]. intros Hst. by destruct (Hr (S3 _ _ Hst Hws Hk)).
Qed.

Lemma SocketsInv_no_ws (w : World) (st : ConnectionStatus) :
  ws (client w) = None -> SocketsInv w ->
  SocketsInv (with_client (set_status st) w).
Proof.
  intros Hws [S1 S2 S3 S4]. world w. subst. split; setters; done.
Qed.

Lemma SocketsInv_set_socket (w : World) (k : nat) (s s' : WebSocket) :
  sockets w !! k = Some s ->
  handlers s' = true ->
  readyState s' <> CONNECTING ->
  (readyState s' = CLOSED \/
   (ws (client w) = Some k /\ _status (client w) <> disconnected)) ->
  SocketsInv w -> SocketsInv (set_socket k s' w).
Proof.
  intros Hk Hh Hr Hcase [S1 S2 S3 S4]. world w. split; setters.
  - intros k' s0 Hst Hws Hl. apply lookup_insert_Some in Hl as [[<- <-]|[Hne Hl]]; eauto.
  - intros k' s0 Hl Hh0 Hws. apply lookup_insert_Some in Hl as [[<- <-]|[Hne Hl]]; eauto.
    destruct Hcase as [?|[? ?]]; [done|congruence].
  - intros k' s0 Hst Hws Hl. apply lookup_insert_Some in Hl as [[<- <-]|[Hne Hl]]; eauto.
    destruct Hcase as [?|[? ?]]; [done|congruence].
  - intros k' Hle. rewrite lookup_insert_ne; [by apply S4|].
    intros <-. rewrite S4 in Hk; [done|lia].
Qed.

Lemma SocketsInv_cleanup (w : World) :
  SocketsInv w -> SocketsInv (cleanup w).
Proof.
  intros [S1 S2 S3 S4]. rewrite cleanup_eq. cbv zeta. unfold ws_detach_close.
  world w. split; setters; try done.
  - intros k s Hl Hh _. destruct c_ws as [k0|]; [|by eapply S2].
    destruct (w_sockets !! k0) as [s0|] eqn:Hk0; setters.
    + apply lookup_insert_Some in Hl as [[<- <-]|[Hne Hl]]; [done|].
      eapply S2; [done|done|congruence].
    + eapply S2; [done|done|]. intros E. inversion E; subst. congruence.
  - intros k Hle. destruct c_ws as [k0|]; [|by apply S4].
    destruct (w_sockets !! k0) as [s0|] eqn:Hk0; setters; [|by apply S4].
    rewrite lookup_insert_ne; [by apply S4|].
    intros <-. rewrite S4 in Hk0; [done|lia].
Qed.

Lemma cleanup_set_status (st : ConnectionStatus) (w : World) :
  cleanup (with_client (set_status st) w) = with_client (set_status st) (cleanup w).
Proof.
  rewrite !cleanup_eq. unfold ws_detach_close. world w.
  destruct c_ws as [k|]; [|done]. by destruct (w_sockets !! k).
Qed.

Lemma cleanup_eventHandler (ev : RemoteClientEvent) (w : World) :
  cleanup (eventHandler ev w) = eventHandler ev (cleanup w).
Proof.
  rewrite !cleanup_eq. unfold ws_detach_close. world w.
  destruct c_ws as [k|]; [|done]. by destruct (w_sockets !! k).
Qed.

Lemma cleanup_set_socket (k : nat) (s : WebSocket) (w : World) :
  ws (client w) <> Some k ->
  cleanup (set_socket k s w) = set_socket k s (cleanup w).
Proof.
  intros Hws. rewrite !cleanup_eq. unfold ws_detach_close. world w.
  destruct c_ws as [k0|]; [|done].
  rewrite lookup_insert_ne by congruence.
  destruct (w_sockets !! k0); [|done]. setters.
  by rewrite insert_insert_ne by congruence.
Qed.

Lemma cleanup_ws (w : World) : ws (client (cleanup w)) = None.
Proof. by rewrite cleanup_eq. Qed.

Lemma cleanup_status (w : World) : _status (client (cleanup w)) = _status (client w).
Proof. by rewrite cleanup_eq. Qed.

(** *** Updates that the invariants do not see *)

Ltac view :=
  unfold requests_view, sockets_view, ping_view, frame_view, startPingInterval,
    stopPingInterval;
  intros;
  match goal with w : World |- _ => world w end;
  repeat case_match; setters; done.

Lemma requests_view_client (f : RemoteClient -> RemoteClient) (w : World) :
  pendingRequests (f (client w)) = pendingRequests (client w) ->
  requests_view (with_client f w) = requests_view w.
Proof. unfold requests_view. world w. by intros ->. Qed.

Lemma requests_view_status st w :
  requests_view (with_client (set_status st) w) = requests_view w.
Proof. view. Qed.
Lemma requests_view_subscribed b w :
  requests_view (with_client (set_subscribed b) w) = requests_view w.
Proof. view. Qed.
Lemma requests_view_ws k w :
  requests_view (with_client (set_ws k) w) = requests_view w.
Proof. view. Qed.
Lemma requests_view_eventHandler ev w :
  requests_view (eventHandler ev w) = requests_view w.
Proof. view. Qed.
Lemma requests_view_wire l w : requests_view (set_wire l w) = requests_view w.
Proof. view. Qed.
Lemma requests_view_connectSettled l w :
  requests_view (set_connectSettled l w) = requests_view w.
Proof. view. Qed.
Lemma requests_view_sockets m w : requests_view (set_sockets m w) = requests_view w.
Proof. view. Qed.
Lemma requests_view_socket k s w : requests_view (set_socket k s w) = requests_view w.
Proof. view. Qed.
Lemma requests_view_nextConnect n w :
  requests_view (set_nextConnect n w) = requests_view w.
Proof. view. Qed.
Lemma requests_view_startPingInterval w :
  requests_view (startPingInterval w) = requests_view w.
Proof. view. Qed.

Lemma sockets_view_subscribed b w :
  sockets_view (with_client (set_subscribed b) w) = sockets_view w.
Proof. view. Qed.
Lemma sockets_view_pendingRequests m w :
  sockets_view (with_client (fun c => set_pendingRequests (m c) c) w) = sockets_view w.
Proof. view. Qed.
Lemma sockets_view_eventHandler ev w :
  sockets_view (eventHandler ev w) = sockets_view w.
Proof. view. Qed.
Lemma sockets_view_wire l w : sockets_view (set_wire l w) = sockets_view w.
Proof. view. Qed.
Lemma sockets_view_connectSettled l w :
  sockets_view (set_connectSettled l w) = sockets_view w.
Proof. view. Qed.
Lemma sockets_view_settled l w : sockets_view (set_settled l w) = sockets_view w.
Proof. view. Qed.
Lemma sockets_view_timeouts m w : sockets_view (set_timeouts m w) = sockets_view w.
Proof. view. Qed.
Lemma sockets_view_clearTimeout t w : sockets_view (clearTimeout t w) = sockets_view w.
Proof. view. Qed.
Lemma sockets_view_callers m w : sockets_view (set_callers m w) = sockets_view w.
Proof. view. Qed.
Lemma sockets_view_nextRequest n w :
  sockets_view (set_nextRequest n w) = sockets_view w.
Proof. view. Qed.
Lemma sockets_view_startPingInterval w :
  sockets_view (startPingInterval w) = sockets_view w.
Proof. view. Qed.

Lemma ping_view_status st w :
  ping_view (with_client (set_status st) w) = ping_view w.
Proof. view. Qed.
Lemma ping_view_subscribed b w :
  ping_view (with_client (set_subscribed b) w) = ping_view w.
Proof. view. Qed.
Lemma ping_view_ws k w : ping_view (with_client (set_ws k) w) = ping_view w.
Proof. view. Qed.
Lemma ping_view_pendingRequests m w :
  ping_view (with_client (fun c => set_pendingRequests (m c) c) w) = ping_view w.
Proof. view. Qed.
Lemma ping_view_eventHandler ev w : ping_view (eventHandler ev w) = ping_view w.
Proof. view. Qed.
Lemma ping_view_wire l w : ping_view (set_wire l w) = ping_view w.
Proof. view. Qed.
Lemma ping_view_connectSettled l w :
  ping_view (set_connectSettled l w) = ping_view w.
Proof. view. Qed.
Lemma ping_view_sockets m w : ping_view (set_sockets m w) = ping_view w.
Proof. view. Qed.
Lemma ping_view_socket k s w : ping_view (set_socket k s w) = ping_view w.
Proof. view. Qed.
Lemma ping_view_nextConnect n w : ping_view (set_nextConnect n w) = ping_view w.
Proof. view. Qed.
Lemma ping_view_settled l w : ping_view (set_settled l w) = ping_view w.
Proof. view. Qed.
Lemma ping_view_timeouts m w : ping_view (set_timeouts m w) = ping_view w.
Proof. view. Qed.
Lemma ping_view_clearTimeout t w : ping_view (clearTimeout t w) = ping_view w.
Proof. view. Qed.
Lemma ping_view_callers m w : ping_view (set_callers m w) = ping_view w.
Proof. view. Qed.
Lemma ping_view_nextRequest n w : ping_view (set_nextRequest n w) = ping_view w.
Proof. view. Qed.

Lemma frame_view_status st w :
  frame_view (with_client (set_status st) w) = frame_view w.
Proof. view. Qed.
Lemma frame_view_subscribed b w :
  frame_view (with_client (set_subscribed b) w) = frame_view w.
Proof. view. Qed.
Lemma frame_view_ws k w : frame_view (with_client (set_ws k) w) = frame_view w.
Proof. view. Qed.
Lemma frame_view_pingInterval h w :
  frame_view (with_client (set_pingInterval h) w) = frame_view w.
Proof. view. Qed.
Lemma frame_view_pendingRequests m w :
  frame_view (with_client (fun c => set_pendingRequests (m c) c) w) = frame_view w.
Proof. view. Qed.
Lemma frame_view_eventHandler ev w : frame_view (eventHandler ev w) = frame_view w.
Proof. view. Qed.
Lemma frame_view_connectSettled l w :
  frame_view (set_connectSettled l w) = frame_view w.
Proof. view. Qed.
Lemma frame_view_sockets m w : frame_view (set_sockets m w) = frame_view w.
Proof. view. Qed.
Lemma frame_view_socket k s w : frame_view (set_socket k s w) = frame_view w.
Proof. view. Qed.
Lemma frame_view_nextConnect n w : frame_view (set_nextConnect n w) = frame_view w.
Proof. view. Qed.
Lemma frame_view_settled l w : frame_view (set_settled l w) = frame_view w.
Proof. view. Qed.
Lemma frame_view_timeouts m w : frame_view (set_timeouts m w) = frame_view w.
Proof. view. Qed.
Lemma frame_view_clearTimeout t w : frame_view (clearTimeout t w) = frame_view w.
Proof. view. Qed.
Lemma frame_view_callers m w : frame_view (set_callers m w) = frame_view w.
Proof. view. Qed.
Lemma frame_view_nextRequest n w : frame_view (set_nextRequest n w) = frame_view w.
Proof. view. Qed.
Lemma frame_view_startPingInterval w :
  frame_view (startPingInterval w) = frame_view w.
Proof. view. Qed.
Lemma frame_view_cleanup w : frame_view (cleanup w) = frame_view w.
Proof. by rewrite cleanup_eq. Qed.
Lemma frame_view_settle p o w : frame_view (settle p o w) = frame_view w.
Proof. destruct (settle_shape p o w) as [b ->]. view. Qed.

Create Rewrite HintDb views.
#[export] Hint Rewrite frame_view_status frame_view_subscribed frame_view_ws
  frame_view_pingInterval frame_view_pendingRequests frame_view_eventHandler
  frame_view_connectSettled frame_view_sockets frame_view_socket
  frame_view_nextConnect frame_view_settled frame_view_timeouts
  frame_view_clearTimeout frame_view_callers frame_view_nextRequest
  frame_view_startPingInterval frame_view_cleanup frame_view_settle : views.
#[export] Hint Rewrite ping_view_status ping_view_subscribed ping_view_ws
  ping_view_pendingRequests ping_view_eventHandler ping_view_wire
  ping_view_connectSettled ping_view_sockets ping_view_socket
  ping_view_nextConnect ping_view_settled ping_view_timeouts
  ping_view_clearTimeout ping_view_callers ping_view_nextRequest : views.
#[export] Hint Rewrite requests_view_status requests_view_subscribed
  requests_view_ws requests_view_eventHandler requests_view_wire
  requests_view_connectSettled requests_view_sockets requests_view_socket
  requests_view_nextConnect requests_view_startPingInterval
  sockets_view_subscribed sockets_view_pendingRequests
  sockets_view_eventHandler sockets_view_wire sockets_view_connectSettled
  sockets_view_settled sockets_view_timeouts sockets_view_clearTimeout
  sockets_view_callers sockets_view_nextRequest
  sockets_view_startPingInterval : views.

(** Closes a goal [requests_view w' = requests_view w] (or the same for
    the sockets) when [w'] is [w] under updates of other fields. *)
Ltac same_view := autorewrite with views; done.

(** *** Every event keeps the invariant of the sockets *)

Lemma ws_send_shape (k : nat) (data : json) (w w' : World) :
  ws_send k data w = Some w' -> w' = w \/ w' = set_wire (wire w ++ [(k, data)]) w.
Proof.
  unfold ws_send. intros H.
  repeat case_match; try discriminate; injection H as <-; auto.
Qed.

Lemma ws_send_open (k : nat) (data : json) (w : World) :
  (forall s, sockets w !! k = Some s -> readyState s <> CONNECTING) ->
  ws_send k data w = Some w
  \/ ws_send k data w = Some (set_wire (wire w ++ [(k, data)]) w).
Proof.
  intros H. unfold ws_send. destruct (sockets w !! k) as [s|]; [|by left].
  specialize (H s eq_refl). destruct (readyState s); auto. done.
Qed.

(** Sending changes the log of frames at most. *)
Lemma ws_send_views (k : nat) (data : json) (w w' : World) :
  ws_send k data w = Some w' ->
  requests_view w' = requests_view w /\ sockets_view w' = sockets_view w.
Proof.
  intros H. destruct (ws_send_shape _ _ _ _ H) as [->| ->]; [done|].
  split; same_view.
Qed.

Lemma send_views (message : json) (w : World) :
  requests_view (send message w) = requests_view w
  /\ sockets_view (send message w) = sockets_view w.
Proof. unfold send. repeat case_match; try done. by eapply ws_send_views. Qed.

Lemma ping_views (h : nat) (id ts : jsstring) (w : World) :
  requests_view (ping h id ts w) = requests_view w
  /\ sockets_view (ping h id ts w) = sockets_view w.
Proof. unfold ping. repeat case_match; try done. by eapply ws_send_views. Qed.

Lemma authenticate_views (id ts : jsstring) (w : World) :
  requests_view (authenticate id ts w) = requests_view w
  /\ sockets_view (authenticate id ts w) = sockets_view w.
Proof. unfold authenticate. repeat case_match; try done. by eapply ws_send_views. Qed.

Lemma connect_requests_view (ctor_error : option jsstring) (w : World) :
  requests_view (connect ctor_error w) = requests_view w.
Proof. unfold connect. repeat case_match; try done; same_view. Qed.

Lemma connect_sockets_inv (ctor_error : option jsstring) (w : World) :
  SocketsInv w -> SocketsInv (connect ctor_error w).
Proof.
  intros HS. unfold connect.
  destruct (_status (client w)) eqn:Hst; try done.
  destruct HS as [S1 S2 S3 S4]. destruct ctor_error as [err|].
  - world w. subst. split; setters; eauto. intros k Hle. apply S4. lia.
  - world w. subst. split; setters; try done.
    + intros k s Hl Hh Hws.
      apply lookup_insert_Some in Hl as [[<- <-]|[Hne Hl]]; [done|].
      destruct (decide (c_ws = Some k)); eauto.
    + intros k Hle. rewrite lookup_insert_ne by lia. apply S4. lia.
Qed.

Lemma cleanup_disconnected_sockets_inv (w : World) :
  SocketsInv w -> SocketsInv (with_client (set_status disconnected) (cleanup w)).
Proof.
  intros HS. apply SocketsInv_no_ws; [apply cleanup_ws|by apply SocketsInv_cleanup].
Qed.

Lemma disconnect_sockets_inv (w : World) : SocketsInv w -> SocketsInv (disconnect w).
Proof.
  intros HS. unfold disconnect.
  eapply SocketsInv_ext; [|by apply cleanup_disconnected_sockets_inv]. same_view.
Qed.

Lemma onclose_sockets_inv (w : World) : SocketsInv w -> SocketsInv (onclose w).
Proof.
  intros HS. unfold onclose.
  destruct (_status (client (cleanup w))); try by apply SocketsInv_cleanup.
  eapply SocketsInv_ext; [|by apply cleanup_disconnected_sockets_inv]. same_view.
Qed.

Lemma onerror_sockets_inv (k : nat) (s : WebSocket) (w : World) :
  SocketsInv w ->
  sockets w !! k = Some s -> handlers s = true -> readyState s <> CLOSED ->
  SocketsInv (onerror k (set_socket k {| readyState := CLOSED; handlers := true;
                                         closeFired := false |} w)).
Proof.
  intros HS Hk Hh Hr. unfold onerror.
  destruct (SocketsInv_current _ _ _ HS Hk Hh Hr) as [Hws Hst].
  eapply SocketsInv_ext; [autorewrite with views; reflexivity|].
  destruct HS as [S1 S2 S3 S4]. world w. subst. split; setters; try done.
  - intros k' s0 Hl Hh0 Hws. rewrite lookup_insert_ne in Hl by congruence. eauto.
  - intros k' s0 _ E Hl. inversion E; subst. rewrite lookup_insert_eq in Hl.
    by inversion Hl.
  - intros k' Hle. rewrite lookup_insert_ne; [by apply S4|].
    intros <-. rewrite S4 in Hk; [done|lia].
Qed.

(** Settling a request changes nothing for the sockets. *)
Lemma settle_sockets_view (id : jsstring) (t p : nat) (o : Settlement) (w : World) :
  sockets_view
    (settle p o
       (with_client
          (fun c => set_pendingRequests (delete id (pendingRequests c)) c)
          (clearTimeout t w)))
  = sockets_view w.
Proof.
  destruct (settle_shape p o
              (with_client
                 (fun c => set_pendingRequests (delete id (pendingRequests c)) c)
                 (clearTimeout t w))) as [b ->].
  same_view.
Qed.

Lemma request_timeout_sockets_view (t : nat) (w : World) :
  sockets_view (request_timeout t w) = sockets_view w.
Proof.
  unfold request_timeout. destruct (timeouts w !! t) as [[id p]|]; [|done].
  apply settle_sockets_view.
Qed.

(** With the client [connected], [request] registers the request and
    sends it; the socket does not throw. *)
Lemma request_connected (caller : Method) (message : list (jsstring * json))
    (id ts : jsstring) (w : World) (k : nat) :
  SocketsInv w ->
  _status (client w) = connected -> ws (client w) = Some k ->
  exists l,
    request caller message id ts w =
      (set_wire l
         (with_client
            (fun c => set_pendingRequests
                        (<[id := {| promise := nextRequest w; timeout := nextRequest w |}]>
                           (pendingRequests c)) c)
            (set_timeouts (<[nextRequest w := (id, nextRequest w)]> (timeouts w))
               (set_nextRequest (S (nextRequest w))
                  (set_callers (<[nextRequest w := caller]> (callers w)) w)))),
       inr (nextRequest w)).
Proof.
  intros HS Hst Hws. unfold request. rewrite Hst, Hws.
  pose proof (inv_connected_open _ HS k) as Hopen.
  set (w1 := with_client _ _).
  destruct (ws_send_open k
    (JObject (obj_set (js "timestamp") (JString ts) (obj_set (js "id") (JString id) message)))
    w1) as [E|E].
  - intros s Hs. apply Hopen; [done|done|]. subst w1. by world w.
  - rewrite E. exists (wire w). f_equal. subst w1. by world w.
  - rewrite E.
    exists (wire w ++ [(k, JObject (obj_set (js "timestamp") (JString ts)
                                      (obj_set (js "id") (JString id) message)))]).
    f_equal. subst w1. by world w.
Qed.

Lemma request_not_connected (caller : Method) (message : list (jsstring * json))
    (id ts : jsstring) (w : World) :
  _status (client w) <> connected \/ ws (client w) = None ->
  request caller message id ts w = (w, inl (js "Not connected")).
Proof.
  intros H. unfold request.
  destruct (_status (client w)), (ws (client w)); try done; by destruct H.
Qed.

Lemma request_sockets_inv (caller : Method) (message : list (jsstring * json))
    (id ts : jsstring) (w : World) :
  SocketsInv w -> SocketsInv (request caller message id ts w).1.
Proof.
  intros HS.
  destruct (decide (_status (client w) = connected)) as [Hst|Hst];
    [destruct (ws (client w)) as [k|] eqn:Hws|].
  - destruct (request_connected caller message id ts w k HS Hst Hws) as [l ->].
    cbn [fst]. eapply SocketsInv_ext; [|exact HS]. by world w.
  - rewrite request_not_connected; auto.
  - rewrite request_not_connected; auto.
Qed.

Lemma handleMessage_sockets_inv (message : json) (k : nat) (w : World) :
  SocketsInv w ->
  (forall k' s, ws (client w) = Some k' -> sockets w !! k' = Some s ->
                readyState s <> CONNECTING) ->
  SocketsInv (handleMessage message k w).
Proof.
  intros HS Hopen. unfold handleMessage.
  match goal with |- context [match ?p with Some _ => _ | None => _ end] =>
    destruct p as [[id pr]|] end.
  - eapply SocketsInv_ext; [apply settle_sockets_view|done].
  - destruct (is_literal (get message "type") "auth_response").
    + destruct (truthy_value (get message "success")).
      * eapply SocketsInv_ext; [autorewrite with views; reflexivity|].
        destruct HS as [S1 S2 S3 S4]. world w. split; setters; eauto. done.
      * rewrite cleanup_eventHandler, cleanup_set_status.
        eapply SocketsInv_ext; [|by apply cleanup_disconnected_sockets_inv].
        same_view.
    + repeat case_match; try done;
        (eapply SocketsInv_ext; [|exact HS]); same_view.
Qed.

Lemma step_sockets_inv (w : World) (e : Event) :
  SocketsInv w -> SocketsInv (step w e).
Proof.
  intros HS. destruct e; cbn [step].
  - by apply connect_sockets_inv.
  - by apply disconnect_sockets_inv.
  - eapply SocketsInv_ext; [apply send_views|done].
  - by apply request_sockets_inv.
  - destruct (sockets w !! k) as [[r h c]|] eqn:Hk; [|done].
    destruct r, h, c; try done.
    eapply SocketsInv_ext; [apply authenticate_views|].
    eapply SocketsInv_set_socket; try done.
    right. by eapply SocketsInv_current.
  - destruct (sockets w !! k) as [[r h c]|] eqn:Hk; [|done].
    destruct r, h, c; try done.
    destruct (SocketsInv_current _ _ _ HS Hk eq_refl) as [Hws Hst]; [done|].
    unfold onmessage. destruct parsed as [[]|]; try done;
      (apply handleMessage_sockets_inv; [done|]);
      intros k' s' E Hl; rewrite Hws in E; injection E as <-;
      rewrite Hk in Hl; by injection Hl as <-.
  - destruct (sockets w !! k) as [[r h c]|] eqn:Hk; [|done].
    destruct r, h, c; try done; by eapply onerror_sockets_inv.
  - destruct (sockets w !! k) as [[r h c]|] eqn:Hk; [|done].
    destruct h, c; try done.
    apply onclose_sockets_inv. eapply SocketsInv_set_socket; try done. by left.
  - eapply SocketsInv_ext; [apply request_timeout_sockets_view|done].
  - eapply SocketsInv_ext; [apply ping_views|done].
Qed.

Lemma new_RemoteClient_sockets_inv (tok : jsstring) : SocketsInv (new_RemoteClient tok).
Proof. by split. Qed.

Lemma run_sockets_inv (trace : list Event) (w : World) :
  SocketsInv w -> SocketsInv (run trace w).
Proof.
  revert w. induction trace as [|e trace IH]; intros w HS; [done|].
  apply IH. by apply step_sockets_inv.
Qed.

(** *** Every event keeps the invariant of the requests *)

Lemma cleanup_disconnected_requests_inv (used : list jsstring) (w : World) :
  RequestsInv used w ->
  RequestsInv used (with_client (set_status disconnected) (cleanup w)).
Proof.
  intros HR. eapply RequestsInv_ext; [|by apply RequestsInv_cleanup]. same_view.
Qed.

Lemma settle_requests_inv (used : list jsstring) (w : World) (id : jsstring) (p : nat)
    (o : Settlement) :
  RequestsInv used w ->
  timeouts w !! p = Some (id, p) ->
  RequestsInv used
    (settle p o
       (with_client
          (fun c => set_pendingRequests (delete id (pendingRequests c)) c)
          (clearTimeout p w))).
Proof.
  intros HR Ht.
  destruct (settle_shape p o
              (with_client
                 (fun c => set_pendingRequests (delete id (pendingRequests c)) c)
                 (clearTimeout p w))) as [b ->].
  eapply RequestsInv_complete; [exact HR|exact Ht|..]; by world w.
Qed.

Lemma request_timeout_requests_inv (used : list jsstring) (t : nat) (w : World) :
  RequestsInv used w -> RequestsInv used (request_timeout t w).
Proof.
  intros HR. unfold request_timeout.
  destruct (timeouts w !! t) as [[id p]|] eqn:E; [|done].
  destruct (inv_timer_pending _ _ HR _ _ _ E) as [-> _].
  by apply settle_requests_inv.
Qed.

Lemma request_requests_inv (used : list jsstring) (caller : Method)
    (message : list (jsstring * json)) (id ts : jsstring) (w : World) :
  RequestsInv used w -> SocketsInv w -> id ∉ used ->
  RequestsInv (id :: used) (request caller message id ts w).1.
Proof.
  intros HR HS Hfresh.
  destruct (decide (_status (client w) = connected)) as [Hst|Hst];
    [destruct (ws (client w)) as [k|] eqn:Hws|].
  - destruct (request_connected caller message id ts w k HS Hst Hws) as [l ->].
    cbn [fst]. eapply RequestsInv_add; [exact HR|exact Hfresh|..]; by world w.
  - rewrite request_not_connected by auto.
    eapply RequestsInv_weaken; [|exact HR]. set_solver.
  - rewrite request_not_connected by auto.
    eapply RequestsInv_weaken; [|exact HR]. set_solver.
Qed.

(** The entry that [handleMessage] finds for a message, if any. *)
Lemma handleMessage_pending (message : json) (w : World) (id : jsstring)
    (pr : PendingRequest) :
  match get message "id" with
  | Some (JString id) =>
      match pendingRequests (client w) !! id with
      | Some p => Some (id, p)
      | None => None
      end
  | _ => None
  end = Some (id, pr) ->
  get message "id" = Some (JString id)
  /\ pendingRequests (client w) !! id = Some pr.
Proof.
  intros E. repeat case_match; try discriminate. by injection E as <- <-.
Qed.

Lemma handleMessage_requests_inv (used : list jsstring) (message : json) (k : nat)
    (w : World) :
  RequestsInv used w -> RequestsInv used (handleMessage message k w).
Proof.
  intros HR. unfold handleMessage.
  match goal with |- context [match ?p with Some _ => _ | None => _ end] =>
    destruct p as [[id pr]|] eqn:Hp end.
  - apply handleMessage_pending in Hp as [_ Hp].
    destruct (inv_pending_timer _ _ HR _ _ Hp) as [-> Ht].
    by apply settle_requests_inv.
  - destruct (is_literal (get message "type") "auth_response").
    + destruct (truthy_value (get message "success")).
      * eapply RequestsInv_ext; [|exact HR]. same_view.
      * rewrite cleanup_eventHandler, cleanup_set_status.
        eapply RequestsInv_ext; [|by apply cleanup_disconnected_requests_inv].
        same_view.
    + repeat case_match; try done;
        (eapply RequestsInv_ext; [|exact HR]); same_view.
Qed.

Lemma step_requests_inv (used : list jsstring) (w : World) (e : Event) :
  RequestsInv used w -> SocketsInv w ->
  (forall id, id ∈ request_ids [e] -> id ∉ used) ->
  RequestsInv (request_ids [e] ++ used) (step w e).
Proof.
  intros HR HS Hfresh. destruct e; cbn [step request_ids omap app] in *.
  - eapply RequestsInv_ext; [apply connect_requests_view|done].
  - unfold disconnect.
    eapply RequestsInv_ext; [|by apply cleanup_disconnected_requests_inv].
    same_view.
  - eapply RequestsInv_ext; [apply send_views|done].
  - apply request_requests_inv; [done|done|]. apply Hfresh. set_solver.
  - destruct (sockets w !! k) as [[r h c]|] eqn:Hk; [|done].
    destruct r, h, c; try done.
    eapply RequestsInv_ext; [|exact HR].
    rewrite (proj1 (authenticate_views _ _ _)). same_view.
  - destruct (sockets w !! k) as [[r h c]|] eqn:Hk; [|done].
    destruct r, h, c; try done.
    unfold onmessage. destruct parsed as [[]|]; try done;
      by apply handleMessage_requests_inv.
  - destruct (sockets w !! k) as [[r h c]|] eqn:Hk; [|done].
    destruct r, h, c; try done;
      (eapply RequestsInv_ext; [|exact HR]); unfold onerror; same_view.
  - destruct (sockets w !! k) as [[r h c]|] eqn:Hk; [|done].
    destruct h, c; try done. unfold onclose.
    set (w1 := set_socket _ _ _).
    assert (HR1 : RequestsInv used w1)
      by (eapply RequestsInv_ext; [|exact HR]; subst w1; same_view).
    destruct (_status (client (cleanup w1))); try by apply RequestsInv_cleanup.
    eapply RequestsInv_ext; [|by apply cleanup_disconnected_requests_inv].
    same_view.
  - by apply request_timeout_requests_inv.
  - eapply RequestsInv_ext; [apply ping_views|done].
Qed.

Lemma new_RemoteClient_requests_inv (tok : jsstring) :
  RequestsInv [] (new_RemoteClient tok).
Proof.
  split; unfold settlements; simpl; intros;
    repeat match goal with
      | H : is_Some _ |- _ => destruct H
      | H : ∅ !! _ = Some _ |- _ => by rewrite lookup_empty in H
      end; try done; lia.
Qed.

(** Along a trace whose request ids are pairwise distinct and new. *)
Lemma run_requests_inv (trace : list Event) (used : list jsstring) (w : World) :
  RequestsInv used w -> SocketsInv w ->
  NoDup (request_ids trace ++ used) ->
  RequestsInv (request_ids trace ++ used) (run trace w).
Proof.
  revert used w. induction trace as [|e trace IH]; intros used w HR HS Hnd; [done|].
  change (e :: trace) with ([e] ++ trace) in *.
  unfold request_ids in *. rewrite omap_app in *.
  fold (request_ids [e]) in *. fold (request_ids trace) in *.
  cbn [run fold_left app].
  assert (HR1 : RequestsInv (request_ids [e] ++ used) (step w e)).
  { apply step_requests_inv; [done|done|].
    intros id Hin Hu. rewrite <- app_assoc in Hnd.
    apply NoDup_app in Hnd as (_ & Hdisj & _). apply (Hdisj id Hin). set_solver. }
  eapply RequestsInv_weaken;
    [|apply (IH (request_ids [e] ++ used) (step w e) HR1)].
  - set_solver.
  - by apply step_sockets_inv.
  - eapply NoDup_Permutation_proper; [|exact Hnd].
    rewrite !app_assoc. apply Permutation_app_tail, Permutation_app_comm.
Qed.

Lemma reachable_requests_inv (tok : jsstring) (trace : list Event) :
  NoDup (request_ids trace) ->
  RequestsInv (request_ids trace) (run trace (new_RemoteClient tok)).
Proof.
  intros Hnd. rewrite <- (app_nil_r (request_ids trace)) at 1.
  apply run_requests_inv;
    [apply new_RemoteClient_requests_inv|apply new_RemoteClient_sockets_inv
    |by rewrite app_nil_r].
Qed.

Lemma reachable_sockets_inv (tok : jsstring) (trace : list Event) :
  SocketsInv (run trace (new_RemoteClient tok)).
Proof. apply run_sockets_inv, new_RemoteClient_sockets_inv. Qed.

(** *** The ping interval *)

Lemma PingInv_ext (w w' : World) :
  ping_view w' = ping_view w -> PingInv w -> PingInv w'.
Proof.
  unfold ping_view, PingInv. intros E. injection E as -> ->. done.
Qed.

Lemma cleanup_ping (w : World) :
  PingInv w ->
  pingInterval (client (cleanup w)) = None /\ intervals (cleanup w) = ∅.
Proof.
  unfold PingInv. rewrite cleanup_eq. cbv zeta. world w. intros ->.
  split; [done|]. destruct c_ping; set_solver.
Qed.

Lemma PingInv_cleanup (w : World) : PingInv w -> PingInv (cleanup w).
Proof.
  intros H. destruct (cleanup_ping w H) as [E1 E2].
  unfold PingInv. by rewrite E1, E2.
Qed.

Lemma PingInv_startPingInterval (w : World) :
  PingInv w -> PingInv (startPingInterval w).
Proof.
  unfold PingInv, startPingInterval, stopPingInterval. world w. intros ->.
  destruct c_ping; setters; set_solver.
Qed.

Lemma settle_ping_view (p : nat) (o : Settlement) (w : World) :
  ping_view (settle p o w) = ping_view w.
Proof. destruct (settle_shape p o w) as [b ->]. same_view. Qed.

Lemma ws_send_ping_view (k : nat) (data : json) (w w' : World) :
  ws_send k data w = Some w' -> ping_view w' = ping_view w.
Proof.
  intros H. destruct (ws_send_shape _ _ _ _ H) as [->| ->]; [done|]. same_view.
Qed.

Lemma request_ping_view (caller : Method) (message : list (jsstring * json))
    (id ts : jsstring) (w : World) :
  ping_view (request caller message id ts w).1 = ping_view w.
Proof.
  unfold request. destruct (_status (client w)); try done.
  destruct (ws (client w)) as [k|]; [|done].
  match goal with |- context [ws_send k ?d ?w1] =>
    destruct (ws_send k d w1) as [w2|] eqn:E end; cbn [fst].
  - rewrite (ws_send_ping_view _ _ _ _ E). same_view.
  - rewrite settle_ping_view. same_view.
Qed.

Lemma handleMessage_ping_inv (message : json) (k : nat) (w : World) :
  PingInv w -> PingInv (handleMessage message k w).
Proof.
  intros HP. unfold handleMessage.
  match goal with |- context [match ?p with Some _ => _ | None => _ end] =>
    destruct p as [[id pr]|] end.
  - eapply PingInv_ext; [|exact HP]. rewrite settle_ping_view. same_view.
  - destruct (is_literal (get message "type") "auth_response").
    + destruct (truthy_value (get message "success")).
      * eapply PingInv_ext; [apply ping_view_connectSettled|].
        apply PingInv_startPingInterval.
        eapply PingInv_ext; [|exact HP]. same_view.
      * rewrite cleanup_eventHandler, cleanup_set_status.
        eapply PingInv_ext; [|by apply PingInv_cleanup]. same_view.
    + repeat case_match; try done; (eapply PingInv_ext; [|exact HP]); same_view.
Qed.

Lemma step_ping_inv (w : World) (e : Event) : PingInv w -> PingInv (step w e).
Proof.
  intros HP. destruct e; cbn [step].
  - eapply PingInv_ext; [|exact HP]. unfold connect.
    repeat case_match; try done; same_view.
  - unfold disconnect. eapply PingInv_ext; [|by apply PingInv_cleanup]. same_view.
  - eapply PingInv_ext; [|exact HP]. unfold send.
    repeat case_match; try done. by eapply ws_send_ping_view.
  - eapply PingInv_ext; [apply request_ping_view|done].
  - destruct (sockets w !! k) as [[r h c]|] eqn:Hk; [|done].
    destruct r, h, c; try done.
    eapply PingInv_ext; [|exact HP]. unfold onopen, authenticate.
    repeat case_match; try same_view.
    erewrite ws_send_ping_view by done. same_view.
  - destruct (sockets w !! k) as [[r h c]|] eqn:Hk; [|done].
    destruct r, h, c; try done.
    unfold onmessage. destruct parsed as [[]|]; try done;
      by apply handleMessage_ping_inv.
  - destruct (sockets w !! k) as [[r h c]|] eqn:Hk; [|done].
    destruct r, h, c; try done;
      (eapply PingInv_ext; [|exact HP]); unfold onerror; same_view.
  - destruct (sockets w !! k) as [[r h c]|] eqn:Hk; [|done].
    destruct h, c; try done. unfold onclose.
    set (w1 := set_socket _ _ _).
    assert (HP1 : PingInv w1)
      by (eapply PingInv_ext; [|exact HP]; subst w1; same_view).
    destruct (_status (client (cleanup w1))); try by apply PingInv_cleanup.
    eapply PingInv_ext; [|by apply PingInv_cleanup]. same_view.
  - eapply PingInv_ext; [|exact HP]. unfold request_timeout.
    destruct (timeouts w !! t) as [[id p]|]; [|done].
    rewrite settle_ping_view. same_view.
  - eapply PingInv_ext; [|exact HP]. unfold ping.
    repeat case_match; try done. by eapply ws_send_ping_view.
Qed.

Lemma reachable_ping_inv (tok : jsstring) (trace : list Event) :
  PingInv (run trace (new_RemoteClient tok)).
Proof.
  assert (H : forall w, PingInv w -> PingInv (run trace w)).
  { induction trace as [|e trace IH]; intros w HP; [done|].
    apply IH. by apply step_ping_inv. }
  by apply H.
Qed.

End RemoteFacts.

(** *** Frames on the wire *)
Module RemoteFrames.
Import Js Remote RemoteFacts.

(** What [handleMessage] does never reaches the wire. *)
Lemma handleMessage_frame_view (message : json) (k : nat) (w : World) :
  frame_view (handleMessage message k w) = frame_view w.
Proof.
  unfold handleMessage. repeat case_match; same_view.
Qed.

Lemma connect_frame_view (ctor_error : option jsstring) (w : World) :
  frame_view (connect ctor_error w) = frame_view w.
Proof. unfold connect. repeat case_match; try done; same_view. Qed.

Lemma onclose_frame_view (w : World) : frame_view (onclose w) = frame_view w.
Proof. unfold onclose. repeat case_match; same_view. Qed.

Lemma request_timeout_frame_view (t : nat) (w : World) :
  frame_view (request_timeout t w) = frame_view w.
Proof. unfold request_timeout. repeat case_match; try done; same_view. Qed.

(** One event in a state that is not [connected]: nothing goes out, but
    for the socket that opens, which carries the [auth] message. *)
Lemma step_frames_not_connected (w : World) (e : Event) :
  SocketsInv w ->
  _status (client w) <> connected ->
  frame_view (step w e) = frame_view w
  \/ exists k id ts,
       e = SocketOpen k id ts
       /\ sockets w !! k
          = Some {| readyState := CONNECTING; handlers := true; closeFired := false |}
       /\ frame_view (step w e)
          = (wire w ++ [(k, AuthMessage id ts (token (client w)))], token (client w))
       /\ exists s, sockets (step w e) !! k = Some s /\ readyState s <> CONNECTING.
Proof.
  intros HS Hst. destruct e; cbn [step].
  - left. apply connect_frame_view.
  - left. unfold disconnect. same_view.
  - left. unfold send. by destruct (ws (client w)), (_status (client w)).
  - left. unfold call. rewrite request_not_connected; auto.
  - destruct (sockets w !! k) as [[r h c]|] eqn:Hk; [|by left].
    destruct r, h, c; try by left.
    right. exists k, id, timestamp. split; [done|]. split; [done|].
    destruct (SocketsInv_current _ _ _ HS Hk eq_refl) as [Hws _]; [done|].
    unfold onopen, authenticate, ws_send. world w. subst.
    rewrite lookup_insert_eq. cbn. split; [done|].
    rewrite lookup_insert_eq. by eexists.
  - left. destruct (sockets w !! k) as [[r h c]|] eqn:Hk; [|done].
    destruct r, h, c; try done. unfold onmessage.
    destruct parsed as [[]|]; try done; rewrite handleMessage_frame_view; done.
  - left. destruct (sockets w !! k) as [[r h c]|] eqn:Hk; [|done].
    destruct r, h, c; try done; unfold onerror; same_view.
  - left. destruct (sockets w !! k) as [[r h c]|] eqn:Hk; [|done].
    destruct h, c; try done. rewrite onclose_frame_view. same_view.
  - left. apply request_timeout_frame_view.
  - left. unfold ping. case_bool_decide; [|done].
    by destruct (_status (client w)), (ws (client w)).
Qed.

(** *** A socket opens once *)

Lemma sockets_of_view (w w' : World) :
  sockets_view w' = sockets_view w -> sockets w' = sockets w.
Proof. unfold sockets_view. by intros [= _ _ ? _]. Qed.

Lemma sockets_set_status (st : ConnectionStatus) (w : World) :
  sockets (with_client (set_status st) w) = sockets w.
Proof. by world w. Qed.

Lemma opened_cleanup (w : World) (k : nat) (s : WebSocket) :
  sockets w !! k = Some s -> readyState s <> CONNECTING ->
  exists s', sockets (cleanup w) !! k = Some s' /\ readyState s' <> CONNECTING.
Proof.
  intros Hk Hr. rewrite cleanup_eq. cbv zeta. cbn [sockets].
  destruct (ws (client w)) as [k0|]; [|by eauto].
  unfold ws_detach_close. destruct (sockets w !! k0) as [s0|] eqn:Hk0; [|by eauto].
  world w. destruct (decide (k0 = k)) as [->|Hne].
  - rewrite lookup_insert_eq. eexists. split; [done|]. simpl.
    by destruct (readyState s0).
  - rewrite lookup_insert_ne by done. eauto.
Qed.

Lemma opened_set_socket (w : World) (k k' : nat) (s s' : WebSocket) :
  sockets w !! k = Some s -> readyState s <> CONNECTING ->
  readyState s' <> CONNECTING ->
  exists s0, sockets (set_socket k' s' w) !! k = Some s0
             /\ readyState s0 <> CONNECTING.
Proof.
  intros Hk Hr Hr'. world w. destruct (decide (k' = k)) as [->|Hne].
  - rewrite lookup_insert_eq. eauto.
  - rewrite lookup_insert_ne by done. eauto.
Qed.

Lemma opened_handleMessage (message : json) (k0 : nat) (w : World)
    (k : nat) (s : WebSocket) :
  sockets w !! k = Some s -> readyState s <> CONNECTING ->
  exists s', sockets (handleMessage message k0 w) !! k = Some s'
             /\ readyState s' <> CONNECTING.
Proof.
  intros Hk Hr. unfold handleMessage.
  match goal with |- context [match ?p with Some _ => _ | None => _ end] =>
    destruct p as [[id pr]|] end.
  - rewrite (sockets_of_view _ _ (settle_sockets_view _ _ _ _ _)). eauto.
  - destruct (is_literal (get message "type") "auth_response").
    + destruct (truthy_value (get message "success")).
      * erewrite sockets_of_view
          by (autorewrite with views; reflexivity).
        rewrite sockets_set_status. eauto.
      * rewrite cleanup_eventHandler, cleanup_set_status.
        erewrite sockets_of_view by (autorewrite with views; reflexivity).
        rewrite sockets_set_status. by eapply opened_cleanup.
    + repeat case_match; eauto;
        erewrite sockets_of_view by (autorewrite with views; reflexivity); eauto.
Qed.

(** Once a socket has left [CONNECTING] it never returns there, so it
    raises no second open event. *)
Lemma step_opened (w : World) (e : Event) (k : nat) (s : WebSocket) :
  SocketsInv w ->
  sockets w !! k = Some s -> readyState s <> CONNECTING ->
  exists s', sockets (step w e) !! k = Some s' /\ readyState s' <> CONNECTING.
Proof.
  intros HS Hk Hr. destruct e; cbn [step].
  - unfold connect. destruct (_status (client w)); eauto.
    assert (Hne : nextConnect w <> k).
    { intros <-. rewrite (inv_sockets_fresh _ HS) in Hk; [done|lia]. }
    destruct ctor_error; world w; [by eauto|].
    rewrite lookup_insert_ne by done. eauto.
  - unfold disconnect.
    erewrite sockets_of_view by (autorewrite with views; reflexivity).
    rewrite sockets_set_status. by eapply opened_cleanup.
  - rewrite (sockets_of_view _ _ (proj2 (send_views _ _))). eauto.
  - destruct (decide (_status (client w) = connected)) as [Hst|Hst];
      [destruct (ws (client w)) as [k0|] eqn:Hws|].
    + unfold call.
      destruct (request_connected m (request_message m arg) id timestamp w k0
                  HS Hst Hws) as [l ->].
      cbn [fst]. world w. eauto.
    + unfold call. rewrite request_not_connected; eauto.
    + unfold call. rewrite request_not_connected; eauto.
  - destruct (sockets w !! k0) as [[r h c]|] eqn:Hk0; [|by eauto].
    destruct r, h, c; eauto.
    rewrite (sockets_of_view _ _ (proj2 (authenticate_views _ _ _))).
    by eapply opened_set_socket.
  - destruct (sockets w !! k0) as [[r h c]|] eqn:Hk0; [|by eauto].
    destruct r, h, c; eauto. unfold onmessage.
    destruct parsed as [[]|]; eauto; by eapply opened_handleMessage.
  - destruct (sockets w !! k0) as [[r h c]|] eqn:Hk0; [|by eauto].
    destruct r, h, c; eauto; unfold onerror;
      (erewrite sockets_of_view by (autorewrite with views; reflexivity));
      rewrite sockets_set_status; by eapply opened_set_socket.
  - destruct (sockets w !! k0) as [[r h c]|] eqn:Hk0; [|by eauto].
    destruct h, c; eauto.
    destruct (opened_set_socket w k k0 s
                {| readyState := CLOSED; handlers := true; closeFired := true |}
                Hk Hr) as (s1 & Hk1 & Hr1); [done|].
    destruct (opened_cleanup _ _ _ Hk1 Hr1) as (s2 & Hk2 & Hr2).
    unfold onclose. destruct (_status (client (cleanup _))); eauto.
    erewrite sockets_of_view by (autorewrite with views; reflexivity).
    rewrite sockets_set_status. eauto.
  - rewrite (sockets_of_view _ _ (request_timeout_sockets_view _ _)). eauto.
  - rewrite (sockets_of_view _ _ (proj2 (ping_views _ _ _ _))). eauto.
Qed.

(** The socket that opens carries the [auth] message. *)
Lemma open_transmits_auth (w : World) (k : nat) (id ts : jsstring) :
  SocketsInv w ->
  sockets w !! k
    = Some {| readyState := CONNECTING; handlers := true; closeFired := false |} ->
  wire (step w (SocketOpen k id ts))
    = wire w ++ [(k, AuthMessage id ts (token (client w)))].
Proof.
  intros HS Hk. cbn [step]. rewrite Hk.
  destruct (SocketsInv_current _ _ _ HS Hk eq_refl) as [Hws _]; [done|].
  unfold onopen, authenticate, ws_send. world w. subst.
  by rewrite lookup_insert_eq.
Qed.

(** *** The token never changes *)

Lemma ws_send_token (k : nat) (data : json) (w w' : World) :
  ws_send k data w = Some w' -> token (client w') = token (client w).
Proof.
  intros H. destruct (ws_send_shape _ _ _ _ H) as [->| ->]; [done|]. by world w.
Qed.

Lemma token_of_frame_view (w w' : World) :
  frame_view w' = frame_view w -> token (client w') = token (client w).
Proof. unfold frame_view. by intros [= _ ?]. Qed.

Lemma step_token (w : World) (e : Event) :
  token (client (step w e)) = token (client w).
Proof.
  destruct e; cbn [step].
  - apply token_of_frame_view, connect_frame_view.
  - apply token_of_frame_view. unfold disconnect. same_view.
  - unfold send. repeat case_match; try done. by eapply ws_send_token.
  - unfold call, request. repeat case_match; try done; cbn [fst].
    + erewrite ws_send_token by done. by world w.
    + apply token_of_frame_view. rewrite frame_view_settle. same_view.
  - destruct (sockets w !! k) as [[r h c]|] eqn:Hk; [|done].
    destruct r, h, c; try done. unfold onopen, authenticate.
    repeat case_match; try (by world w).
    erewrite ws_send_token by done. by world w.
  - destruct (sockets w !! k) as [[r h c]|] eqn:Hk; [|done].
    destruct r, h, c; try done. unfold onmessage.
    destruct parsed as [[]|]; try done;
      apply token_of_frame_view, handleMessage_frame_view.
  - destruct (sockets w !! k) as [[r h c]|] eqn:Hk; [|done].
    destruct r, h, c; try done; apply token_of_frame_view; unfold onerror;
      same_view.
  - destruct (sockets w !! k) as [[r h c]|] eqn:Hk; [|done].
    destruct h, c; try done. apply token_of_frame_view.
    rewrite onclose_frame_view. same_view.
  - apply token_of_frame_view, request_timeout_frame_view.
  - unfold ping. repeat case_match; try done. by eapply ws_send_token.
Qed.

Lemma run_token (trace : list Event) (w : World) :
  token (client (run trace w)) = token (client w).
Proof.
  revert w. induction trace as [|e trace IH]; intros w; [done|].
  cbn [run fold_left]. fold (run trace (step w e)). by rewrite IH, step_token.
Qed.

(** *** What goes out while the client is not connected *)

Lemma frames_while_not_connected (trace : list Event) (w : World) :
  SocketsInv w ->
  Forall (fun w => _status (client w) <> connected) (states trace w) ->
  exists frames,
    wire (run trace w) = wire w ++ frames
    /\ Forall (fun f => exists id ts, f.2 = AuthMessage id ts (token (client w))) frames
    /\ NoDup frames.*1
    /\ (forall k s, k ∈ frames.*1 -> sockets w !! k = Some s ->
                    readyState s = CONNECTING).
Proof.
  revert w. induction trace as [|e trace IH]; intros w HS Hall.
  - exists []. rewrite app_nil_r. repeat split; try done; [constructor|set_solver].
  - cbn [states] in Hall. apply Forall_cons in Hall as [Hst Hall].
    destruct (IH (step w e) (step_sockets_inv _ e HS) Hall)
      as (frames & Hw & Hauth & Hnd & Hconn).
    rewrite step_token in Hauth.
    assert (Hback : forall k s, k ∈ frames.*1 -> sockets w !! k = Some s ->
                      readyState s = CONNECTING).
    { intros k s Hin Hk.
      destruct (decide (readyState s = CONNECTING)) as [|Hr]; [done|].
      destruct (step_opened w e k s HS Hk Hr) as (s' & Hk' & Hr').
      by destruct (Hr' (Hconn _ _ Hin Hk')). }
    cbn [run fold_left]. fold (run trace (step w e)).
    pose proof (step_frames_not_connected w e HS Hst) as Hstep.
    set (w1 := step w e) in *. unfold frame_view in Hstep.
    destruct Hstep as [E|(k & id & ts & He & Hk & E & s' & Hk' & Hr')].
    + exists frames. injection E as E1 E2. rewrite Hw, E1. done.
    + exists ((k, AuthMessage id ts (token (client w))) :: frames).
      injection E as E1 E2. rewrite Hw, E1, <- app_assoc.
      split; [done|]. split; [constructor; [by eauto|done]|].
      split.
      * cbn. apply NoDup_cons. split; [|done].
        intros Hin. by destruct (Hr' (Hconn _ _ Hin Hk')).
      * intros k0 s0 Hin Hk0. cbn in Hin.
        apply elem_of_cons in Hin as [->|Hin]; [|by eauto].
        rewrite Hk in Hk0. by injection Hk0 as <-.
Qed.

End RemoteFrames.

(** *** How one event changes the requests *)
Module RemoteRequests.
Import Js Remote RemoteFacts.

Lemma cleanup_requests_view_ext (w w' : World) :
  requests_view w' = requests_view w ->
  requests_view (cleanup w') = requests_view (cleanup w).
Proof.
  unfold requests_view. intros [= E1 E2 E3 E4]. rewrite !cleanup_eq. cbv zeta.
  cbn [client pendingRequests timeouts nextRequest settled].
  by rewrite E1, E2, E3, E4.
Qed.

Lemma settle_requests_view (id : jsstring) (p : nat) (o : Settlement) (w : World) :
  requests_view
    (settle p o
       (with_client
          (fun c => set_pendingRequests (delete id (pendingRequests c)) c)
          (clearTimeout p w)))
  = (delete id (pendingRequests (client w)), delete p (timeouts w),
     nextRequest w, settled w ++ [(p, o)]).
Proof.
  destruct (settle_shape p o
              (with_client
                 (fun c => set_pendingRequests (delete id (pendingRequests c)) c)
                 (clearTimeout p w))) as [b ->].
  unfold requests_view. by world w.
Qed.

Lemma handleMessage_requests_cases (used : list jsstring) (message : json)
    (k : nat) (w : World) :
  RequestsInv used w ->
  requests_view (handleMessage message k w) = requests_view w
  \/ requests_view (handleMessage message k w) = requests_view (cleanup w)
  \/ exists id p,
       timeouts w !! p = Some (id, p)
       /\ get message "id" = Some (JString id)
       /\ requests_view (handleMessage message k w)
          = (delete id (pendingRequests (client w)), delete p (timeouts w),
             nextRequest w, settled w ++ [(p, Resolved message)]).
Proof.
  intros HR. unfold handleMessage.
  match goal with |- context [match ?p with Some _ => _ | None => _ end] =>
    destruct p as [[id pr]|] eqn:Hp end.
  - do 2 right. apply handleMessage_pending in Hp as [Hid Hp].
    destruct (inv_pending_timer _ _ HR _ _ Hp) as [Et Ht].
    exists id, (promise pr). split; [done|]. split; [done|].
    rewrite Et. apply settle_requests_view.
  - destruct (is_literal (get message "type") "auth_response").
    + destruct (truthy_value (get message "success")).
      * left. same_view.
      * right; left. rewrite cleanup_eventHandler, cleanup_set_status.
        same_view.
    + left. repeat case_match; try done; same_view.
Qed.

(** The four ways in which one event can change the requests: not at
    all; as [cleanup] does; by settling one pending request (with the
    message that answers it, or on its timeout); by registering a new
    one. *)
Lemma step_requests_cases (used : list jsstring) (w : World) (e : Event) :
  RequestsInv used w -> SocketsInv w ->
  requests_view (step w e) = requests_view w
  \/ requests_view (step w e) = requests_view (cleanup w)
  \/ (exists id p o,
        timeouts w !! p = Some (id, p)
        /\ requests_view (step w e)
           = (delete id (pendingRequests (client w)), delete p (timeouts w),
              nextRequest w, settled w ++ [(p, o)])
        /\ ((exists k message, e = SocketMessage k (Some message)
                               /\ get message "id" = Some (JString id)
                               /\ o = Resolved message)
            \/ (e = TimeoutFires p /\ o = Rejected (js "Request timeout"))))
  \/ (exists m arg id ts,
        e = Call m arg id ts
        /\ requests_view (step w e)
           = (<[id := {| promise := nextRequest w; timeout := nextRequest w |}]>
                (pendingRequests (client w)),
              <[nextRequest w := (id, nextRequest w)]> (timeouts w),
              S (nextRequest w), settled w)).
Proof.
  intros HR HS. destruct e; cbn [step].
  - left. apply connect_requests_view.
  - right; left. unfold disconnect. same_view.
  - left. apply send_views.
  - destruct (decide (_status (client w) = connected)) as [Hst|Hst];
      [destruct (ws (client w)) as [k0|] eqn:Hws|].
    + do 3 right. exists m, arg, id, timestamp. split; [done|]. unfold call.
      destruct (request_connected m (request_message m arg) id timestamp w k0
                  HS Hst Hws) as [l ->].
      cbn [fst]. unfold requests_view. by world w.
    + left. unfold call. rewrite request_not_connected; auto.
    + left. unfold call. rewrite request_not_connected; auto.
  - left. destruct (sockets w !! k) as [[r h c]|] eqn:Hk; [|done].
    destruct r, h, c; try done.
    unfold onopen. rewrite (proj1 (authenticate_views _ _ _)). same_view.
  - destruct (sockets w !! k) as [[r h c]|] eqn:Hk; [|by left].
    destruct r, h, c; try by left.
    unfold onmessage. destruct parsed as [message|]; [|by left].
    destruct (handleMessage_requests_cases used message k w HR)
      as [Hm|[Hm|(id & p & Ht & Hid & Hm)]].
    + left. by destruct message.
    + destruct message; try (by left); by (right; left).
    + destruct message; try (by left);
        right; right; left; eexists id, p, _;
        (split; [done|]); (split; [exact Hm|]); left; eauto.
  - left. destruct (sockets w !! k) as [[r h c]|] eqn:Hk; [|done].
    destruct r, h, c; try done; unfold onerror; same_view.
  - destruct (sockets w !! k) as [[r h c]|] eqn:Hk; [|by left].
    destruct h, c; try by left.
    right; left. unfold onclose.
    set (w1 := set_socket _ _ _).
    assert (E1 : requests_view w1 = requests_view w) by (subst w1; same_view).
    rewrite <- (cleanup_requests_view_ext _ _ E1).
    destruct (_status (client (cleanup w1))); try done; same_view.
  - unfold request_timeout.
    destruct (timeouts w !! t) as [[id p]|] eqn:E; [|by left].
    destruct (inv_timer_pending _ _ HR _ _ _ E) as [-> _].
    right; right; left. exists id, p, (Rejected (js "Request timeout")).
    split; [done|]. split; [apply settle_requests_view|]. by right.
  - left. apply ping_views.
Qed.

(** *** One request, from [request] to its settlement *)

Lemma settlements_of_view (w w' : World) (p : nat) :
  settled w' = settled w -> settlements p w' = settlements p w.
Proof. unfold settlements. by intros ->. Qed.

Lemma step_settled (used : list jsstring) (w : World) (e : Event)
    (id : jsstring) (p : nat) (o : Settlement) :
  RequestsInv used w -> SocketsInv w ->
  id ∈ used -> (forall id', id' ∈ request_ids [e] -> id' ∉ used) ->
  SettledBy id p o w -> SettledBy id p o (step w e).
Proof.
  intros HR HS Hid Hfresh (Hs & Ht & Hp). unfold SettledBy.
  destruct (step_requests_cases used w e HR HS)
    as [E|[E|[(id' & p' & o' & Ht' & E & _)|(m & arg & id' & ts & -> & E)]]];
    unfold requests_view in E; injection E as E1 E2 E3 E4.
  - rewrite (settlements_of_view _ _ _ E4), E1, E2. done.
  - rewrite (settlements_of_view _ _ _ E4), E1, E2.
    rewrite (cleanup_settlements _ _ _ HR), Ht, (cleanup_timeouts _ _ HR),
      cleanup_pendingRequests. done.
  - assert (Hne : p' <> p) by (intros ->; congruence).
    unfold settlements. rewrite E1, E2, E4, settlements_snoc.
    fold (settlements p w). rewrite Hs, decide_False by done.
    rewrite lookup_delete_ne by done.
    split; [done|]. split; [done|]. apply lookup_delete_None. by right.
  - assert (Hne : id' <> id).
    { intros ->. apply (Hfresh id); [cbn; set_solver|done]. }
    assert (Hlt : p < nextRequest w).
    { destruct (decide (p < nextRequest w)); [done|].
      rewrite (inv_future _ _ HR p) in Hs; [done|lia]. }
    cbn [step]. rewrite (settlements_of_view _ _ _ E4), E1, E2.
    rewrite !lookup_insert_ne by (done || lia). done.
Qed.

Lemma step_pending (used : list jsstring) (w : World) (e : Event)
    (id : jsstring) (p : nat) :
  RequestsInv used w -> SocketsInv w ->
  id ∈ used -> (forall id', id' ∈ request_ids [e] -> id' ∉ used) ->
  Pending id p w ->
  Pending id p (step w e)
  \/ exists o, SettledBy id p o (step w e) /\ outcome_of id o.
Proof.
  intros HR HS Hid Hfresh (Hs & Ht & Hp). unfold Pending, SettledBy.
  destruct (step_requests_cases used w e HR HS)
    as [E|[E|[(id' & p' & o' & Ht' & E & Hcause)|(m & arg & id' & ts & -> & E)]]];
    unfold requests_view in E; injection E as E1 E2 E3 E4.
  - left. rewrite (settlements_of_view _ _ _ E4), E1, E2. done.
  - right. exists (Rejected (js "Connection closed")).
    rewrite (settlements_of_view _ _ _ E4), E1, E2.
    rewrite (cleanup_settlements _ _ _ HR), Ht, (cleanup_timeouts _ _ HR),
      cleanup_pendingRequests.
    split; [done|]. right; by right.
  - destruct (decide (p' = p)) as [->|Hne].
    + right. exists o'. rewrite Ht in Ht'. injection Ht' as <-.
      unfold settlements. rewrite E1, E2, E4, settlements_snoc.
      fold (settlements p w). rewrite Hs, decide_True by done.
      rewrite !lookup_delete_eq. split; [done|].
      destruct Hcause as [(k & message & _ & Hm & ->)|[_ ->]].
      * left. by exists message.
      * right; by left.
    + left. unfold settlements. rewrite E1, E2, E4, settlements_snoc.
      fold (settlements p w). rewrite Hs, decide_False by done.
      rewrite lookup_delete_ne by done.
      split; [done|]. split; [done|]. rewrite lookup_delete_ne; [done|].
      intros ->. destruct (inv_timer_pending _ _ HR _ _ _ Ht') as [_ Hp'].
      rewrite Hp in Hp'. by injection Hp'.
  - left.
    assert (Hne : id' <> id).
    { intros ->. apply (Hfresh id); [cbn; set_solver|done]. }
    destruct (inv_armed_unsettled _ _ HR p (mk_is_Some _ _ Ht)) as [Hlt _].
    cbn [step]. rewrite (settlements_of_view _ _ _ E4), E1, E2.
    rewrite !lookup_insert_ne by (done || lia). done.
Qed.

Lemma run_tracked (trace : list Event) (used : list jsstring) (w : World)
    (id : jsstring) (p : nat) :
  RequestsInv used w -> SocketsInv w -> id ∈ used ->
  NoDup (request_ids trace ++ used) ->
  (forall o, SettledBy id p o w -> SettledBy id p o (run trace w))
  /\ (Pending id p w ->
      Pending id p (run trace w)
      \/ exists o, SettledBy id p o (run trace w) /\ outcome_of id o).
Proof.
  revert used w. induction trace as [|e trace IH]; intros used w HR HS Hid Hnd.
  { split; [done|by left]. }
  change (e :: trace) with ([e] ++ trace) in Hnd.
  unfold request_ids in Hnd. rewrite omap_app in Hnd.
  fold (request_ids [e]) in Hnd. fold (request_ids trace) in Hnd.
  assert (Hfresh : forall id', id' ∈ request_ids [e] -> id' ∉ used).
  { intros id' Hin Hu. rewrite <- app_assoc in Hnd.
    apply NoDup_app in Hnd as (_ & Hdisj & _). apply (Hdisj id' Hin). set_solver. }
  pose proof (step_requests_inv used w e HR HS Hfresh) as HR1.
  pose proof (step_sockets_inv w e HS) as HS1.
  destruct (IH (request_ids [e] ++ used) (step w e) HR1 HS1) as [IHs IHp].
  { set_solver. }
  { eapply NoDup_Permutation_proper; [|exact Hnd].
    rewrite !app_assoc. apply Permutation_app_tail, Permutation_app_comm. }
  cbn [run fold_left]. fold (run trace (step w e)). split.
  - intros o Ho. apply IHs. by eapply step_settled.
  - intros Hpend.
    destruct (step_pending used w e id p HR HS Hid Hfresh Hpend)
      as [Hpend1|(o & Ho & Hout)].
    + by apply IHp.
    + right. exists o. split; [by apply IHs|done].
Qed.

(** [request] on a connected client leaves the request pending. *)
Lemma request_pending (used : list jsstring) (w : World) (m : Method)
    (arg : option json) (id ts : jsstring) :
  RequestsInv used w -> SocketsInv w ->
  _status (client w) = connected -> ws (client w) <> None ->
  (call m arg id ts w).2 = inr (nextRequest w)
  /\ Pending id (nextRequest w) (step w (Call m arg id ts)).
Proof.
  intros HR HS Hst Hws. destruct (ws (client w)) as [k|] eqn:Ek; [|done].
  cbn [step]. unfold call.
  destruct (request_connected m (request_message m arg) id ts w k HS Hst Ek)
    as [l ->].
  cbn [fst snd]. split; [done|]. unfold Pending.
  pose proof (inv_future _ _ HR (nextRequest w) (le_n _)) as Hs.
  unfold settlements in *. world w.
  by rewrite !lookup_insert_eq.
Qed.

(** The three things that settle a pending request. *)
Lemma message_settles (w : World) (k : nat) (message : json)
    (id : jsstring) (p : nat) :
  Pending id p w ->
  sockets w !! k
    = Some {| readyState := OPEN; handlers := true; closeFired := false |} ->
  get message "id" = Some (JString id) ->
  SettledBy id p (Resolved message) (step w (SocketMessage k (Some message))).
Proof.
  intros (Hs & Ht & Hp) Hk Hid. cbn [step]. rewrite Hk.
  assert (E : onmessage k (Some message) w = handleMessage message k w)
    by (by destruct message).
  rewrite E. unfold handleMessage. rewrite Hid, Hp. cbn [promise timeout].
  pose proof (settle_requests_view id p (Resolved message) w) as Ev.
  unfold requests_view in Ev. injection Ev as E1 E2 E3 E4.
  unfold SettledBy, settlements. rewrite E1, E2, E4, settlements_snoc.
  fold (settlements p w). rewrite Hs, decide_True by done.
  by rewrite !lookup_delete_eq.
Qed.

Lemma timeout_settles (w : World) (id : jsstring) (p : nat) :
  Pending id p w ->
  SettledBy id p (Rejected (js "Request timeout")) (step w (TimeoutFires p)).
Proof.
  intros (Hs & Ht & Hp). cbn [step]. unfold request_timeout. rewrite Ht.
  pose proof (settle_requests_view id p (Rejected (js "Request timeout")) w) as Ev.
  unfold requests_view in Ev. injection Ev as E1 E2 E3 E4.
  unfold SettledBy, settlements. rewrite E1, E2, E4, settlements_snoc.
  fold (settlements p w). rewrite Hs, decide_True by done.
  by rewrite !lookup_delete_eq.
Qed.

Lemma disconnect_settles (used : list jsstring) (w : World) (id : jsstring) (p : nat) :
  RequestsInv used w ->
  Pending id p w ->
  SettledBy id p (Rejected (js "Connection closed")) (step w CallDisconnect).
Proof.
  intros HR (Hs & Ht & Hp). cbn [step].
  assert (Ev : requests_view (disconnect w) = requests_view (cleanup w))
    by (unfold disconnect; same_view).
  unfold requests_view in Ev. injection Ev as E1 E2 E3 E4.
  unfold SettledBy. rewrite (settlements_of_view _ _ _ E4), E1, E2.
  rewrite (cleanup_settlements _ _ _ HR), Ht, (cleanup_timeouts _ _ HR),
    cleanup_pendingRequests. done.
Qed.

(** A request whose timer fires in the course of a run is settled at the
    end of it. *)
Lemma run_timeout_settled (trace : list Event) (used : list jsstring) (w : World)
    (id : jsstring) (p : nat) :
  RequestsInv used w -> SocketsInv w -> id ∈ used ->
  NoDup (request_ids trace ++ used) ->
  Pending id p w -> TimeoutFires p ∈ trace ->
  exists o, SettledBy id p o (run trace w) /\ outcome_of id o.
Proof.
  revert used w. induction trace as [|e trace IH];
    intros used w HR HS Hid Hnd Hpend Hin.
  { by apply elem_of_nil in Hin. }
  change (e :: trace) with ([e] ++ trace) in Hnd.
  unfold request_ids in Hnd. rewrite omap_app in Hnd.
  fold (request_ids [e]) in Hnd. fold (request_ids trace) in Hnd.
  assert (Hfresh : forall id', id' ∈ request_ids [e] -> id' ∉ used).
  { intros id' Hin' Hu. rewrite <- app_assoc in Hnd.
    apply NoDup_app in Hnd as (_ & Hdisj & _). apply (Hdisj id' Hin'). set_solver. }
  pose proof (step_requests_inv used w e HR HS Hfresh) as HR1.
  pose proof (step_sockets_inv w e HS) as HS1.
  assert (Hid1 : id ∈ request_ids [e] ++ used) by set_solver.
  assert (Hnd1 : NoDup (request_ids trace ++ request_ids [e] ++ used)).
  { eapply NoDup_Permutation_proper; [|exact Hnd].
    rewrite !app_assoc. apply Permutation_app_tail, Permutation_app_comm. }
  destruct (run_tracked trace _ (step w e) id p HR1 HS1 Hid1 Hnd1) as [Hstay _].
  cbn [run fold_left]. fold (run trace (step w e)).
  apply elem_of_cons in Hin as [<-|Hin].
  - exists (Rejected (js "Request timeout")).
    split; [by apply Hstay, timeout_settles|]. right. by left.
  - destruct (step_pending used w e id p HR HS Hid Hfresh Hpend)
      as [Hpend1|(o & Ho & Hout)].
    + by apply (IH _ _ HR1 HS1).
    + exists o. split; [by apply Hstay|done].
Qed.

(** Reordering a list of pairwise distinct ids. *)
Lemma NoDup_ids (A B C : list jsstring) (id : jsstring) :
  NoDup (A ++ id :: B ++ C) ->
  NoDup A /\ (id ∉ A) /\ NoDup (B ++ id :: A) /\ NoDup (C ++ B ++ id :: A).
Proof.
  intros H. apply NoDup_app in H as (HA & HAd & H).
  apply NoDup_cons in H as (Hid & H). apply NoDup_app in H as (HB & HBd & HC).
  split; [done|]. split; [set_solver|].
  assert (H1 : NoDup (B ++ id :: A)).
  { apply NoDup_app. split; [done|]. split; [set_solver|].
    apply NoDup_cons. split; [set_solver|done]. }
  split; [done|]. apply NoDup_app. split; [done|]. split; [set_solver|done].
Qed.

End RemoteRequests.

(** ** What the remote client guarantees *)
Module RemoteSpec.
Import Js Remote RemoteFacts RemoteFrames RemoteRequests.

(** C10. [connect()] called while the status is ['connecting'] or
    ['connected'] returns at once and changes nothing: the world is the
    same, so no socket is created, the status stays, and the event handler
    is not called. *)
Theorem connect_is_noop_unless_disconnected
    (ctor_error : option jsstring) (w : World) :
  _status (client w) = connecting \/ _status (client w) = connected ->
  connect ctor_error w = w
  /\ sockets (connect ctor_error w) = sockets w
  /\ nextConnect (connect ctor_error w) = nextConnect w
  /\ _status (client (connect ctor_error w)) = _status (client w)
  /\ handled (connect ctor_error w) = handled w.
Proof.
  intros H.
  assert (E : connect ctor_error w = w).
  { unfold connect. by destruct H as [-> | ->]. }
  by rewrite E.
Qed.

Lemma connect_is_noop_witness :
  _status (client (connect None (new_RemoteClient sample_token))) = connecting
  /\ connect None (connect None (new_RemoteClient sample_token))
     = connect None (new_RemoteClient sample_token).
Proof.
  split; [reflexivity|].
  apply (connect_is_noop_unless_disconnected None
           (connect None (new_RemoteClient sample_token))).
  left. reflexivity.
Defined.

(** C5. A frame of type ['engine_event'] whose id matches no pending
    request reaches the event handler as one ['engine_event'] event that
    carries the [event] property of the frame as it is; nothing else
    changes, and no ['message'] event is raised.  This holds in every
    state, so in particular after a successful [subscribe]. *)
Theorem engine_event_forwarded_as_engine_event
    (w : World) (k : nat) (message : json) :
  sockets w !! k
    = Some {| readyState := OPEN; handlers := true; closeFired := false |} ->
  is_literal (get message "type") "engine_event" = true ->
  (forall id, get message "id" = Some (JString id) ->
              pendingRequests (client w) !! id = None) ->
  step w (SocketMessage k (Some message))
    = eventHandler (EvEngineEvent (get message "event")) w
  /\ handled (step w (SocketMessage k (Some message)))
     = handled w ++ [EvEngineEvent (get message "event")].
Proof.
  intros Hk Htype Hid.
  assert (E : step w (SocketMessage k (Some message))
              = eventHandler (EvEngineEvent (get message "event")) w).
  { cbn [step]. rewrite Hk. unfold onmessage.
    destruct message; try discriminate Htype.
    unfold handleMessage.
    destruct (get (JObject fields) "id") as [[| | |id| |]|] eqn:Eid;
      try rewrite (Hid id eq_refl);
      destruct (get (JObject fields) "type") as [[| | |ty| |]|];
      try discriminate Htype;
      unfold is_literal in *;
      repeat (case_bool_decide; try discriminate; try done);
      subst; done. }
  rewrite E. split; [done|]. by world w.
Qed.

Lemma engine_event_forwarded_witness :
  _subscribed (client (run sample_subscribed (new_RemoteClient sample_token))) = true
  /\ handled (step (run sample_subscribed (new_RemoteClient sample_token))
                (SocketMessage 0 (Some sample_engine_event)))
     = handled (run sample_subscribed (new_RemoteClient sample_token))
       ++ [EvEngineEvent (get sample_engine_event "event")].
Proof.
  split; [by vm_compute|].
  apply (engine_event_forwarded_as_engine_event
           (run sample_subscribed (new_RemoteClient sample_token)) 0
           sample_engine_event).
  - by vm_compute.
  - by vm_compute.
  - intros id Hid. vm_compute in Hid. injection Hid as <-. by vm_compute.
Defined.

(** What [cleanup] leaves behind, seen through whatever runs after it. *)
Lemma after_cleanup (used : list jsstring) (w w' : World) :
  RequestsInv used w -> PingInv w ->
  requests_view w' = requests_view (cleanup w) ->
  ping_view w' = ping_view (cleanup w) ->
  _subscribed (client w') = false ->
  pendingRequests (client w') = ∅
  /\ timeouts w' = ∅
  /\ _subscribed (client w') = false
  /\ pingInterval (client w') = None
  /\ intervals w' = ∅
  /\ (forall p, p < nextRequest w' -> exists o, settlements p w' = [o])
  /\ (forall id pr, pendingRequests (client w) !! id = Some pr ->
        settlements (promise pr) w' = [Rejected (js "Connection closed")]).
Proof.
  intros HR HP Er Ep Hsub.
  unfold requests_view, ping_view in *.
  injection Er as E1 E2 E3 E4. injection Ep as E5 E6.
  destruct (cleanup_ping w HP) as [E7 E8].
  pose proof (RequestsInv_cleanup _ _ HR) as HR'.
  unfold settlements. rewrite E1, E2, E3, E4, E5, E6, E7, E8.
  rewrite cleanup_pendingRequests, (cleanup_timeouts _ _ HR).
  repeat split; try done.
  - intros p Hp. apply (inv_disarmed_settled _ _ HR' p Hp).
    by rewrite (cleanup_timeouts _ _ HR).
  - intros id pr Hl. fold (settlements (promise pr) (cleanup w)).
    rewrite (cleanup_settlements _ _ _ HR).
    destruct (inv_pending_timer _ _ HR _ _ Hl) as [_ ->]. done.
Qed.

(** C9. After [disconnect()], and after a socket close event (whose handler
    runs [cleanup]), in any state the client can reach: the pending-request
    map is empty and no request timer is armed, [_subscribed] is false,
    the ping timer is stopped, every promise that [request] has handed out
    has been settled by exactly one call, and the requests that were still
    pending have been rejected with ['Connection closed']. *)
Theorem cleanup_settles_every_request
    (tok : jsstring) (trace : list Event) (e : Event) :
  NoDup (request_ids trace) ->
  let w := run trace (new_RemoteClient tok) in
  (e = CallDisconnect \/
   exists k s, e = SocketClose k /\ sockets w !! k = Some s
               /\ handlers s = true /\ closeFired s = false) ->
  let w' := step w e in
  pendingRequests (client w') = ∅
  /\ timeouts w' = ∅
  /\ _subscribed (client w') = false
  /\ pingInterval (client w') = None
  /\ intervals w' = ∅
  /\ (forall p, p < nextRequest w' -> exists o, settlements p w' = [o])
  /\ (forall id pr, pendingRequests (client w) !! id = Some pr ->
        settlements (promise pr) w' = [Rejected (js "Connection closed")]).
Proof.
  intros Hnd w He w'.
  pose proof (reachable_requests_inv tok trace Hnd) as HR.
  pose proof (reachable_ping_inv tok trace) as HP.
  fold w in HR, HP.
  destruct He as [->|(k & [r h c] & -> & Hk & Hh & Hc)]; subst w'; cbn [step].
  - unfold disconnect. eapply after_cleanup; [exact HR|exact HP|..].
    + same_view.
    + same_view.
    + rewrite cleanup_eq. cbv zeta. by setters.
  - rewrite Hk. simpl in Hh, Hc. subst h c.
    set (w1 := set_socket k _ w).
    assert (HR1 : RequestsInv (request_ids trace) w1)
      by (eapply RequestsInv_ext; [|exact HR]; subst w1; same_view).
    assert (HP1 : PingInv w1)
      by (eapply PingInv_ext; [|exact HP]; subst w1; same_view).
    assert (Epend : pendingRequests (client w1) = pendingRequests (client w))
      by (subst w1; by world w).
    rewrite <- Epend.
    unfold onclose.
    destruct (_status (client (cleanup w1))) eqn:Est;
      (eapply after_cleanup; [exact HR1|exact HP1|..]);
      try done; try same_view;
      rewrite cleanup_eq; cbv zeta; by setters.
Qed.

Lemma cleanup_settles_every_request_witness :
  NoDup (request_ids sample_pending)
  /\ pendingRequests (client (run sample_pending (new_RemoteClient sample_token)))
       !! js "r-2" = Some {| promise := 1; timeout := 1 |}
  /\ settlements 1 (step (run sample_pending (new_RemoteClient sample_token))
                       CallDisconnect)
     = [Rejected (js "Connection closed")].
Proof.
  assert (Hnd : NoDup (request_ids sample_pending)).
  { apply (bool_decide_unpack _). by vm_compute. }
  assert (Hp : pendingRequests
                 (client (run sample_pending (new_RemoteClient sample_token)))
                 !! js "r-2" = Some {| promise := 1; timeout := 1 |})
    by (by vm_compute).
  split; [exact Hnd|]. split; [exact Hp|].
  apply (cleanup_settles_every_request sample_token sample_pending CallDisconnect
           Hnd (or_introl eq_refl)) in Hp.
  exact Hp.
Defined.



(** C1.  A call of [request] under a fresh id, on a client that is
    connected, returns a promise that one call settles: [resolve] with the
    first frame received that carries the id, or [reject] on the timeout or
    when the connection is closed.  Until then the request is pending with
    its timer armed, so that it is settled at the latest when the timer
    fires.  From then on the timer is disarmed and the id is out of the
    pending-request map, and nothing that happens later - frames with the
    same id included - calls [resolve] or [reject] on it again.  A call on
    a client in any other state throws [Not connected] and changes
    nothing: no entry in the map, no timer, no frame. *)
Theorem request_settles_exactly_once
    (tok : jsstring) (trace0 : list Event) (m : Method) (arg : option json)
    (id ts : jsstring) (trace later : list Event) :
  let w0 := run trace0 (new_RemoteClient tok) in
  NoDup (request_ids (trace0 ++ Call m arg id ts :: trace ++ later)) ->
  let p := nextRequest w0 in
  let w := run trace (step w0 (Call m arg id ts)) in
  (_status (client w0) = connected /\ ws (client w0) <> None ->
   (call m arg id ts w0).2 = inr p
   /\ (Pending id p w \/ exists o, SettledBy id p o w /\ outcome_of id o)
   /\ (TimeoutFires p ∈ trace -> exists o, SettledBy id p o w /\ outcome_of id o)
   /\ (Pending id p w ->
       (forall k message,
           sockets w !! k
             = Some {| readyState := OPEN; handlers := true; closeFired := false |} ->
           get message "id" = Some (JString id) ->
           SettledBy id p (Resolved message)
             (step w (SocketMessage k (Some message))))
       /\ SettledBy id p (Rejected (js "Request timeout")) (step w (TimeoutFires p))
       /\ SettledBy id p (Rejected (js "Connection closed")) (step w CallDisconnect))
   /\ (forall o, SettledBy id p o w -> SettledBy id p o (run later w)))
  /\ (_status (client w0) <> connected \/ ws (client w0) = None ->
      call m arg id ts w0 = (w0, inl (js "Not connected"))).
Proof.
  intros w0 Hnd p w. split; [|by apply request_not_connected].
  intros [Hst Hws].
  assert (Hids : request_ids (trace0 ++ Call m arg id ts :: trace ++ later)
                 = request_ids trace0 ++ id :: request_ids trace ++ request_ids later).
  { unfold request_ids. rewrite omap_app. cbn. by rewrite omap_app. }
  rewrite Hids in Hnd.
  apply NoDup_ids in Hnd as (Hnd0 & Hid0 & Hnd1 & Hnd2).
  pose proof (reachable_requests_inv tok trace0 Hnd0) as HR0.
  pose proof (reachable_sockets_inv tok trace0) as HS0.
  fold w0 in HR0, HS0.
  destruct (request_pending _ w0 m arg id ts HR0 HS0 Hst Hws) as [Hret Hpend].
  assert (Hfresh : forall id', id' ∈ request_ids [Call m arg id ts] ->
                     id' ∉ request_ids trace0).
  { intros id' Hin. cbn in Hin. by apply list_elem_of_singleton in Hin as ->. }
  pose proof (step_requests_inv _ w0 (Call m arg id ts) HR0 HS0 Hfresh) as HR1.
  pose proof (step_sockets_inv w0 (Call m arg id ts) HS0) as HS1.
  cbn [request_ids omap app] in HR1.
  destruct (run_tracked trace _ _ id p HR1 HS1 (list_elem_of_here _ _) Hnd1)
    as [_ Hrun].
  pose proof (run_requests_inv trace _ _ HR1 HS1 Hnd1) as HR.
  pose proof (run_sockets_inv trace _ HS1) as HS.
  fold w in Hrun, HR, HS.
  destruct (run_tracked later _ w id p HR HS) as [Hlater _]; [set_solver|done|].
  split; [exact Hret|]. split; [by apply Hrun|].
  split.
  { intros Hin.
    exact (run_timeout_settled trace _ _ id p HR1 HS1 (list_elem_of_here _ _)
             Hnd1 Hpend Hin). }
  split; [|exact Hlater].
  intros Hp. split; [|split].
  - intros k message Hk Hm. by apply message_settles.
  - by apply timeout_settles.
  - by eapply disconnect_settles.
Qed.

Lemma request_settles_exactly_once_witness :
  NoDup (request_ids
           (sample_subscribed
            ++ Call m_getState None (js "r-2") (js "2026-01-01T00:00:02Z")
               :: sample_then_event ++ []))
  /\ _status (client (run sample_subscribed (new_RemoteClient sample_token)))
     = connected
  /\ settlements 1
       (step (run sample_then_event
                (step (run sample_subscribed (new_RemoteClient sample_token))
                   (Call m_getState None (js "r-2") (js "2026-01-01T00:00:02Z"))))
          (SocketMessage 0 (Some sample_state_response)))
     = [Resolved sample_state_response].
Proof.
  assert (Hnd : NoDup (request_ids
           (sample_subscribed
            ++ Call m_getState None (js "r-2") (js "2026-01-01T00:00:02Z")
               :: sample_then_event ++ []))).
  { apply (bool_decide_unpack _). by vm_compute. }
  assert (Hst : _status (client (run sample_subscribed (new_RemoteClient sample_token)))
                = connected) by (by vm_compute).
  assert (Hws : ws (client (run sample_subscribed (new_RemoteClient sample_token)))
                <> None) by (by vm_compute).
  split; [exact Hnd|]. split; [exact Hst|].
  destruct (request_settles_exactly_once sample_token sample_subscribed m_getState
              None (js "r-2") (js "2026-01-01T00:00:02Z") sample_then_event []
              Hnd) as [Hconn _].
  destruct (Hconn (conj Hst Hws)) as (_ & _ & _ & Htrig & _).
  destruct Htrig as [Hmsg _].
  { repeat split; by vm_compute. }
  destruct (Hmsg 0 sample_state_response) as [Hs _]; [by vm_compute..|].
  exact Hs.
Defined.

(** C1, a call that settles in none of the three ways.  [getState()] on a
    client that has not connected: [request] throws [Not connected], which
    is neither a response, nor the timeout, nor the closing of the
    connection, and the client is left as it was. *)
Lemma request_rejects_when_not_connected :
  call m_getState None (js "r-1") (js "2026-01-01T00:00:00Z")
    (new_RemoteClient sample_token)
  = (new_RemoteClient sample_token, inl (js "Not connected"))
  /\ ~ outcome_of (js "r-1") (Rejected (js "Not connected")).
Proof.
  split; [by vm_compute|].
  intros [(message & H & _)|[H|H]]; [done|by vm_compute in H..].
Qed.

End RemoteSpec.

(** ** The beads-rust tracker *)
Module BeadsRustSpec.
Import Js BeadsRust.

(** C4, as the code has it.  [completeTask] of the beads-rust tracker is
    not implemented yet: for every id and every state it returns the
    failure result ['Not implemented'] and touches nothing, so a second
    call returns the same failure; it never reports success. *)
Theorem completeTask_not_implemented (id : jsstring) (t : Tracker) :
  completeTask id t
    = ({| success := false;
          message := js "beads-rust tracker is not yet able to close tasks ("
                     ++ id ++ js ")";
          error := Some (js "Not implemented") |}, t)
  /\ completeTask id (completeTask id t).2 = completeTask id t
  /\ success (completeTask id (completeTask id t).2).1 = false.
Proof. done. Qed.

(** C4 fails as stated: task [bd-1] is completed, and completing it again
    does not return a success. *)
Lemma completeTask_again_is_no_success :
  tasks sample_tracker !! js "bd-1" = Some completed
  /\ ~ (success (completeTask (js "bd-1")
                  (completeTask (js "bd-1") sample_tracker).2).1 = true).
Proof. split; [by vm_compute|]. by cbn. Qed.

End BeadsRustSpec.

(** ** Retry with backoff *)
Module EngineSpec.
Import Engine.

Lemma backoffDelay_mono (cfg : RateLimitConfig) (j k : nat) :
  j <= k -> (backoffDelay cfg j <= backoffDelay cfg k)%N.
Proof.
  intros Hjk. unfold backoffDelay.
  apply N.min_le_compat_r, N.mul_le_mono_l, N.pow_le_mono_r; lia.
Qed.

(** The decisions on [n] rate-limit detections in a row that name no
    delay, from attempt counter [c]. *)
Lemma decisions_rate_limited (cfg : RateLimitConfig) (n c : nat) :
  c + n <= maxRetries cfg ->
  decisions cfg c (replicate (S n) rate_limited)
  = map (fun k => WaitAndRetry (backoffDelay cfg k)) (seq (S c) n)
    ++ (if c + n <? maxRetries cfg
        then [WaitAndRetry (backoffDelay cfg (S (c + n)))]
        else [InvokeFallbackSelector]).
Proof.
  revert c. induction n as [|n IH]; intros c Hc.
  - rewrite Nat.add_0_r. cbn [replicate decisions onDetection rate_limited
      isRateLimit retryAfter seq map app].
    by destruct (c <? maxRetries cfg).
  - change (replicate (S (S n)) rate_limited)
      with (rate_limited :: replicate (S n) rate_limited).
    cbn [decisions onDetection rate_limited isRateLimit retryAfter].
    assert (Hlt : (c <? maxRetries cfg) = true) by (apply Nat.ltb_lt; lia).
    rewrite Hlt. rewrite IH by lia.
    cbn [seq map app]. by replace (S c + n) with (c + S n) by lia.
Qed.

(** C2, as amended.  For every configuration the delays are
    [min (base * 3^(k-1)) max] for attempt [k] and never decrease; on a run
    of rate-limit detections the engine retries exactly [maxRetries] times
    and then invokes the Fallback Selector; with base 5000 ms, max 60000 ms
    and 3 retries the delays are exactly 5000, 15000, 45000 and the fourth
    detection goes to fallback. *)
Theorem backoff_sequence (cfg : RateLimitConfig) :
  (forall k, backoffDelay cfg k
             = N.min (baseBackoffMs cfg * 3 ^ N.of_nat (k - 1)) (maxBackoffMs cfg))
  /\ (forall j k, j <= k -> (backoffDelay cfg j <= backoffDelay cfg k)%N)
  /\ decisions cfg 0 (replicate (S (maxRetries cfg)) rate_limited)
     = map (fun k => WaitAndRetry (backoffDelay cfg k)) (seq 1 (maxRetries cfg))
       ++ [InvokeFallbackSelector]
  /\ decisions default_config 0 (replicate 4 rate_limited)
     = [WaitAndRetry 5000; WaitAndRetry 15000; WaitAndRetry 45000;
        InvokeFallbackSelector].
Proof.
  split; [done|]. split; [apply backoffDelay_mono|]. split; [|by vm_compute].
  rewrite (decisions_rate_limited cfg (maxRetries cfg) 0) by lia.
  by rewrite Nat.add_0_l, Nat.ltb_irrefl.
Qed.

(** C2 fails as stated: the formula [min (base * 2^(k-1)) max] and the
    sequence 5000, 15000, 45000 do not go together; the second delay is
    15000, the formula gives 10000. *)
Lemma backoff_formula_disagrees :
  backoffDelay default_config 2 = 15000%N
  /\ backoffDelay_formula default_config 2 = 10000%N
  /\ ~ (map (backoffDelay_formula default_config) [1; 2; 3]
        = [5000; 15000; 45000]%N).
Proof. split; [by vm_compute|]. split; [by vm_compute|]. by vm_compute. Qed.

(** C3.  When the detector's result carries a [retryAfter] and a retry is
    due, the engine waits exactly that long, whatever the backoff delay
    would have been. *)
Theorem retryAfter_overrides_backoff
    (cfg : RateLimitConfig) (retryCount : nat) (detection : RateLimitResult)
    (explicit : N) :
  isRateLimit detection = true ->
  retryCount < maxRetries cfg ->
  retryAfter detection = Some explicit ->
  onDetection cfg retryCount detection = (WaitAndRetry explicit, S retryCount).
Proof.
  intros Hrl Hlt Hra. unfold onDetection. rewrite Hrl, Hra.
  by rewrite (proj2 (Nat.ltb_lt _ _) Hlt).
Qed.

Lemma retryAfter_overrides_backoff_witness :
  backoffDelay default_config 2 = 15000%N
  /\ onDetection default_config 1
       {| isRateLimit := true; message := None; retryAfter := Some 7000%N |}
     = (WaitAndRetry 7000, 2).
Proof.
  split; [by vm_compute|].
  apply (retryAfter_overrides_backoff default_config 1
           {| isRateLimit := true; message := None; retryAfter := Some 7000%N |}
           7000%N); [reflexivity|cbn; lia|reflexivity].
Defined.

End EngineSpec.

(** ** More on the JSONL parsers of the Kimi plugin *)
Module KimiParsers.
Import Js Kimi KimiResults JsFacts KimiSpec.

Lemma split_app_LF (a b : jsstring) : split (a ++ LF :: b) = split a ++ split b.
Proof.
  induction a as [|c a IH]; [done|].
  cbn [app split]. rewrite IH.
  pose proof (split_not_nil a) as Ha.
  destruct (c =? LF)%N; [done|]. by destruct (split a).
Qed.

Lemma length_split (s : jsstring) : length (split s) = S (count_LF s).
Proof.
  unfold count_LF. induction s as [|c s IH]; [done|].
  pose proof (split_not_nil s) as Hs. cbn [split List.filter].
  destruct (c =? LF)%N; cbn [length]; [by rewrite IH|].
  rewrite <- IH. by destruct (split s).
Qed.

Lemma count_LF_none (s : jsstring) : count_LF s = 0 -> indexOf s = (-1)%Z.
Proof.
  unfold count_LF, indexOf. induction s as [|c s IH]; [done|].
  cbn [List.filter indexOf_from]. destruct (c =? LF)%N; [done|].
  intros H. eapply indexOf_from_none; [by apply IH|lia].
Qed.

Lemma successes_cons (r : KimiJsonlParseResult) (rs : list KimiJsonlParseResult) :
  successes (r :: rs)
  = match r with
    | ParseSuccess m => m :: successes rs
    | ParseFailure _ _ => successes rs
    end.
Proof. by destruct r. Qed.

Lemma failures_cons (r : KimiJsonlParseResult) (rs : list KimiJsonlParseResult) :
  failures (r :: rs)
  = match r with
    | ParseSuccess _ => failures rs
    | ParseFailure raw _ =>
        if truthy (trim raw) then raw :: failures rs else failures rs
    end.
Proof. destruct r as [m|raw e]; [done|]. unfold failures. cbn. by destruct (truthy (trim raw)). Qed.

Section Parsers.
Context (JSON_parse : jsstring -> string + json) (TypeError_message : string).

#[local] Abbreviation parseLine := (parseJsonlLine JSON_parse TypeError_message).
#[local] Abbreviation step := (fun acc line => collect acc (parseLine line)).

(** A failure hands the line back untouched. *)
Lemma parseJsonlLine_failure (line raw : jsstring) (e : string) :
  parseLine line = ParseFailure raw e -> raw = line.
Proof.
  unfold parseJsonlLine. destruct (negb (truthy (trim line))); [congruence|].
  destruct (JSON_parse (trim line)) as [err|[]]; congruence.
Qed.

(** Only a line that is not blank parses. *)
Lemma parseJsonlLine_success (line : jsstring) (m : KimiJsonlMessage) :
  parseLine line = ParseSuccess m ->
  is_blank line = false
  /\ JSON_parse (trim line) = inr (msg_raw m) /\ msg_raw m <> JNull.
Proof.
  unfold parseJsonlLine, is_blank.
  destruct (negb (truthy (trim line))); [done|].
  destruct (JSON_parse (trim line)) as [err|[]]; try done;
    by intros [= <-].
Qed.

(** The loop shared by the parsers, read as a list comprehension. *)
Lemma fold_collect (ls : list jsstring) (acc : list KimiJsonlMessage * list jsstring) :
  fold_left step ls acc
  = (acc.1 ++ successes (map parseLine ls), acc.2 ++ failures (map parseLine ls)).
Proof.
  revert acc. induction ls as [|l ls IH]; intros acc.
  - simpl. rewrite !app_nil_r. by destruct acc.
  - cbn [fold_left map]. rewrite IH, successes_cons, failures_cons.
    destruct (parseLine l) as [m|raw e]; cbn [collect fst snd].
    + by rewrite <- app_assoc.
    + destruct (truthy (trim raw)); cbn [fst snd]; by rewrite <- ?app_assoc.
Qed.

Lemma parseJsonlOutput_lines (output : jsstring) :
  parseJsonlOutput JSON_parse TypeError_message output
  = (successes (map parseLine (split output)),
     failures (map parseLine (split output))).
Proof. unfold parseJsonlOutput. by rewrite fold_collect. Qed.

Lemma successes_app (r1 r2 : list KimiJsonlParseResult) :
  successes (r1 ++ r2) = successes r1 ++ successes r2.
Proof. apply omap_app. Qed.

Lemma failures_app (r1 r2 : list KimiJsonlParseResult) :
  failures (r1 ++ r2) = failures r1 ++ failures r2.
Proof. apply omap_app. Qed.

(** Each line lands in at most one of the two lists, a blank one in
    neither. *)
Lemma line_accounting (ls : list jsstring) :
  length (successes (map parseLine ls)) + length (failures (map parseLine ls))
  = length (List.filter (fun l => negb (is_blank l)) ls).
Proof.
  induction ls as [|l ls IH]; [done|].
  cbn [map List.filter]. rewrite successes_cons, failures_cons.
  destruct (parseLine l) as [m|raw e] eqn:E.
  - apply parseJsonlLine_success in E as [-> _]. cbn [negb length]. lia.
  - apply parseJsonlLine_failure in E as ->. unfold is_blank in *.
    destruct (truthy (trim l)); cbn [negb length]; lia.
Qed.

Lemma failures_sublist (ls : list jsstring) :
  failures (map parseLine ls) `sublist_of` ls.
Proof.
  induction ls as [|l ls IH]; [done|].
  cbn [map]. rewrite failures_cons.
  destruct (parseLine l) as [m|raw e] eqn:E.
  - by apply sublist_cons.
  - apply parseJsonlLine_failure in E as ->.
    destruct (truthy (trim l)); [by apply sublist_skip|by apply sublist_cons].
Qed.

Lemma failures_not_blank (rs : list KimiJsonlParseResult) :
  Forall (fun l => is_blank l = false) (failures rs).
Proof.
  induction rs as [|r rs IH]; [by constructor|].
  rewrite failures_cons. destruct r as [m|raw e]; [done|].
  destruct (truthy (trim raw)) eqn:E; [|done].
  constructor; [|done]. unfold is_blank. by rewrite E.
Qed.

End Parsers.

Lemma last_split_suffix (s : jsstring) : List.last (split s) [] `suffix_of` s.
Proof.
  induction s as [|c s IH]; [done|].
  pose proof (split_not_nil s) as Hs. cbn [split].
  destruct (c =? LF)%N.
  - destruct (split s) as [|l ls] eqn:E; [done|].
    by apply suffix_cons_r.
  - destruct (split s) as [|l [|l' ls]] eqn:E; [done| |].
    + pose proof (length_split s) as Hl. rewrite E in Hl.
      assert (Hn : count_LF s = 0) by (cbn in Hl; lia).
      rewrite (split_no_LF _ (count_LF_none _ Hn)) in E.
      injection E as <-. done.
    + by apply suffix_cons_r.
Qed.

Lemma indexOf_none_count (s : jsstring) : indexOf s = (-1)%Z -> count_LF s = 0.
Proof.
  unfold indexOf, count_LF. induction s as [|c s IH]; [done|].
  cbn [indexOf_from List.filter]. destruct (c =? LF)%N; [lia|].
  intros H. apply IH. eapply indexOf_from_none; [exact H|lia].
Qed.

(** X1.  [parseJsonlOutput] works line by line: the result for two outputs
    joined by a line feed is the result for the first followed by the
    result for the second. *)
Theorem parseJsonlOutput_app_LF
    (JSON_parse : jsstring -> string + json) (TypeError_message : string)
    (a b : jsstring) :
  parseJsonlOutput JSON_parse TypeError_message (a ++ LF :: b)
  = ((parseJsonlOutput JSON_parse TypeError_message a).1
       ++ (parseJsonlOutput JSON_parse TypeError_message b).1,
     (parseJsonlOutput JSON_parse TypeError_message a).2
       ++ (parseJsonlOutput JSON_parse TypeError_message b).2).
Proof.
  rewrite !parseJsonlOutput_lines, split_app_LF, map_app.
  by rewrite successes_app, failures_app.
Qed.

(** X2.  [parseJsonlOutput] accounts for every line: each line that is not
    blank gives one message or one fallback entry, a blank line gives
    neither; the fallback entries are lines of the output, untrimmed and
    in order; the raw value of a message is never [null]. *)
Theorem parseJsonlOutput_accounts_for_lines
    (JSON_parse : jsstring -> string + json) (TypeError_message : string)
    (output : jsstring) :
  length (parseJsonlOutput JSON_parse TypeError_message output).1
    + length (parseJsonlOutput JSON_parse TypeError_message output).2
  = length (List.filter (fun l => negb (is_blank l)) (split output))
  /\ (parseJsonlOutput JSON_parse TypeError_message output).2 `sublist_of` split output
  /\ Forall (fun l => is_blank l = false)
       (parseJsonlOutput JSON_parse TypeError_message output).2
  /\ Forall (fun m => msg_raw m <> JNull)
       (parseJsonlOutput JSON_parse TypeError_message output).1.
Proof.
  rewrite parseJsonlOutput_lines. cbn [fst snd].
  split; [apply line_accounting|]. split; [apply failures_sublist|].
  split; [apply failures_not_blank|].
  induction (split output) as [|l ls IH]; [by constructor|].
  cbn [map]. rewrite successes_cons.
  destruct (parseJsonlLine JSON_parse TypeError_message l) as [m|raw e] eqn:E; [|done].
  constructor; [|done]. by apply parseJsonlLine_success in E as (_ & _ & ?).
Qed.


(** X4.  What [getState] shows after a [push] or a [flush] is what it showed
    before, followed by what the returned results carry: the messages of
    the successful ones, the raw text of the failed ones that are not
    blank. *)
Theorem state_grows_by_results
    (JSON_parse : jsstring -> string + json) (TypeError_message : string)
    (chunk : jsstring) (p : StreamingParser) :
  getState (push JSON_parse TypeError_message chunk p).2
  = ((getState p).1 ++ successes (push JSON_parse TypeError_message chunk p).1,
     (getState p).2 ++ failures (push JSON_parse TypeError_message chunk p).1)
  /\ getState (flush JSON_parse TypeError_message p).2
     = ((getState p).1 ++ successes (flush JSON_parse TypeError_message p).1,
        (getState p).2 ++ failures (flush JSON_parse TypeError_message p).1).
Proof.
  split.
  - unfold push. rewrite push_loop_lines. cbn [fst snd buffer messages fallback app].
    unfold getState. cbn [messages fallback]. by rewrite fold_collect.
  - unfold flush, getState.
    destruct (negb (truthy (trim (buffer p)))); cbn [fst snd messages fallback].
    + by rewrite !app_nil_r.
    + rewrite successes_cons, failures_cons.
      destruct (parseJsonlLine JSON_parse TypeError_message (buffer p)) as [m|raw e];
        cbn [collect fst snd].
      * change (successes []) with (@nil KimiJsonlMessage).
        change (failures []) with (@nil jsstring). by rewrite app_nil_r.
      * change (successes []) with (@nil KimiJsonlMessage).
        change (failures []) with (@nil jsstring).
        destruct (truthy (trim raw)); cbn [fst snd]; by rewrite ?app_nil_r.
Qed.

(** X5.  [flush] leaves the buffer empty and returns at most one result, so a
    second [flush] returns nothing and changes nothing. *)
Theorem flush_twice
    (JSON_parse : jsstring -> string + json) (TypeError_message : string)
    (p : StreamingParser) :
  buffer (flush JSON_parse TypeError_message p).2 = []
  /\ length (flush JSON_parse TypeError_message p).1 <= 1
  /\ flush JSON_parse TypeError_message (flush JSON_parse TypeError_message p).2
     = ([], (flush JSON_parse TypeError_message p).2).
Proof.
  unfold flush.
  destruct (negb (truthy (trim (buffer p)))); cbn [fst snd buffer length];
    (split; [done|]); (split; [lia|]); done.
Qed.

End KimiParsers.

(** ** The Kimi plugin: display events and the output callbacks *)
Module KimiDisplay.
Import Js Kimi KimiPlugin KimiResults JsFacts KimiSpec KimiParsers.

Lemma fold_append {A B} (f : A -> list B) (ls : list A) (acc : list B) :
  fold_left (fun all x => all ++ f x) ls acc = acc ++ concat (map f ls).
Proof.
  revert acc. induction ls as [|l ls IH]; intros acc; cbn [fold_left map concat].
  - by rewrite app_nil_r.
  - by rewrite IH, app_assoc.
Qed.

Section Display.
Context (JSON_parse : jsstring -> string + json) (TypeError_message : string).

#[local] Abbreviation parseLine := (parseJsonlLine JSON_parse TypeError_message).
#[local] Abbreviation events_of := (parseKimiJsonLine JSON_parse).

Lemma parseKimiOutputToEvents_lines (data : jsstring) :
  parseKimiOutputToEvents JSON_parse data
  = concat (map (fun line => events_of (trim line)) (split data)).
Proof.
  unfold parseKimiOutputToEvents.
  by rewrite (fold_append (fun line => events_of (trim line))).
Qed.

(** A line with display events is a line that [JSON.parse] reads as a
    value other than [null]. *)
Lemma events_parse (jsonLine : jsstring) :
  events_of jsonLine <> [] ->
  truthy jsonLine = true
  /\ exists event, JSON_parse jsonLine = inr event /\ event <> JNull.
Proof.
  unfold parseKimiJsonLine. destruct (truthy jsonLine); [|done].
  cbn [negb orb]. destruct (bool_decide (length jsonLine = 0)); [done|].
  destruct (JSON_parse jsonLine) as [err|event]; [done|].
  intros H. split; [done|]. exists event. split; [done|].
  by destruct event.
Qed.

Lemma events_success (line : jsstring) :
  events_of (trim line) <> [] -> exists m, parseLine line = ParseSuccess m.
Proof.
  intros (Ht & event & Hp & Hn)%events_parse.
  unfold parseJsonlLine. rewrite Ht, Hp. cbn [negb].
  destruct event; try done; by eexists.
Qed.

Lemma for_blocks_throws (body : json -> option (list AgentDisplayEvent))
    (blocks : list json) (block : json) :
  block ∈ blocks -> body block = None -> for_blocks body blocks = None.
Proof.
  intros Hin Hb. induction blocks as [|b blocks IH]; [by apply elem_of_nil in Hin|].
  cbn [for_blocks]. apply elem_of_cons in Hin as [<-|Hin]; [by rewrite Hb|].
  rewrite (IH Hin). by destruct (body b).
Qed.

Lemma jsonl_loop {Segment : Type} (ls : list jsstring) (calls : list (@CallbackCall Segment)) :
  fold_left
    (fun calls line =>
       let trimmed := trim line in
       if negb (truthy trimmed) then calls
       else match JSON_parse trimmed with
            | inr rawJson => calls ++ [CallJsonlMessage rawJson]
            | inl _ => calls
            end)
    ls calls
  = calls ++ concat (map (line_calls JSON_parse) ls).
Proof.
  revert calls. induction ls as [|l ls IH]; intros calls; cbn [fold_left map concat].
  - by rewrite app_nil_r.
  - rewrite IH. unfold line_calls at 2. cbv zeta.
    destruct (negb (truthy (trim l))); [done|].
    destruct (JSON_parse (trim l)); [done|]. by rewrite <- app_assoc.
Qed.

Lemma line_calls_messages {Segment : Type} (line : jsstring) :
  List.filter not_null (jsonl_values (@line_calls JSON_parse Segment line))
  = map msg_raw (successes [parseLine line]).
Proof.
  unfold line_calls, parseJsonlLine.
  destruct (negb (truthy (trim line))); [done|].
  destruct (JSON_parse (trim line)) as [err|[]]; done.
Qed.

Lemma not_json_quiet {Segment : Type} (line : jsstring) :
  not_json JSON_parse line ->
  @line_calls JSON_parse Segment line = [] /\ events_of (trim line) = [].
Proof.
  unfold not_json, is_blank, line_calls, parseKimiJsonLine.
  intros [Hb|[err He]].
  - rewrite Hb. apply negb_true_iff in Hb.
    assert (Ht : truthy (trim (trim line)) = false).
    { destruct (trim line); [done|discriminate]. }
    destruct (trim line); [done|discriminate].
  - rewrite He. split; [by destruct (negb (truthy (trim line)))|].
    by destruct (negb (truthy (trim line)) || bool_decide (length (trim line) = 0)).
Qed.

End Display.

Lemma jsonl_values_app {Segment : Type} (c1 c2 : list (@CallbackCall Segment)) :
  jsonl_values (c1 ++ c2) = jsonl_values c1 ++ jsonl_values c2.
Proof. apply omap_app. Qed.

(** X6.  The display events of an output are those of its lines, in order:
    for two outputs joined by a line feed, those of the first followed by
    those of the second. *)
Theorem parseKimiOutputToEvents_app_LF
    (JSON_parse : jsstring -> string + json) (a b : jsstring) :
  parseKimiOutputToEvents JSON_parse (a ++ LF :: b)
  = parseKimiOutputToEvents JSON_parse a ++ parseKimiOutputToEvents JSON_parse b.
Proof.
  rewrite !parseKimiOutputToEvents_lines, split_app_LF, map_app.
  apply concat_app.
Qed.

(** X7.  Display events only come from lines that [parseJsonlOutput] turns
    into messages: an output has at least as many messages as it has
    lines with a display event. *)
Theorem display_events_come_from_messages
    (JSON_parse : jsstring -> string + json) (TypeError_message : string)
    (data : jsstring) :
  length (List.filter
            (fun line => (0 <? length (parseKimiJsonLine JSON_parse (trim line)))%nat)
            (split data))
  <= length (parseJsonlOutput JSON_parse TypeError_message data).1.
Proof.
  rewrite parseJsonlOutput_lines. cbn [fst].
  induction (split data) as [|l ls IH]; [done|].
  cbn [List.filter map]. rewrite successes_cons.
  destruct (0 <? length (parseKimiJsonLine JSON_parse (trim l)))%nat eqn:E.
  - destruct (events_success JSON_parse TypeError_message l) as [m ->].
    + intros H. rewrite H in E. done.
    + cbn [length]. lia.
  - destruct (parseJsonlLine JSON_parse TypeError_message l); cbn [length]; lia.
Qed.

(** X8.  A [null] among the content blocks of an assistant message makes the
    whole line give no display events, those of the blocks before it
    included: reading its [type] throws, and the [catch] returns [[]]. *)
Theorem null_block_discards_the_line
    (JSON_parse : jsstring -> string + json) (jsonLine : jsstring)
    (event message : json) (blocks : list json) :
  JSON_parse jsonLine = inr event ->
  is_literal (get event "type") "assistant" = true ->
  get event "message" = Some message ->
  get message "content" = Some (JArray blocks) ->
  JNull ∈ blocks ->
  parseKimiJsonLine JSON_parse jsonLine = [].
Proof.
  intros Hp Ht Hm Hc Hn. unfold parseKimiJsonLine.
  destruct (negb (truthy jsonLine) || bool_decide (length jsonLine = 0)); [done|].
  rewrite Hp. destruct event; try done.
  unfold display_events. rewrite Ht, Hm.
  assert (Hv : truthy_value (Some message) = true).
  { destruct message; try done. }
  rewrite Hv. cbn [andb get_opt mbind option_bind]. rewrite Hc.
  by rewrite (for_blocks_throws assistant_block blocks JNull).
Qed.

Lemma null_block_discards_the_line_witness :
  sample_JSON_parse sample_null_block_line = inr sample_null_block_event
  /\ parseKimiJsonLine sample_JSON_parse sample_null_block_line = [].
Proof.
  split; [by vm_compute|].
  apply (null_block_discards_the_line sample_JSON_parse sample_null_block_line
           sample_null_block_event
           (JObject [(js "content",
                      JArray [JObject [(js "type", JString (js "text"));
                                       (js "text", JString (js "hi"))];
                              JNull])])
           [JObject [(js "type", JString (js "text"));
                     (js "text", JString (js "hi"))];
            JNull]).
  - by vm_compute.
  - by vm_compute.
  - by vm_compute.
  - by vm_compute.
  - apply elem_of_cons; right. apply elem_of_cons; by left.
Defined.

(** X9.  In stream-json mode, the values that the wrapped [onStdout] hands to
    [onJsonlMessage], [null] set aside, are the raw values of the messages
    that [parseJsonlOutput] finds in the same output. *)
Theorem onJsonlMessage_receives_the_raw_messages
    (JSON_parse : jsstring -> string + json) (TypeError_message : string)
    {Segment : Type}
    (processAgentEvents : list AgentDisplayEvent -> jsstring)
    (processAgentEventsToSegments : list AgentDisplayEvent -> list Segment)
    (options : AgentExecuteOptions) (data : jsstring) :
  onJsonlMessage options = true ->
  List.filter not_null
    (jsonl_values
       (wrapped_onStdout JSON_parse processAgentEvents processAgentEventsToSegments
          options data))
  = map msg_raw (parseJsonlOutput JSON_parse TypeError_message data).1.
Proof.
  intros Ho. unfold wrapped_onStdout. rewrite Ho. cbv zeta.
  rewrite (jsonl_loop JSON_parse), app_nil_l, jsonl_values_app.
  match goal with |- context [jsonl_values (if ?c then ?x else [])] =>
    assert (Hd : jsonl_values (if c then x else []) = []) end.
  { destruct (0 <? length (parseKimiOutputToEvents JSON_parse data))%nat; [|done].
    destruct (onStdoutSegments options), (onStdout options);
      repeat match goal with |- context [if ?c then _ else _] => destruct c end;
      done. }
  rewrite Hd, app_nil_r, parseJsonlOutput_lines. cbn [fst].
  induction (split data) as [|l ls IH]; [done|].
  cbn [map concat]. rewrite jsonl_values_app, List.filter_app, IH.
  rewrite (line_calls_messages JSON_parse TypeError_message l).
  rewrite <- map_app, <- successes_app. done.
Qed.

Lemma onJsonlMessage_receives_the_raw_messages_witness :
  onJsonlMessage {| subagentTracing := Some true; flags := None; onStdout := true;
                    onStdoutSegments := false; onJsonlMessage := true |} = true
  /\ List.filter not_null
       (jsonl_values
          (wrapped_onStdout sample_JSON_parse (fun _ => js "shown")
             (fun _ => @nil unit)
             {| subagentTracing := Some true; flags := None; onStdout := true;
                onStdoutSegments := false; onJsonlMessage := true |}
             (sample_system_line ++ LF :: js "null")))
     = map msg_raw
         (parseJsonlOutput sample_JSON_parse "TypeError"
            (sample_system_line ++ LF :: js "null")).1.
Proof.
  split; [done|].
  by apply (onJsonlMessage_receives_the_raw_messages sample_JSON_parse "TypeError").
Defined.

Lemma wrapped_onStdout_plain_text
    (JSON_parse : jsstring -> string + json) {Segment : Type}
    (processAgentEvents : list AgentDisplayEvent -> jsstring)
    (processAgentEventsToSegments : list AgentDisplayEvent -> list Segment)
    (options : AgentExecuteOptions) (data : jsstring) :
  Forall (not_json JSON_parse) (split data) ->
  wrapped_onStdout JSON_parse processAgentEvents processAgentEventsToSegments
    options data = [].
Proof.
  intros H. unfold wrapped_onStdout. cbv zeta.
  assert (He : parseKimiOutputToEvents JSON_parse data = []).
  { rewrite parseKimiOutputToEvents_lines.
    induction H as [|l ls Hl _ IH]; [done|].
    cbn [map concat]. rewrite IH.
    by destruct (not_json_quiet JSON_parse (Segment := Segment) l Hl) as [_ ->]. }
  rewrite He. cbn [length Nat.ltb Nat.leb]. rewrite app_nil_r.
  destruct (onJsonlMessage options).
  - rewrite (jsonl_loop JSON_parse). cbn [app].
    induction H as [|l ls Hl _ IH]; [done|].
    cbn [map concat]. rewrite IH.
    by destruct (not_json_quiet JSON_parse (Segment := Segment) l Hl) as [-> _].
  - clear. generalize (@nil (@CallbackCall Segment)).
    induction (split data) as [|l ls IH]; intros acc; [done|].
    cbn [fold_left]. rewrite IH. by destruct (negb (truthy (trim l))).
Qed.

(** X10.  In stream-json mode [execute] never passes output on as it
    comes: when a callback is given, the [onStdout] it hands to the base
    class makes no call at all for output in which every line is blank
    or is not JSON - plain text is dropped. *)
Theorem plain_text_output_is_dropped
    (JSON_parse : jsstring -> string + json) {Segment : Type}
    (processAgentEvents : list AgentDisplayEvent -> jsstring)
    (processAgentEventsToSegments : list AgentDisplayEvent -> list Segment)
    (options : AgentExecuteOptions) (p : KimiAgentPlugin) (data : jsstring) :
  useStreamJson (Some options) p = true ->
  onStdout options || onStdoutSegments options || onJsonlMessage options = true ->
  Forall (not_json JSON_parse) (split data) ->
  exists handler,
    execute_onStdout JSON_parse processAgentEvents processAgentEventsToSegments
      (Some options) p = Some handler
    /\ handler data = [].
Proof.
  intros Hs Hc Hd. unfold execute_onStdout. rewrite Hs, Hc. cbn [andb].
  eexists. split; [reflexivity|]. by apply wrapped_onStdout_plain_text.
Qed.

Lemma plain_text_output_is_dropped_witness :
  useStreamJson
    (Some {| subagentTracing := None; flags := None; onStdout := true;
             onStdoutSegments := false; onJsonlMessage := false |})
    (initialize (JObject [(js "outputMode", JString (js "stream-json"))])
       new_KimiAgentPlugin) = true
  /\ Forall (not_json sample_JSON_parse) (split (js "Thinking..." ++ LF :: js ""))
  /\ exists handler,
       execute_onStdout sample_JSON_parse (fun _ => js "shown") (fun _ => @nil unit)
         (Some {| subagentTracing := None; flags := None; onStdout := true;
                  onStdoutSegments := false; onJsonlMessage := false |})
         (initialize (JObject [(js "outputMode", JString (js "stream-json"))])
            new_KimiAgentPlugin) = Some handler
       /\ handler (js "Thinking..." ++ LF :: js "") = [].
Proof.
  assert (H : Forall (not_json sample_JSON_parse)
                (split (js "Thinking..." ++ LF :: js ""))).
  { change (split (js "Thinking..." ++ LF :: js "")) with [js "Thinking..."; []].
    constructor; [right; eexists; by vm_compute|].
    constructor; [by left|constructor]. }
  split; [by vm_compute|]. split; [exact H|].
  by apply (plain_text_output_is_dropped sample_JSON_parse).
Defined.

End KimiDisplay.

(** ** The Kimi plugin: configuration, validation and arguments *)
Module KimiConfig.
Import Js Kimi KimiPlugin.

Lemma init_outputMode_fields (config : json) (p : KimiAgentPlugin) :
  outputMode (init_outputMode config p)
  = match get config "outputMode" with
    | Some (JString s) =>
        if bool_decide (s = js "text") then text
        else if bool_decide (s = js "stream-json") then stream_json
        else outputMode p
    | _ => outputMode p
    end
  /\ model (init_outputMode config p) = model p
  /\ thinking (init_outputMode config p) = thinking p
  /\ defaultTimeout (init_outputMode config p) = defaultTimeout p.
Proof. unfold init_outputMode. repeat case_match; done. Qed.

Lemma init_model_fields (config : json) (p : KimiAgentPlugin) :
  outputMode (init_model config p) = outputMode p
  /\ model (init_model config p)
     = match get config "model" with
       | Some (JString s) => if (0 <? length s)%nat then Some s else model p
       | _ => model p
       end
  /\ thinking (init_model config p) = thinking p
  /\ defaultTimeout (init_model config p) = defaultTimeout p.
Proof. unfold init_model. repeat case_match; done. Qed.

Lemma init_thinking_fields (config : json) (p : KimiAgentPlugin) :
  outputMode (init_thinking config p) = outputMode p
  /\ model (init_thinking config p) = model p
  /\ thinking (init_thinking config p)
     = match get config "thinking" with
       | Some (JBool b) => Some b
       | _ => thinking p
       end
  /\ defaultTimeout (init_thinking config p) = defaultTimeout p.
Proof. unfold init_thinking. repeat case_match; done. Qed.

Lemma init_timeout_fields (config : json) (p : KimiAgentPlugin) :
  outputMode (init_timeout config p) = outputMode p
  /\ model (init_timeout config p) = model p
  /\ thinking (init_timeout config p) = thinking p
  /\ defaultTimeout (init_timeout config p)
     = match get config "timeout" with
       | Some (JNumber n) => if (0 <? n)%Z then n else defaultTimeout p
       | _ => defaultTimeout p
       end.
Proof. unfold init_timeout. repeat case_match; done. Qed.

(** What [initialize] leaves in each field. *)
Lemma initialize_fields (config : json) (p : KimiAgentPlugin) :
  outputMode (initialize config p)
  = match get config "outputMode" with
    | Some (JString s) =>
        if bool_decide (s = js "text") then text
        else if bool_decide (s = js "stream-json") then stream_json
        else outputMode p
    | _ => outputMode p
    end
  /\ model (initialize config p)
     = match get config "model" with
       | Some (JString s) => if (0 <? length s)%nat then Some s else model p
       | _ => model p
       end
  /\ thinking (initialize config p)
     = match get config "thinking" with
       | Some (JBool b) => Some b
       | _ => thinking p
       end
  /\ defaultTimeout (initialize config p)
     = match get config "timeout" with
       | Some (JNumber n) => if (0 <? n)%Z then n else defaultTimeout p
       | _ => defaultTimeout p
       end.
Proof.
  unfold initialize.
  destruct (init_timeout_fields config
              (init_thinking config (init_model config (init_outputMode config p))))
    as (-> & -> & -> & ->).
  destruct (init_thinking_fields config (init_model config (init_outputMode config p)))
    as (-> & -> & -> & ->).
  destruct (init_model_fields config (init_outputMode config p)) as (-> & -> & -> & ->).
  destruct (init_outputMode_fields config p) as (-> & -> & -> & ->).
  done.
Qed.

Lemma plugin_eq (p q : KimiAgentPlugin) :
  outputMode p = outputMode q -> model p = model q -> thinking p = thinking q ->
  defaultTimeout p = defaultTimeout q -> p = q.
Proof. destruct p, q; cbn; congruence. Qed.

(** X11.  [initialize] is idempotent: a second call with the same
    configuration changes nothing. *)
Theorem initialize_idempotent (config : json) (p : KimiAgentPlugin) :
  initialize config (initialize config p) = initialize config p.
Proof.
  destruct (initialize_fields config (initialize config p)) as (Ho & Hm & Ht & Hd).
  destruct (initialize_fields config p) as (Ho' & Hm' & Ht' & Hd').
  apply plugin_eq.
  - rewrite Ho, Ho'. clear.
    destruct (get config "outputMode") as [[| | |s| |]|]; try done.
    by repeat destruct (bool_decide _).
  - rewrite Hm, Hm'. clear.
    destruct (get config "model") as [[| | |s| |]|]; try done.
    by destruct (0 <? length s)%nat.
  - rewrite Ht, Ht'. clear.
    by destruct (get config "thinking") as [[| | | | |]|].
  - rewrite Hd, Hd'. clear.
    destruct (get config "timeout") as [[| |n| | |]|]; try done.
    by destruct (0 <? n)%Z.
Qed.

(** X12.  [initialize] stores neither an empty model name nor a timeout
    that is not positive, whatever the configuration holds and whatever
    the base class does with it: a model name that is empty after
    [initialize], or a timeout that is not positive, is the one that
    [super.initialize] left. *)
Theorem initialize_keeps_fields_sane
    (super_initialize : json -> KimiAgentPlugin -> Kimi.Outcome unit * KimiAgentPlugin)
    (config : json) (p : KimiAgentPlugin) :
  let base := (super_initialize config p).2 in
  let after := (initialize_with_base super_initialize config p).2 in
  (model after = Some [] -> model base = Some [])
  /\ ((defaultTimeout after <= 0)%Z -> defaultTimeout after = defaultTimeout base).
Proof.
  intros base after. subst base after. unfold initialize_with_base.
  destruct (super_initialize config p) as [[[]|reason|] p']; cbn [snd]; [|done..].
  destruct (initialize_fields config p') as (_ & -> & _ & ->). split.
  - destruct (get config "model") as [[| | |s| |]|]; try done.
    destruct s; [done|]. cbn. done.
  - destruct (get config "timeout") as [[| |n| | |]|]; try done.
    destruct (0 <? n)%Z eqn:E; [|done]. apply Z.ltb_lt in E. lia.
Qed.

Lemma find_none_Forall {A} (f : A -> bool) (l : list A) :
  List.find f l = None <-> Forall (fun x => f x = false) l.
Proof.
  induction l as [|x l IH]; cbn [List.find].
  - split; [by constructor|done].
  - destruct (f x) eqn:E.
    + split; [done|]. intros H. apply Forall_cons in H as [H _]. congruence.
    + rewrite IH. split; [by constructor|]. by intros [_ ?]%Forall_cons.
Qed.

(** X13.  The prompt cannot change the options: the arguments are a front part
    that does not depend on the prompt - [--print], [--output-format] and
    its value, then at most three more - followed by [--prompt] and the
    prompt itself, unchanged, as the last argument. *)
Theorem buildArgs_prompt_is_last
    (options : option AgentExecuteOptions) (p : KimiAgentPlugin) :
  exists front : list jsstring,
    (forall prompt, buildArgs prompt options p = front ++ [js "--prompt"; prompt])
    /\ take 2 front = [js "--print"; js "--output-format"]
    /\ 3 <= length front <= 6.
Proof.
  unfold buildArgs. eexists. split; [intros prompt; reflexivity|].
  destruct (useStreamJson options p);
    destruct (match (options ≫= flags) ≫= _ with Some _ => None | None => model p end)
      as [m|]; try destruct (truthy m);
    destruct (thinking p) as [[]|]; cbn [app take length]; (split; [done|lia]).
Qed.

(** X14.  [--model] is passed exactly when the plugin has a model and the
    caller's flags carry none that starts with [--model]; it then sits
    right after the output format, followed by the configured model. *)
Theorem buildArgs_model_flag
    (prompt : jsstring) (options : option AgentExecuteOptions) (p : KimiAgentPlugin) :
  (buildArgs prompt options p !! 3 = Some (js "--model")
   <-> (exists m, model p = Some m /\ m <> [])
       /\ (forall fl, options ≫= flags = Some fl ->
           Forall (fun f => startsWith f (js "--model") = false) fl))
  /\ (buildArgs prompt options p !! 3 = Some (js "--model") ->
      buildArgs prompt options p !! 4 = model p).
Proof.
  unfold buildArgs.
  set (fmt := if useStreamJson options p
              then [js "--print"] ++ [js "--output-format"; js "stream-json"]
              else [js "--print"] ++ [js "--output-format"; js "text"]).
  assert (Hf : exists x, fmt = [js "--print"; js "--output-format"; x]).
  { unfold fmt. destruct (useStreamJson options p); by eexists. }
  destruct Hf as [x ->].
  destruct (options ≫= flags) as [fl|] eqn:Hfl; cbn [mbind option_bind].
  - destruct (List.find (fun f => startsWith f (js "--model")) fl) as [f|] eqn:Hfind.
    + split.
      * split.
        { destruct (thinking p) as [[]|]; cbn; intros [= H]; by vm_compute in H. }
        intros [_ H]. specialize (H fl eq_refl).
        apply find_none_Forall in H. congruence.
      * destruct (thinking p) as [[]|]; cbn; intros [= H]; by vm_compute in H.
    + apply find_none_Forall in Hfind.
      destruct (model p) as [[|c m]|] eqn:Hm; cbn [truthy].
      * split.
        { split.
          - destruct (thinking p) as [[]|]; cbn; intros [= H]; by vm_compute in H.
          - intros [(m & [= <-] & ?) _]. done. }
        destruct (thinking p) as [[]|]; cbn; intros [= H]; by vm_compute in H.
      * split; [|by destruct (thinking p) as [[]|]].
        split; [|by destruct (thinking p) as [[]|]].
        intros _. split; [by eexists|]. by intros fl' [= <-].
      * split.
        { split.
          - destruct (thinking p) as [[]|]; cbn; intros [= H]; by vm_compute in H.
          - by intros [(m & ? & ?) _]. }
        destruct (thinking p) as [[]|]; cbn; intros [= H]; by vm_compute in H.
  - destruct (model p) as [[|c m]|] eqn:Hm; cbn [truthy].
    + split.
      { split.
        - destruct (thinking p) as [[]|]; cbn; intros [= H]; by vm_compute in H.
        - intros [(m & [= <-] & ?) _]. done. }
      destruct (thinking p) as [[]|]; cbn; intros [= H]; by vm_compute in H.
    + split; [|by destruct (thinking p) as [[]|]].
      split; [|by destruct (thinking p) as [[]|]].
      intros _. split; [by eexists|]. done.
    + split.
      { split.
        - destruct (thinking p) as [[]|]; cbn; intros [= H]; by vm_compute in H.
        - by intros [(m & ? & ?) _]. }
      destruct (thinking p) as [[]|]; cbn; intros [= H]; by vm_compute in H.
Qed.

Lemma validateModel_None (s : jsstring) :
  validateModel (Some s) = None <-> s = [] \/ s = js "kimi-for-coding".
Proof.
  unfold validateModel, is_valid_model, VALID_KIMI_MODELS.
  destruct (bool_decide_reflect (s = js "")) as [->|Hs]; [by split; [left|]|].
  destruct (bool_decide_reflect (s ∈ [js ""; js "kimi-for-coding"])) as [Hin|Hin];
    cbn [negb].
  - split; [|done]. intros _.
    apply elem_of_cons in Hin as [->|Hin]; [by left|].
    apply list_elem_of_singleton in Hin. by right.
  - split; [done|]. intros [-> | ->]; [done|].
    exfalso. apply Hin. apply elem_of_cons. right. by apply list_elem_of_singleton.
Qed.

Lemma is_valid_model_validateModel (v : json) :
  (is_empty_string v = true \/ is_valid_model v = true)
  <-> exists s, v = JString s /\ validateModel (Some s) = None.
Proof.
  split.
  - intros [H|H].
    + destruct v as [| | |[|]| |]; try done. exists []. done.
    + destruct v as [| | |s| |]; try done. exists s. split; [done|].
      unfold validateModel. rewrite H. by destruct (bool_decide (s = js "")).
  - intros (s & -> & H). apply validateModel_None in H as [-> | ->].
    + by left.
    + right. by vm_compute.
Qed.

(** X15.  [validateSetup] accepts the answers exactly when the output mode, if
    given, is the empty string or reads (through [String]) as [text] or
    [stream-json], and the model, if given, is a string that
    [validateModel] accepts: the empty string or [kimi-for-coding]. *)
Theorem validateSetup_accepts
    (Number_toString : Z -> jsstring) (answers : json) :
  (validateSetup Number_toString answers = None
   <-> (forall v, get answers "outputMode" = Some v ->
          v = JString []
          \/ String_ Number_toString v = js "text"
          \/ String_ Number_toString v = js "stream-json")
       /\ (forall v, get answers "model" = Some v ->
           exists s, v = JString s /\ validateModel (Some s) = None))
  /\ (forall s, validateModel (Some s) = None <-> s = [] \/ s = js "kimi-for-coding").
Proof.
  split; [|apply validateModel_None].
  unfold validateSetup.
  assert (Hmode : forall v,
    negb (is_empty_string v)
    && negb (bool_decide (String_ Number_toString v ∈ [js "text"; js "stream-json"]))
    = false
    <-> v = JString [] \/ String_ Number_toString v = js "text"
        \/ String_ Number_toString v = js "stream-json").
  { intros v. rewrite andb_false_iff, !negb_false_iff, bool_decide_eq_true.
    rewrite elem_of_cons, list_elem_of_singleton.
    assert (is_empty_string v = true <-> v = JString []) as ->; [|done].
    destruct v as [| | |[|]| |]; by split. }
  assert (Hmodel : forall v,
    negb (is_empty_string v) && negb (is_valid_model v) = false
    <-> exists s, v = JString s /\ validateModel (Some s) = None).
  { intros v. rewrite andb_false_iff, !negb_false_iff.
    apply is_valid_model_validateModel. }
  destruct (get answers "outputMode") as [vo|].
  - destruct (negb (is_empty_string vo) && _) eqn:Eo.
    + split; [done|]. intros [H _]. specialize (H vo eq_refl).
      apply Hmode in H. congruence.
    + apply Hmode in Eo.
      destruct (get answers "model") as [vm|].
      * destruct (negb (is_empty_string vm) && _) eqn:Em.
        { split; [done|]. intros [_ H]. specialize (H vm eq_refl).
          apply Hmodel in H. congruence. }
        apply Hmodel in Em. split; [|done]. intros _.
        split; [by intros v [= <-]|by intros v [= <-]].
      * split; [|done]. intros _. split; [by intros v [= <-]|done].
  - destruct (get answers "model") as [vm|].
    + destruct (negb (is_empty_string vm) && _) eqn:Em.
      * split; [done|]. intros [_ H]. specialize (H vm eq_refl).
        apply Hmodel in H. congruence.
      * apply Hmodel in Em. split; [|done]. intros _.
        split; [done|by intros v [= <-]].
    + split; [|done]. intros _. by split.
Qed.

End KimiConfig.

(** ** More on the remote client *)
Module RemoteMore.
Import Js Remote RemoteStates RemoteFacts RemoteFrames RemoteRequests.

(** X16.  Tab ids do not collide: two remote tabs have the same id exactly when
    they have the same alias, and no remote tab has the id of the local
    tab. *)
Theorem tab_ids_do_not_collide (a h a' h' : jsstring) (p p' : Z) :
  (RemoteTabs.id (RemoteTabs.createRemoteTab a h p)
   = RemoteTabs.id (RemoteTabs.createRemoteTab a' h' p') <-> a = a')
  /\ RemoteTabs.id (RemoteTabs.createRemoteTab a h p)
     <> RemoteTabs.id RemoteTabs.createLocalTab.
Proof.
  split.
  - cbn. split; [|by intros ->]. by intros H%app_inv_head.
  - cbn. change (js "remote-") with [114; 101; 109; 111; 116; 101; 45]%N.
    change (js "local") with [108; 111; 99; 97; 108]%N. done.
Qed.

(** X17.  The heartbeat timer does not leak: in every state a client can reach,
    the only armed interval is the one the client holds, so at most one is
    armed, and a tick of any other handle does nothing. *)
Theorem at_most_one_ping_interval (tok : jsstring) (trace : list Event) :
  (forall h, h ∈ intervals (run trace (new_RemoteClient tok))
             <-> pingInterval (client (run trace (new_RemoteClient tok))) = Some h)
  /\ size (intervals (run trace (new_RemoteClient tok))) <= 1
  /\ (forall h id timestamp,
        pingInterval (client (run trace (new_RemoteClient tok))) <> Some h ->
        step (run trace (new_RemoteClient tok)) (PingTick h id timestamp)
        = run trace (new_RemoteClient tok)).
Proof.
  pose proof (reachable_ping_inv tok trace) as HP. unfold PingInv in HP.
  set (w := run trace (new_RemoteClient tok)) in *.
  assert (Hin : forall h, h ∈ intervals w <-> pingInterval (client w) = Some h).
  { intros h. rewrite HP. destruct (pingInterval (client w)) as [h'|].
    - rewrite elem_of_singleton. split; congruence.
    - split; [set_solver|done]. }
  split; [done|]. split.
  - rewrite HP. destruct (pingInterval (client w)).
    + by rewrite size_singleton.
    + rewrite size_empty. lia.
  - intros h id ts Hne. cbn [step]. unfold ping.
    rewrite bool_decide_eq_false_2; [done|]. by rewrite Hin.
Qed.

Lemma cleanup_cleanup (w : World) : cleanup (cleanup w) = cleanup w.
Proof.
  rewrite (cleanup_eq (cleanup w)). rewrite cleanup_eq. cbv zeta.
  cbn [client ws pingInterval pendingRequests token _status sockets wire handled
       settled callers timeouts intervals connectSettled nextRequest nextInterval
       nextConnect].
  rewrite map_to_list_empty. cbn [map fold_left]. by rewrite app_nil_r.
Qed.

(** X18.  [disconnect()] twice: the second call finds nothing to clean up and
    only reports ['disconnected'] to the event handler once more. *)
Theorem disconnect_twice (w : World) :
  disconnect (disconnect w) = eventHandler (EvDisconnected None) (disconnect w)
  /\ client (disconnect w)
     = {| ws := None; token := token (client w); pingInterval := None;
          _status := disconnected; pendingRequests := ∅; _subscribed := false |}.
Proof.
  unfold disconnect.
  rewrite cleanup_eventHandler, cleanup_set_status, cleanup_cleanup.
  rewrite cleanup_eq. cbv zeta. by world w.
Qed.

Lemma status_of_view (w w' : World) :
  sockets_view w' = sockets_view w -> _status (client w') = _status (client w).
Proof. unfold sockets_view. by intros [= -> _ _ _]. Qed.

(** The frame matches no pending request. *)
Lemma handleMessage_unmatched (message : json) (k : nat) (w : World) :
  (forall id, get message "id" = Some (JString id) ->
              pendingRequests (client w) !! id = None) ->
  handleMessage message k w
  = let type := get message "type" in
    if is_literal type "auth_response" then
      if truthy_value (get message "success") then
        let w := with_client (set_status connected) w in
        let w := eventHandler EvConnected w in
        let w := startPingInterval w in
        set_connectSettled (connectSettled w ++ [(k, None)]) w
      else
        let w := with_client (set_status disconnected) w in
        let error := nullish_or (get message "error") (str "Authentication failed") in
        let w := eventHandler (EvDisconnected (Some error)) w in
        let w := cleanup w in
        set_connectSettled (connectSettled w ++ [(k, Some error)]) w
    else if is_literal type "pong" then w
    else if is_literal type "engine_event" then
      eventHandler (EvEngineEvent (get message "event")) w
    else eventHandler (EvMessage message) w.
Proof.
  intros H. unfold handleMessage.
  destruct (get message "id") as [[| | |id| |]|]; try done.
  by rewrite (H id eq_refl).
Qed.

(** The status after a frame was handled. *)
Lemma handleMessage_status (message : json) (k : nat) (w : World) :
  _status (client (handleMessage message k w)) = connected ->
  _status (client w) <> connected ->
  (forall id, get message "id" = Some (JString id) ->
              pendingRequests (client w) !! id = None)
  /\ is_literal (get message "type") "auth_response" = true
  /\ truthy_value (get message "success") = true.
Proof.
  intros H Hn.
  assert (Hcases :
    (exists id pr, get message "id" = Some (JString id)
                   /\ pendingRequests (client w) !! id = Some pr)
    \/ (forall id, get message "id" = Some (JString id) ->
                   pendingRequests (client w) !! id = None)).
  { destruct (get message "id") as [[| | |x| |]|]; try (by right).
    destruct (pendingRequests (client w) !! x) as [pr|] eqn:Hp.
    - left. by exists x, pr.
    - right. by intros ? [= <-]. }
  destruct Hcases as [(x & pr & Hid & Hp)|Hu].
  - exfalso. apply Hn. rewrite <- H. symmetry.
    unfold handleMessage. rewrite Hid, Hp.
    apply status_of_view, settle_sockets_view.
  - rewrite (handleMessage_unmatched _ _ _ Hu) in H. cbv zeta in H.
    destruct (is_literal (get message "type") "auth_response").
    + destruct (truthy_value (get message "success")); [done|].
      exfalso. rewrite cleanup_eventHandler, cleanup_set_status, cleanup_eq in H.
      by world w.
    + exfalso. repeat case_match; by world w.
Qed.

(** X19.  The client becomes ['connected'] in one way only: an [auth_response]
    frame with a truthy [success] arrives on its current socket.  The
    event handler is then told ['connected'] and the promise of that
    [connect()] is resolved. *)
Theorem connected_only_by_auth_success
    (tok : jsstring) (trace : list Event) (e : Event) :
  _status (client (run trace (new_RemoteClient tok))) <> connected ->
  _status (client (step (run trace (new_RemoteClient tok)) e)) = connected ->
  exists k message,
    e = SocketMessage k (Some message)
    /\ ws (client (run trace (new_RemoteClient tok))) = Some k
    /\ is_literal (get message "type") "auth_response" = true
    /\ truthy_value (get message "success") = true
    /\ handled (step (run trace (new_RemoteClient tok)) e)
       = handled (run trace (new_RemoteClient tok)) ++ [EvConnected]
    /\ connectSettled (step (run trace (new_RemoteClient tok)) e)
       = connectSettled (run trace (new_RemoteClient tok)) ++ [(k, None)].
Proof.
  pose proof (reachable_sockets_inv tok trace) as HS.
  set (w := run trace (new_RemoteClient tok)) in *. clearbody w.
  intros Hn H. destruct e; cbn [step] in H.
  - exfalso. unfold connect in H.
    destruct (_status (client w)) eqn:Hst; try congruence.
    destruct ctor_error; by world w.
  - exfalso. unfold disconnect in H. rewrite cleanup_eq in H. by world w.
  - exfalso. apply Hn. rewrite <- H. symmetry. apply status_of_view, send_views.
  - exfalso. apply Hn. rewrite <- H. symmetry. unfold call.
    destruct (decide (_status (client w) = connected)); [done|].
    by rewrite request_not_connected by auto.
  - exfalso. apply Hn. rewrite <- H. symmetry.
    destruct (sockets w !! k) as [[[] [] []]|]; try done.
    unfold onopen. etransitivity; [apply status_of_view, authenticate_views|].
    by world w.
  - destruct (sockets w !! k) as [[r h c]|] eqn:Hk; [|done].
    destruct r, h, c; try done.
    destruct parsed as [message|]; [|done].
    assert (E : onmessage k (Some message) w = handleMessage message k w
                \/ onmessage k (Some message) w = w) by (destruct message; auto).
    destruct E as [E|E]; rewrite E in H; [|done].
    destruct (handleMessage_status message k w H Hn) as (Hu & Ht & Hs).
    exists k, message. split; [done|].
    destruct (SocketsInv_current w k _ HS Hk eq_refl) as [Hws _]; [done|].
    split; [done|]. split; [done|]. split; [done|].
    cbn [step]. rewrite Hk, E, handleMessage_unmatched by done. cbv zeta.
    rewrite Ht, Hs. unfold startPingInterval, stopPingInterval. world w.
    by destruct c_ping.
  - exfalso. destruct (sockets w !! k) as [[[] [] []]|]; try done;
      unfold onerror in H; by world w.
  - exfalso. destruct (sockets w !! k) as [[r [] []]|]; try done.
    unfold onclose in H. set (w1 := set_socket _ _ _) in *.
    destruct (_status (client (cleanup w1))) eqn:Hc; [congruence|congruence|].
    rewrite cleanup_status in Hc. apply Hn. rewrite <- Hc. subst w1. by world w.
  - exfalso. apply Hn. rewrite <- H. symmetry.
    apply status_of_view, request_timeout_sockets_view.
  - exfalso. apply Hn. rewrite <- H. symmetry. apply status_of_view, ping_views.
Qed.

Lemma connected_only_by_auth_success_witness :
  _status (client (run sample_opened (new_RemoteClient sample_token))) <> connected
  /\ _status (client (step (run sample_opened (new_RemoteClient sample_token))
                        (SocketMessage 0 (Some sample_auth_ok)))) = connected
  /\ exists k message,
       SocketMessage 0 (Some sample_auth_ok) = SocketMessage k (Some message)
       /\ ws (client (run sample_opened (new_RemoteClient sample_token))) = Some k
       /\ is_literal (get message "type") "auth_response" = true
       /\ truthy_value (get message "success") = true
       /\ handled (step (run sample_opened (new_RemoteClient sample_token))
                     (SocketMessage 0 (Some sample_auth_ok)))
          = handled (run sample_opened (new_RemoteClient sample_token)) ++ [EvConnected]
       /\ connectSettled (step (run sample_opened (new_RemoteClient sample_token))
                            (SocketMessage 0 (Some sample_auth_ok)))
          = connectSettled (run sample_opened (new_RemoteClient sample_token))
            ++ [(k, None)].
Proof.
  split; [by vm_compute|]. split; [by vm_compute|].
  apply (connected_only_by_auth_success sample_token sample_opened
           (SocketMessage 0 (Some sample_auth_ok))); by vm_compute.
Defined.

(** X20.  A failed [auth_response] tears the connection down: the event handler
    is told ['disconnected'] with the server's error (or ['Authentication
    failed'] when it gives none), the promise of [connect()] is rejected
    with it, and the client is left disconnected, without socket,
    heartbeat, pending requests or subscription. *)
Theorem auth_failure_tears_down (w : World) (k : nat) (message : json) :
  sockets w !! k
    = Some {| readyState := OPEN; handlers := true; closeFired := false |} ->
  (forall id, get message "id" = Some (JString id) ->
              pendingRequests (client w) !! id = None) ->
  is_literal (get message "type") "auth_response" = true ->
  truthy_value (get message "success") = false ->
  client (step w (SocketMessage k (Some message)))
  = {| ws := None; token := token (client w); pingInterval := None;
       _status := disconnected; pendingRequests := ∅; _subscribed := false |}
  /\ handled (step w (SocketMessage k (Some message)))
     = handled w ++ [EvDisconnected (Some (auth_error message))]
  /\ connectSettled (step w (SocketMessage k (Some message)))
     = connectSettled w ++ [(k, Some (auth_error message))].
Proof.
  intros Hk Hu Ht Hs. cbn [step]. rewrite Hk.
  assert (E : onmessage k (Some message) w = handleMessage message k w).
  { destruct message; try done. }
  rewrite E, handleMessage_unmatched by done. cbv zeta. rewrite Ht, Hs.
  rewrite cleanup_eventHandler, cleanup_set_status, cleanup_eq. cbv zeta.
  by world w.
Qed.

Lemma auth_failure_tears_down_witness :
  sockets (run sample_opened (new_RemoteClient sample_token)) !! 0
    = Some {| readyState := OPEN; handlers := true; closeFired := false |}
  /\ _status (client (step (run sample_opened (new_RemoteClient sample_token))
                        (SocketMessage 0 (Some sample_auth_failed))))
     = disconnected
  /\ handled (step (run sample_opened (new_RemoteClient sample_token))
                (SocketMessage 0 (Some sample_auth_failed)))
     = [EvConnecting; EvDisconnected (Some (str "Invalid token"))].
Proof.
  destruct (auth_failure_tears_down
              (run sample_opened (new_RemoteClient sample_token)) 0
              sample_auth_failed) as (Hc & Hh & _).
  - by vm_compute.
  - intros id [= <-]. by vm_compute.
  - by vm_compute.
  - by vm_compute.
  - split; [by vm_compute|]. split; [by rewrite Hc|]. rewrite Hh. by vm_compute.
Defined.

Lemma settle_logs (p : nat) (o : Settlement) (w : World) :
  handled (settle p o w) = handled w
  /\ connectSettled (settle p o w) = connectSettled w
  /\ wire (settle p o w) = wire w.
Proof. destruct (settle_shape p o w) as [b ->]. by world w. Qed.

Lemma request_timeout_logs (t : nat) (w : World) :
  handled (request_timeout t w) = handled w
  /\ connectSettled (request_timeout t w) = connectSettled w
  /\ wire (request_timeout t w) = wire w.
Proof.
  unfold request_timeout. destruct (timeouts w !! t) as [[id p]|]; [|done].
  match goal with |- context [settle p ?o ?w1] =>
    destruct (settle_logs p o w1) as (-> & -> & ->) end.
  by world w.
Qed.

(** X21.  A response that arrives after its request has timed out no longer
    reaches the caller, whose promise stays rejected with ['Request
    timeout']: the frame is handed to the event handler as a ['message']
    event (unless it is an [auth_response], [pong] or [engine_event]). *)
Theorem late_response_goes_to_the_event_handler
    (w : World) (k : nat) (id : jsstring) (p : nat) (message : json) :
  Pending id p w ->
  sockets w !! k
    = Some {| readyState := OPEN; handlers := true; closeFired := false |} ->
  get message "id" = Some (JString id) ->
  is_literal (get message "type") "auth_response" = false ->
  is_literal (get message "type") "pong" = false ->
  is_literal (get message "type") "engine_event" = false ->
  handled (run [TimeoutFires p; SocketMessage k (Some message)] w)
  = handled w ++ [EvMessage message]
  /\ settlements p (run [TimeoutFires p; SocketMessage k (Some message)] w)
     = [Rejected (js "Request timeout")].
Proof.
  intros HP Hk Hid Ha Hp He.
  destruct (timeout_settles w id p HP) as (Hs & _ & Hnone).
  cbn [run fold_left]. set (w1 := step w (TimeoutFires p)) in *.
  assert (Hk1 : sockets w1 !! k = sockets w !! k).
  { pose proof (request_timeout_sockets_view p w) as E. unfold sockets_view in E.
    injection E as _ _ E _. subst w1. cbn [step]. by rewrite E. }
  cbn [step]. rewrite Hk1, Hk.
  assert (E : onmessage k (Some message) w1 = handleMessage message k w1).
  { destruct message; try done. }
  rewrite E, handleMessage_unmatched by (intros id' Hid'; congruence).
  cbv zeta. rewrite Ha, Hp, He.
  destruct (request_timeout_logs p w) as (Hh & _ & _).
  split.
  - rewrite <- Hh. change (request_timeout p w) with w1.
    clearbody w1. by world w1.
  - rewrite <- Hs. unfold settlements. clearbody w1. by world w1.
Qed.

Lemma late_response_goes_to_the_event_handler_witness :
  Pending (js "r-2") 1 (run sample_pending (new_RemoteClient sample_token))
  /\ handled (run [TimeoutFires 1; SocketMessage 0 (Some sample_state_response)]
                (run sample_pending (new_RemoteClient sample_token)))
     = handled (run sample_pending (new_RemoteClient sample_token))
       ++ [EvMessage sample_state_response]
  /\ settlements 1 (run [TimeoutFires 1; SocketMessage 0 (Some sample_state_response)]
                      (run sample_pending (new_RemoteClient sample_token)))
     = [Rejected (js "Request timeout")].
Proof.
  assert (HP : Pending (js "r-2") 1 (run sample_pending (new_RemoteClient sample_token))).
  { repeat split; by vm_compute. }
  split; [exact HP|].
  apply (late_response_goes_to_the_event_handler
           (run sample_pending (new_RemoteClient sample_token)) 0 (js "r-2") 1
           sample_state_response HP); by vm_compute.
Defined.

Lemma unsettled_is_not_settled (p : nat) (w : World) :
  settlements p w = [] -> is_settled p w = false.
Proof.
  unfold settlements, is_settled. induction (settled w) as [|[q o] l IH]; [done|].
  rewrite filter_cons. cbn [existsb fst]. case_decide as E; cbn in E.
  - done.
  - intros H. rewrite IH by done. by rewrite (proj2 (Nat.eqb_neq q p)).
Qed.

(** X22.  The [_subscribed] flag follows the response, not the request: when the
    response to [subscribe()] arrives the flag becomes true unless the
    response is an [operation_result] without [success] (any other frame
    with the id of the request counts as success); the response to
    [unsubscribe()] clears it whatever it says; the other methods leave
    it alone. *)
Theorem subscription_flag_follows_the_response
    (tok : jsstring) (trace : list Event) (m : Method) (arg : option json)
    (id timestamp : jsstring) (k : nat) (message : json) :
  NoDup (request_ids trace) ->
  _status (client (run trace (new_RemoteClient tok))) = connected ->
  ws (client (run trace (new_RemoteClient tok))) <> None ->
  get message "id" = Some (JString id) ->
  _subscribed (client (step (run trace (new_RemoteClient tok))
                         (Call m arg id timestamp)))
  = _subscribed (client (run trace (new_RemoteClient tok)))
  /\ _subscribed
       (client (onmessage k (Some message)
                  (step (run trace (new_RemoteClient tok)) (Call m arg id timestamp))))
     = subscribed_after m message
         (_subscribed (client (run trace (new_RemoteClient tok)))).
Proof.
  intros Hnd Hst Hws Hid.
  pose proof (reachable_requests_inv tok trace Hnd) as HR.
  pose proof (reachable_sockets_inv tok trace) as HS.
  set (w := run trace (new_RemoteClient tok)) in *. clearbody w.
  destruct (ws (client w)) as [k0|] eqn:Ek; [|done].
  pose proof (inv_future _ _ HR (nextRequest w) (le_n _)) as Hfut.
  apply unsettled_is_not_settled in Hfut.
  cbn [step]. unfold call.
  destruct (request_connected m (request_message m arg) id timestamp w k0 HS Hst Ek)
    as [l ->].
  cbn [fst]. split; [by world w|].
  assert (E : forall w1, onmessage k (Some message) w1 = handleMessage message k w1).
  { intros w1. destruct message; try done. }
  rewrite E. unfold handleMessage. rewrite Hid.
  unfold is_settled in Hfut. world w.
  rewrite lookup_insert_eq. cbn [promise timeout]. unfold settle, is_settled. setters.
  rewrite Hfut. cbn [negb]. rewrite lookup_insert_eq.
  unfold subscribed_after. destruct m; cbn [resume]; try done.
  by destruct (is_literal (get message "type") "operation_result"
               && negb (truthy_value (get message "success"))).
Qed.

Lemma subscription_flag_follows_the_response_witness :
  NoDup (request_ids sample_connected)
  /\ _status (client (run sample_connected (new_RemoteClient sample_token))) = connected
  /\ _subscribed
       (client (onmessage 0 (Some sample_subscribe_refused)
                  (step (run sample_connected (new_RemoteClient sample_token))
                     (Call m_subscribe None (js "r-1") (js "2026-01-01T00:00:01Z")))))
     = false.
Proof.
  assert (Hnd : NoDup (request_ids sample_connected)).
  { apply (bool_decide_unpack _). by vm_compute. }
  split; [exact Hnd|]. split; [by vm_compute|].
  destruct (subscription_flag_follows_the_response sample_token sample_connected
              m_subscribe None (js "r-1") (js "2026-01-01T00:00:01Z") 0
              sample_subscribe_refused Hnd) as [_ ->]; by vm_compute.
Defined.

(** *** The frame of a request *)

Lemma assoc_obj_set_eq (key : jsstring) (v : json) (fields : list (jsstring * json)) :
  assoc key (obj_set key v fields) = Some v.
Proof.
  induction fields as [|[k x] fields IH]; cbn [obj_set assoc].
  - by rewrite bool_decide_eq_true_2.
  - destruct (bool_decide_reflect (k = key)) as [->|Hne]; cbn [assoc].
    + by rewrite bool_decide_eq_true_2.
    + by rewrite bool_decide_eq_false_2.
Qed.

Lemma assoc_obj_set_ne (key key' : jsstring) (v : json) (fields : list (jsstring * json)) :
  key <> key' -> assoc key (obj_set key' v fields) = assoc key fields.
Proof.
  intros Hne. induction fields as [|[k x] fields IH]; cbn [obj_set assoc].
  - by rewrite bool_decide_eq_false_2.
  - destruct (bool_decide_reflect (k = key')) as [->|Hk]; cbn [assoc].
    + by rewrite !bool_decide_eq_false_2.
    + by rewrite IH.
Qed.

(** X28.  A request made on an open connection puts exactly one frame on
    the wire, on the client's socket: it carries the [type] of the method,
    the id under which the request is now pending, and the timestamp. *)
Theorem request_frame_carries_its_id
    (w : World) (m : Method) (arg : option json) (id timestamp : jsstring)
    (k : nat) (s : WebSocket) :
  _status (client w) = connected -> ws (client w) = Some k ->
  sockets w !! k = Some s -> readyState s = OPEN ->
  exists frame,
    wire (step w (Call m arg id timestamp)) = wire w ++ [(k, frame)]
    /\ get frame "type" = Some (str (method_type m))
    /\ get frame "id" = Some (JString id)
    /\ get frame "timestamp" = Some (JString timestamp)
    /\ pendingRequests (client (step w (Call m arg id timestamp))) !! id
       = Some {| promise := nextRequest w; timeout := nextRequest w |}.
Proof.
  intros Hst Hws Hk Hr. cbn [step]. unfold call, request. rewrite Hst, Hws.
  unfold ws_send. world w. rewrite Hk, Hr. cbn [fst]. setters.
  eexists. split; [reflexivity|]. cbn [get].
  split; [|split; [|split]].
  - rewrite !assoc_obj_set_ne by (by vm_compute). by destruct m.
  - rewrite assoc_obj_set_ne by (by vm_compute). apply assoc_obj_set_eq.
  - apply assoc_obj_set_eq.
  - by rewrite lookup_insert_eq.
Qed.

Lemma request_frame_carries_its_id_witness :
  _status (client (run sample_connected (new_RemoteClient sample_token))) = connected
  /\ exists frame,
       wire (step (run sample_connected (new_RemoteClient sample_token))
               (Call m_addIterations (Some (JNumber 5)) (js "r-1")
                  (js "2026-01-01T00:00:01Z")))
       = wire (run sample_connected (new_RemoteClient sample_token)) ++ [(0, frame)]
       /\ get frame "type" = Some (str "add_iterations")
       /\ get frame "id" = Some (JString (js "r-1")).
Proof.
  split; [by vm_compute|].
  destruct (request_frame_carries_its_id
              (run sample_connected (new_RemoteClient sample_token))
              m_addIterations (Some (JNumber 5)) (js "r-1")
              (js "2026-01-01T00:00:01Z") 0
              {| readyState := OPEN; handlers := true; closeFired := false |})
    as (frame & Hw & Ht & Hi & _); [by vm_compute..|].
  exists frame. by repeat split.
Defined.

(** *** A close event that arrives after the caller has connected again *)

Lemma cleanup_logs (w : World) :
  handled (cleanup w) = handled w
  /\ connectSettled (cleanup w) = connectSettled w
  /\ wire (cleanup w) = wire w.
Proof. by rewrite cleanup_eq. Qed.

(** A stranded client stays stranded under every event but a call of
    [disconnect()]; it sends nothing and settles no [connect()]. *)
Lemma stranded_step (w : World) (e : Event) :
  e <> CallDisconnect -> Stranded w ->
  Stranded (step w e)
  /\ connectSettled (step w e) = connectSettled w
  /\ wire (step w e) = wire w.
Proof.
  intros He (Hst & Hws & Hso). destruct e; cbn [step]; try done.
  - unfold connect. by rewrite Hst.
  - unfold send. by rewrite Hws.
  - unfold call. rewrite request_not_connected by (right; done). done.
  - destruct (sockets w !! k) as [[r h c]|] eqn:Hk; [|done].
    destruct r, h, c; try done. by specialize (Hso _ _ Hk eq_refl).
  - destruct (sockets w !! k) as [[r h c]|] eqn:Hk; [|done].
    destruct r, h, c; try done. by specialize (Hso _ _ Hk eq_refl).
  - destruct (sockets w !! k) as [[r h c]|] eqn:Hk; [|done].
    destruct r, h, c; try done; by specialize (Hso _ _ Hk eq_refl).
  - destruct (sockets w !! k) as [[r h c]|] eqn:Hk; [|done].
    destruct h, c; try done. unfold onclose.
    set (w1 := set_socket _ _ _).
    assert (Hst1 : _status (client (cleanup w1)) = connecting).
    { rewrite cleanup_status. subst w1. by world w. }
    rewrite Hst1. destruct (cleanup_logs w1) as (_ & -> & ->).
    split; [|subst w1; by world w].
    split; [done|]. split; [apply cleanup_ws|].
    rewrite cleanup_eq. cbv zeta. subst w1. world w. subst c_ws.
    intros k' s' Hl Hh.
    apply lookup_insert_Some in Hl as [[<- <-]|[_ Hl]]; [done|]. eauto.
  - destruct (request_timeout_logs t w) as (_ & -> & ->). split; [|done].
    pose proof (request_timeout_sockets_view t w) as E. unfold sockets_view in E.
    injection E as E1 E2 E3 _. unfold Stranded. by rewrite E1, E2, E3.
  - unfold ping. rewrite Hst. by destruct (bool_decide _).
Qed.

Lemma stranded_run (later : list Event) (w : World) :
  CallDisconnect ∉ later -> Stranded w ->
  Stranded (run later w)
  /\ connectSettled (run later w) = connectSettled w
  /\ wire (run later w) = wire w.
Proof.
  revert w. induction later as [|e later IH]; intros w Hn HS; [done|].
  cbn [run fold_left].
  destruct (stranded_step w e) as (HS1 & <- & <-); [|done|].
  - intros ->. apply Hn. by left.
  - apply IH; [|done]. intros Hin. apply Hn. by right.
Qed.

(** X23.  A close event that comes late strands the client.  When a connection
    has failed (['error'] sets the status to ['disconnected'] but keeps
    the socket and its handlers) and the caller connects again before the
    close event of the failed socket arrives, that event's [cleanup()]
    closes the new socket.  The client is left ['connecting'] without a
    socket; whatever happens next, short of [disconnect()], it sends
    nothing and settles no [connect()], so the promise of the second
    [connect()] stays pending. *)
Theorem late_close_strands_the_reconnect
    (tok : jsstring) (trace later : list Event) (k : nat) (s : WebSocket) :
  _status (client (run trace (new_RemoteClient tok))) = disconnected ->
  sockets (run trace (new_RemoteClient tok)) !! k = Some s ->
  handlers s = true -> closeFired s = false ->
  CallDisconnect ∉ later ->
  Stranded (run (CallConnect None :: SocketClose k :: later)
              (run trace (new_RemoteClient tok)))
  /\ connectSettled (run (CallConnect None :: SocketClose k :: later)
                       (run trace (new_RemoteClient tok)))
     = connectSettled (run trace (new_RemoteClient tok))
  /\ wire (run (CallConnect None :: SocketClose k :: later)
             (run trace (new_RemoteClient tok)))
     = wire (run trace (new_RemoteClient tok)).
Proof.
  intros Hst Hk Hh Hc Hlater.
  pose proof (reachable_sockets_inv tok trace) as HS.
  set (w := run trace (new_RemoteClient tok)) in *. clearbody w.
  assert (Hlt : k < nextConnect w).
  { destruct (decide (k < nextConnect w)) as [|Hge]; [done|].
    rewrite (inv_sockets_fresh _ HS k) in Hk; [done|lia]. }
  assert (Hclosed : forall k' s', sockets w !! k' = Some s' -> handlers s' = true ->
                                  readyState s' = CLOSED).
  { intros k' s' Hl Hh'. destruct (decide (ws (client w) = Some k')) as [E|E].
    - by eapply (inv_disconnected_closed _ HS).
    - by eapply (inv_stale_closed _ HS). }
  change (run (CallConnect None :: SocketClose k :: later) w)
    with (run later (step (step w (CallConnect None)) (SocketClose k))).
  set (w2 := step (step w (CallConnect None)) (SocketClose k)).
  assert (H2 : Stranded w2 /\ connectSettled w2 = connectSettled w
               /\ wire w2 = wire w).
  { subst w2. cbn [step]. unfold connect. rewrite Hst. destruct s as [r h c].
    cbn in Hh, Hc. subst h c.
    world w. subst c_status. rewrite lookup_insert_ne by lia. rewrite Hk.
    unfold onclose. rewrite cleanup_eq. cbv zeta. unfold ws_detach_close. setters.
    rewrite lookup_insert_ne by lia. rewrite lookup_insert_eq. setters.
    split; [|done]. split; [done|]. split; [done|]. setters.
    intros k' s' Hl Hh'.
    apply lookup_insert_Some in Hl as [[<- <-]|[Hne Hl]]; [done|].
    apply lookup_insert_Some in Hl as [[<- <-]|[_ Hl]]; [done|].
    rewrite lookup_insert_ne in Hl by done. eauto. }
  destruct H2 as (HS2 & <- & <-). by apply stranded_run.
Qed.

Lemma late_close_strands_the_reconnect_witness :
  _status (client (run sample_failed (new_RemoteClient sample_token))) = disconnected
  /\ sockets (run sample_failed (new_RemoteClient sample_token)) !! 0
     = Some {| readyState := CLOSED; handlers := true; closeFired := false |}
  /\ (CallDisconnect ∉ sample_after_reconnect)
  /\ _status (client (run (CallConnect None :: SocketClose 0 :: sample_after_reconnect)
                        (run sample_failed (new_RemoteClient sample_token))))
     = connecting
  /\ ws (client (run (CallConnect None :: SocketClose 0 :: sample_after_reconnect)
                   (run sample_failed (new_RemoteClient sample_token))))
     = None.
Proof.
  assert (Hn : CallDisconnect ∉ sample_after_reconnect).
  { unfold sample_after_reconnect. rewrite !not_elem_of_cons.
    repeat split; try done. apply not_elem_of_nil. }
  split; [by vm_compute|]. split; [by vm_compute|]. split; [exact Hn|].
  destruct (late_close_strands_the_reconnect sample_token sample_failed
              sample_after_reconnect 0
              {| readyState := CLOSED; handlers := true; closeFired := false |})
    as ((H1 & H2 & _) & _); [by vm_compute..|exact Hn|].
  by split.
Defined.

End RemoteMore.

(** ** Detection of beads-rust *)
Module BeadsRustDetection.
Import Js Kimi BeadsRustDetect KimiSpec.

(** *** [extractBrVersion] *)

Lemma non_ws_spec (s : jsstring) : Forall (fun c => is_whitespace c = false) (non_ws s).
Proof.
  induction s as [|c s IH]; [by constructor|].
  cbn [non_ws]. destruct (is_whitespace c) eqn:E; by constructor.
Qed.

Lemma capture_spec (s v : jsstring) :
  capture s = Some v -> v <> [] /\ Forall (fun c => is_whitespace c = false) v.
Proof.
  unfold capture. pose proof (non_ws_spec s) as H.
  destruct (non_ws s) as [|c r]; [done|]. by intros [= <-].
Qed.

Lemma tail_match_spec (s v : jsstring) :
  tail_match s = Some v -> v <> [] /\ Forall (fun c => is_whitespace c = false) v.
Proof.
  unfold tail_match. destruct (ws1 s) as [r|]; [|done]. apply capture_spec.
Qed.

Lemma after_br_spec (s v : jsstring) :
  after_br s = Some v -> v <> [] /\ Forall (fun c => is_whitespace c = false) v.
Proof.
  unfold after_br.
  destruct ((ws1 s ≫= literal_ci (js "version")) ≫= tail_match) as [v'|] eqn:E.
  - intros [= <-]. destruct (ws1 s ≫= literal_ci (js "version")) as [r|]; [|done].
    by eapply tail_match_spec.
  - apply tail_match_spec.
Qed.

Lemma search_spec (s v : jsstring) (prev : option N) :
  search prev s = Some v -> v <> [] /\ Forall (fun c => is_whitespace c = false) v.
Proof.
  revert prev. induction s as [|c s IH]; intros prev.
  - cbn. done.
  - cbn [search]. destruct (match_here prev (c :: s)) as [v'|] eqn:E.
    + intros [= <-]. unfold match_here in E. destruct s as [|r rest]; [done|].
      destruct (_ && _); [|done]. by eapply after_br_spec.
    + apply IH.
Qed.

Lemma extractBrVersion_word (stdout : jsstring) :
  extractBrVersion stdout <> []
  /\ Forall (fun c => is_whitespace c = false) (extractBrVersion stdout).
Proof.
  unfold extractBrVersion. cbv zeta.
  destruct (search None (trim stdout)) as [v|] eqn:E.
  - by eapply search_spec.
  - split; [by vm_compute|]. apply Forall_forall. intros c Hc.
    vm_compute in Hc. repeat (apply elem_of_cons in Hc as [->|Hc]; [done|]).
    by apply elem_of_nil in Hc.
Qed.

(** X24.  [extractBrVersion] never returns an empty string, nor one with
    white space in it: it is the first word after [br] (after
    [br version] when a further word follows), or ['unknown'] when the
    output has no [br] followed by a word. *)
Theorem extractBrVersion_is_one_word (stdout : jsstring) :
  extractBrVersion stdout <> []
  /\ Forall (fun c => is_whitespace c = false) (extractBrVersion stdout)
  /\ (search None (trim stdout) = None -> extractBrVersion stdout = js "unknown").
Proof.
  split; [apply extractBrVersion_word|]. split; [apply extractBrVersion_word|].
  unfold extractBrVersion. cbv zeta. by intros ->.
Qed.

Lemma trimStart_word (v : jsstring) :
  Forall (fun c => is_whitespace c = false) v -> trimStart v = v.
Proof. intros [|c r Hc _]; [done|]. cbn. by rewrite Hc. Qed.

Lemma non_ws_word (v : jsstring) :
  Forall (fun c => is_whitespace c = false) v -> non_ws v = v.
Proof.
  induction 1 as [|c r Hc _ IH]; [done|]. cbn. by rewrite Hc, IH.
Qed.

Lemma trimEnd_word (s v : jsstring) :
  v <> [] -> Forall (fun c => is_whitespace c = false) v -> trimEnd (s ++ v) = s ++ v.
Proof.
  intros Hne Hv. unfold trimEnd. rewrite rev_app_distr.
  assert (Hr : Forall (fun c => is_whitespace c = false) (rev v))
    by (by apply Forall_rev).
  destruct (rev v) as [|c r] eqn:E.
  - apply (f_equal (@rev N)) in E. rewrite rev_involutive in E. done.
  - apply Forall_cons in Hr as [Hc _]. cbn [app trimStart]. rewrite Hc.
    change (c :: r ++ rev s) with ((c :: r) ++ rev s).
    by rewrite <- E, <- rev_app_distr, rev_involutive.
Qed.

Lemma trimEnd_LF (s : jsstring) : trimEnd (s ++ [LF]) = trimEnd s.
Proof. unfold trimEnd. by rewrite rev_app_distr. Qed.

Lemma literal_ci_suffix (lit s rest : jsstring) :
  literal_ci lit s = Some rest -> rest `suffix_of` s.
Proof.
  revert s. induction lit as [|l lit IH]; intros s; cbn [literal_ci].
  - by intros [= <-].
  - destruct s as [|c s]; [done|]. destruct (eq_ci l c); [|done].
    intros H. apply suffix_cons_r. by apply IH.
Qed.

Lemma ws1_word (v : jsstring) :
  Forall (fun c => is_whitespace c = false) v -> ws1 v = None.
Proof. intros [|c r Hc _]; [done|]. cbn. by rewrite Hc. Qed.

Lemma tail_match_space_word (v : jsstring) :
  v <> [] -> Forall (fun c => is_whitespace c = false) v ->
  tail_match (32%N :: v) = Some v.
Proof.
  intros Hne Hv. unfold tail_match. cbn [ws1]. change (is_whitespace 32) with true.
  cbn [mbind option_bind]. rewrite trimStart_word by done.
  unfold capture. rewrite non_ws_word by done. by destruct v.
Qed.

Lemma search_here (prev : option N) (s v : jsstring) :
  match_here prev s = Some v -> search prev s = Some v.
Proof. destruct s; cbn [search]; by intros ->. Qed.

Lemma match_here_br (rest : jsstring) :
  match_here None (98 :: 114 :: 32 :: rest)%N = after_br (32 :: rest)%N.
Proof. done. Qed.

Lemma after_br_space (rest : jsstring) :
  after_br (32 :: rest)%N
  = match literal_ci (js "version") (trimStart rest) ≫= tail_match with
    | Some v => Some v
    | None => tail_match (32 :: rest)%N
    end.
Proof. done. Qed.

(** X25.  [extractBrVersion] reads the two formats it is written for: from
    [br <version>] and from [br version <version>], each ended by a line
    feed, it returns the version, whatever word that is. *)
Theorem extractBrVersion_reads_the_version (v : jsstring) :
  v <> [] -> Forall (fun c => is_whitespace c = false) v ->
  extractBrVersion (js "br " ++ v ++ [LF]) = v
  /\ extractBrVersion (js "br version " ++ v ++ [LF]) = v.
Proof.
  intros Hne Hv. unfold extractBrVersion, trim. cbv zeta. split.
  - change (js "br ") with [98; 114; 32]%N.
    change (trimStart ([98; 114; 32]%N ++ v ++ [LF]))
      with ([98; 114; 32]%N ++ v ++ [LF]).
    rewrite (app_assoc _ v [LF]), trimEnd_LF, trimEnd_word by done.
    rewrite (search_here None _ v); [done|].
    change ([98; 114; 32]%N ++ v) with (98 :: 114 :: 32 :: v)%N.
    rewrite match_here_br, after_br_space, trimStart_word by done.
    rewrite tail_match_space_word by done.
    destruct (literal_ci (js "version") v) as [rest|] eqn:E; [|done].
    cbn [mbind option_bind]. unfold tail_match at 1. rewrite ws1_word; [done|].
    apply literal_ci_suffix in E as [k ->]. by apply Forall_app in Hv as [_ ?].
  - change (js "br version ")
      with ([98; 114; 32; 118; 101; 114; 115; 105; 111; 110; 32]%N).
    change (trimStart ([98; 114; 32; 118; 101; 114; 115; 105; 111; 110; 32]%N
                       ++ v ++ [LF]))
      with ([98; 114; 32; 118; 101; 114; 115; 105; 111; 110; 32]%N ++ v ++ [LF]).
    rewrite (app_assoc _ v [LF]), trimEnd_LF, trimEnd_word by done.
    rewrite (search_here None _ v); [done|].
    change ([98; 114; 32; 118; 101; 114; 115; 105; 111; 110; 32]%N ++ v)
      with (98 :: 114 :: 32 :: 118 :: 101 :: 114 :: 115 :: 105 :: 111 :: 110
            :: 32 :: v)%N.
    rewrite match_here_br, after_br_space.
    change (trimStart (118 :: 101 :: 114 :: 115 :: 105 :: 111 :: 110 :: 32 :: v)%N)
      with (118 :: 101 :: 114 :: 115 :: 105 :: 111 :: 110 :: 32 :: v)%N.
    change (literal_ci (js "version")
              (118 :: 101 :: 114 :: 115 :: 105 :: 111 :: 110 :: 32 :: v)%N)
      with (Some (32 :: v)%N).
    cbn [mbind option_bind]. by rewrite tail_match_space_word.
Qed.

Lemma extractBrVersion_reads_the_version_witness :
  js "1.2.3" <> []
  /\ Forall (fun c => is_whitespace c = false) (js "1.2.3")
  /\ extractBrVersion (js "br " ++ js "1.2.3" ++ [LF]) = js "1.2.3"
  /\ extractBrVersion (js "br version " ++ js "1.2.3" ++ [LF]) = js "1.2.3".
Proof.
  assert (H1 : js "1.2.3" <> []) by (by vm_compute).
  assert (H2 : Forall (fun c => is_whitespace c = false) (js "1.2.3")).
  { apply Forall_forall. intros c Hc. vm_compute in Hc.
    repeat (apply elem_of_cons in Hc as [->|Hc]; [done|]).
    by apply elem_of_nil in Hc. }
  split; [exact H1|]. split; [exact H2|].
  exact (extractBrVersion_reads_the_version (js "1.2.3") H1 H2).
Defined.

(** *** [execBr] and [detect] *)

Lemma exec_settled_stays (events : list ProcEvent) (probe : ExecProbe) (r : ExecResult) :
  exec_settled probe = PromiseResolved r ->
  exec_settled (fold_left execBr_on events probe) = PromiseResolved r.
Proof.
  revert probe. induction events as [|e events IH]; intros probe H; [done|].
  cbn [fold_left]. apply IH. destruct e; cbn; by rewrite ?H.
Qed.

(** What [execBr] resolves with: the first ['error'] or ['close'] event
    decides; without one the promise stays pending. *)
Lemma execBr_pending (events : list ProcEvent) (probe : ExecProbe) :
  exec_settled probe = PromisePending ->
  match first_settling events with
  | None => exec_settled (fold_left execBr_on events probe) = PromisePending
  | Some e =>
      exists r,
        exec_settled (fold_left execBr_on events probe) = PromiseResolved r
        /\ (exitCode r = 0%Z <-> e = ProcClose (Some 0%Z))
  end.
Proof.
  revert probe. induction events as [|e events IH]; intros probe H; [done|].
  destruct e as [data|data|message|code]; cbn [fold_left first_settling].
  - by apply IH.
  - by apply IH.
  - eexists. split; [apply exec_settled_stays; cbn; by rewrite H|]. by cbn.
  - eexists. split; [apply exec_settled_stays; cbn; by rewrite H|]. cbn.
    destruct code as [c|]; [|done]. split; [by intros ->|by intros [= ->]].
Qed.

(** [execBr] when [spawn] starts the process. *)
Lemma execBr_started (spawn_throws : jsstring -> option jsstring)
    (dir : jsstring) (events : list ProcEvent) :
  spawn_throws dir = None ->
  match first_settling events with
  | None => execBr spawn_throws dir events = PromisePending
  | Some e =>
      exists r,
        execBr spawn_throws dir events = PromiseResolved r
        /\ (exitCode r = 0%Z <-> e = ProcClose (Some 0%Z))
  end.
Proof.
  intros H. unfold execBr. rewrite H. by apply execBr_pending.
Qed.

(** The ways [detect] can go, in the order in which it decides. *)
Lemma detect_cases
    (cwd : jsstring + jsstring) (join : jsstring -> jsstring -> jsstring)
    (readable : jsstring -> bool) (spawn_throws : jsstring -> option jsstring)
    (config : json) (events : list ProcEvent)
    (p : BeadsRust.BeadsRustTrackerPlugin) :
  match workingDir cwd config with
  | inl reason =>
      detect cwd join readable spawn_throws config events p = (Throws reason, p)
  | inr dir =>
      if readable (beadsDirPath join dir config) then
        match spawn_throws dir with
        | Some reason =>
            detect cwd join readable spawn_throws config events p
            = (Throws reason, p)
        | None =>
            match first_settling events with
            | None =>
                detect cwd join readable spawn_throws config events p
                = (NeverReturns, p)
            | Some e =>
                exists r p',
                  detect cwd join readable spawn_throws config events p
                  = (Returns r, p')
                  /\ (available r = true <-> e = ProcClose (Some 0%Z))
                  /\ (available r = false ->
                      brVersion r = None /\ exists e, error r = Some e /\ e <> [])
                  /\ (available r = true ->
                      beadsDir r = Some (beadsDirPath join dir config)
                      /\ exists v, brVersion r = Some v /\ v <> [])
            end
        end
      else
        exists r,
          detect cwd join readable spawn_throws config events p = (Returns r, p)
          /\ available r = false /\ brVersion r = None
          /\ exists e, error r = Some e /\ e <> []
  end.
Proof.
  unfold detect.
  destruct (workingDir cwd config) as [reason|dir]; [done|]. cbv zeta.
  destruct (readable (beadsDirPath join dir config)) eqn:Hr; cbn [negb].
  - destruct (spawn_throws dir) as [reason|] eqn:Hsp.
    { unfold execBr. by rewrite Hsp. }
    pose proof (execBr_started spawn_throws dir events Hsp) as H.
    destruct (first_settling events) as [e|] eqn:Hf.
    + destruct H as (r & -> & Hcode). cbn [await].
      destruct (exitCode r =? 0)%Z eqn:Ec; cbn [negb].
      * apply Z.eqb_eq in Ec. eexists _, _. split; [reflexivity|].
        cbn [available error beadsDir brVersion brPath].
        split; [split; [|done]; intros _; by apply Hcode|].
        split; [done|]. intros _. split; [done|]. eexists. split; [reflexivity|].
        apply extractBrVersion_word.
      * apply Z.eqb_neq in Ec. eexists _, _. split; [reflexivity|].
        cbn [available error beadsDir brVersion brPath].
        split.
        { split; [done|]. intros ->. exfalso. apply Ec. by apply Hcode. }
        split; [|done]. intros _. split; [done|]. eexists. split; [reflexivity|].
        first [done | by apply js_app_nonempty].
    + rewrite H. by cbn [await].
  - eexists. split; [reflexivity|].
    cbn [available error beadsDir brVersion brPath].
    split; [done|]. split; [done|]. eexists. split; [reflexivity|].
    first [done | by apply js_app_nonempty].
Qed.



(** X27.  [isReady()] answers from the stored flag, and runs a detection only
    while the flag is false.  So once beads-rust has been detected,
    [isReady()] keeps answering true whatever has become of the
    directory and of the [br] binary; and whenever it returns, the flag
    it leaves is the answer it gave. *)
Theorem isReady_detects_until_ready
    (cwd cwd' : jsstring + jsstring)
    (join join' : jsstring -> jsstring -> jsstring)
    (readable readable' : jsstring -> bool)
    (spawn_throws spawn_throws' : jsstring -> option jsstring)
    (config config' : json)
    (events events' : list ProcEvent) (p : BeadsRust.BeadsRustTrackerPlugin) :
  (forall b,
      (isReady cwd join readable spawn_throws config events p).1 = Returns b ->
      BeadsRust.ready (isReady cwd join readable spawn_throws config events p).2 = b)
  /\ (BeadsRust.ready p = true ->
      isReady cwd join readable spawn_throws config events p = (Returns true, p))
  /\ ((isReady cwd join readable spawn_throws config events p).1 = Returns true ->
      isReady cwd' join' readable' spawn_throws' config' events'
        (isReady cwd join readable spawn_throws config events p).2
      = (Returns true, (isReady cwd join readable spawn_throws config events p).2)).
Proof.
  assert (H1 : forall b,
             (isReady cwd join readable spawn_throws config events p).1 = Returns b ->
             BeadsRust.ready (isReady cwd join readable spawn_throws config events p).2
             = b).
  { intros b. unfold isReady. destruct (BeadsRust.ready p) eqn:Hp; cbn [negb].
    - by intros [= <-].
    - destruct (detect cwd join readable spawn_throws config events p)
        as [[r| |] p']; cbn; [by intros [= <-]|done|done]. }
  split; [exact H1|]. split.
  - intros Hp. unfold isReady. by rewrite Hp.
  - intros H. specialize (H1 true H). unfold isReady at 1. by rewrite H1.
Qed.

End BeadsRustDetection.
